(** * Free-text aggregation and clustering engine ([TextAggregator])

    A shallow embedding of [TextAggregator] from
    [scripts/FINAI-95/aiProcessorUI.js] and the properties of its
    validity filter, theme labelling, clustering pass, post-merge pass and
    per-category aggregation; of the [byLeader] bookkeeping and the
    statistics of a run; and of what its callers make of the result: the
    clusters that [PromptBuilder.buildCategoryPrompt]
    ([scripts/FINAI-95/qualPromptBuilder.js]) describes, and the leader
    batches of [AIProcessor.processLeaderInsights]
    ([scripts/FINAI-95/aiProcessor.js]).

    Conventions of the embedding.
    - A JavaScript string is a sequence of UTF-16 code units; the embedding
      covers the code units below 256 and represents a string as a Rocq
      [string], one [ascii] per code unit.
    - A JavaScript number that the code obtains by dividing or by averaging
      is an IEEE-754 binary64 value, represented by a primitive [float];
      lengths, sizes and counters are natural numbers.
    - A JavaScript [Set] iterates in insertion order: it is a duplicate-free
      list, and [new Set(xs)] keeps the first occurrence of every element.
    - An object used as a dictionary iterates its string keys in insertion
      order: it is an association list. *)

From Stdlib Require Import List String Ascii Bool Arith ZArith Lia.
From Stdlib Require Import Permutation Sorted Floats Uint63.
Import ListNotations.
Open Scope string_scope.
Open Scope nat_scope.

#[local] Set Warnings "-inexact-float".

(** ** JavaScript strings *)

Module Js.

(** [WhiteSpace] and [LineTerminator] code units below 256: TAB, LF, VT,
    FF, CR, SP and NBSP.  This is the class [\s] and what [trim] strips. *)
Definition isWhiteSpace (c : ascii) : bool :=
  let n := nat_of_ascii c in
  ((9 <=? n) && (n <=? 13)) || (n =? 32) || (n =? 160).

(** The characters that [.] does not match. *)
Definition isLineTerminator (c : ascii) : bool :=
  let n := nat_of_ascii c in (n =? 10) || (n =? 13).

(** The class [\w], which decides where [\b] holds. *)
Definition isWordChar (c : ascii) : bool :=
  let n := nat_of_ascii c in
  ((48 <=? n) && (n <=? 57)) || ((65 <=? n) && (n <=? 90))
  || ((97 <=? n) && (n <=? 122)) || (n =? 95).

(** ASCII case folding, as used by the [i] flag on ASCII letters. *)
Definition asciiLower (c : ascii) : ascii :=
  let n := nat_of_ascii c in
  if (65 <=? n) && (n <=? 90) then ascii_of_nat (n + 32) else c.

(** [String.prototype.toLowerCase] on one code unit below 256: the ASCII
    capitals and the Latin-1 capitals (all of 192..222 but the
    multiplication sign 215). *)
Definition lowerChar (c : ascii) : ascii :=
  let n := nat_of_ascii c in
  if ((65 <=? n) && (n <=? 90))
     || ((192 <=? n) && (n <=? 222) && negb (n =? 215))
  then ascii_of_nat (n + 32) else c.

Fixpoint toLowerCase (s : string) : string :=
  match s with
  | EmptyString => EmptyString
  | String c r => String (lowerChar c) (toLowerCase r)
  end.

Definition isEmpty (s : string) : bool :=
  match s with EmptyString => true | String _ _ => false end.

Fixpoint trimStart (s : string) : string :=
  match s with
  | EmptyString => EmptyString
  | String c r => if isWhiteSpace c then trimStart r else s
  end.

Fixpoint trimEnd (s : string) : string :=
  match s with
  | EmptyString => EmptyString
  | String c r =>
      let r' := trimEnd r in
      if isWhiteSpace c && isEmpty r' then EmptyString else String c r'
  end.

Definition trim (s : string) : string := trimEnd (trimStart s).

(** [s.split(/\s+/)]: the pieces between maximal runs of white space.  A
    string that starts (ends) with white space yields an empty first
    (last) piece, and the empty string yields one empty piece. *)
Fixpoint splitWsFrom (cur : string) (inWs : bool) (s : string) : list string :=
  match s with
  | EmptyString => [cur]
  | String c r =>
      if isWhiteSpace c then
        if inWs then splitWsFrom cur true r
        else cur :: splitWsFrom EmptyString true r
      else splitWsFrom (cur ++ String c EmptyString) false r
  end.

Definition splitWs (s : string) : list string := splitWsFrom EmptyString false s.

(** [s.split(sep)] for a one-character separator. *)
Fixpoint splitOnFrom (sep : ascii) (cur : string) (s : string) : list string :=
  match s with
  | EmptyString => [cur]
  | String c r =>
      if Ascii.eqb c sep then cur :: splitOnFrom sep EmptyString r
      else splitOnFrom sep (cur ++ String c EmptyString) r
  end.

Definition splitOn (sep : ascii) (s : string) : list string :=
  splitOnFrom sep EmptyString s.

(** [xs.join(sep)]. *)
Definition join (sep : string) (xs : list string) : string := String.concat sep xs.

(** [xs.includes(x)] and [set.has(x)] on strings. *)
Definition includes (xs : list string) (x : string) : bool :=
  existsb (String.eqb x) xs.

(** [s.substring(0, n)]. *)
Definition prefix (n : nat) (s : string) : string := substring 0 n s.

(** [s.lastIndexOf(c)], [-1] when [c] does not occur. *)
Fixpoint lastIndexOfFrom (c : ascii) (i : Z) (found : Z) (s : string) : Z :=
  match s with
  | EmptyString => found
  | String x r =>
      lastIndexOfFrom c (i + 1) (if Ascii.eqb x c then i else found) r
  end.

Definition lastIndexOf (c : ascii) (s : string) : Z := lastIndexOfFrom c 0 (-1) s.

(** [s.replace(re, repl)] for a global pattern that never matches the
    empty string.  [m prev rest] is the length of the match of the pattern
    at the current position, where [prev] is the code unit before it and
    [rest] the text from it on; after a match the scan resumes behind it. *)
Fixpoint replaceAll (m : option ascii -> string -> option nat) (repl : string)
    (skip : nat) (prev : option ascii) (s : string) : string :=
  match s with
  | EmptyString => EmptyString
  | String c r =>
      match skip with
      | S k => replaceAll m repl k (Some c) r
      | O =>
          match m prev s with
          | Some (S n) => repl ++ replaceAll m repl n (Some c) r
          | _ => String c (replaceAll m repl 0 (Some c) r)
          end
      end
  end.

Definition replace (m : option ascii -> string -> option nat) (repl s : string) : string :=
  replaceAll m repl 0 None s.

(** [new Set(xs)] and [set.add(x)] on strings, in insertion order. *)
Definition setAdd (s : list string) (x : string) : list string :=
  if includes s x then s else s ++ [x].

Definition setOf (xs : list string) : list string := fold_left setAdd xs [].

(** The same on the array indices kept in a [processed] set. *)
Definition has (s : list nat) (i : nat) : bool := existsb (Nat.eqb i) s.

Definition add (s : list nat) (i : nat) : list nat :=
  if has s i then s else s ++ [i].

(** A size or a length read as a number. *)
Definition num (n : nat) : float := PrimFloat.of_uint63 (Uint63.of_Z (Z.of_nat n)).

(** [xs.sort((a, b) => key(b) - key(a))] for a natural-number key: the
    stable sort by descending key ([Array.prototype.sort] is stable). *)
Section Sort.
Context {A : Type} (key : A -> nat).

Fixpoint insertDesc (x : A) (l : list A) : list A :=
    match l with
    | [] => [x]
    | y :: l' => if key x <? key y then y :: insertDesc x l' else x :: l
    end.

Definition sortDesc (l : list A) : list A := fold_right insertDesc [] l.
End Sort.

(** [xs.forEach((x, idx) => ...)] visits the pairs of an index and an
    element. *)
Definition indexedFrom {A : Type} (k : nat) (l : list A) : list (nat * A) :=
  combine (seq k (List.length l)) l.

Definition indexed {A : Type} (l : list A) : list (nat * A) := indexedFrom 0 l.

End Js.

(** ** Regular expressions

    The patterns of the source use literals, [?] on a literal, and [*] and
    [+] on a character class.  [accept] is a backtracking matcher in
    continuation-passing style; [ci] is the [i] flag. *)

Module Regex.

Inductive cls : Type :=
| CChar (c : ascii)   (* a literal character *)
| CDot.               (* [.] *)

Inductive regex : Type :=
| RLit (w : string)
| ROpt (r : regex)
| RStar (p : cls)
| RPlus (p : cls)
| RSeq (r1 r2 : regex).

Definition charEq (ci : bool) (x c : ascii) : bool :=
  if ci then Ascii.eqb (Js.asciiLower x) (Js.asciiLower c) else Ascii.eqb x c.

Definition clsMatch (ci : bool) (p : cls) (x : ascii) : bool :=
  match p with
  | CChar c => charEq ci x c
  | CDot => negb (Js.isLineTerminator x)
  end.

Fixpoint stripLit (ci : bool) (w s : string) : option string :=
  match w, s with
  | EmptyString, _ => Some s
  | String c w', String x s' => if charEq ci x c then stripLit ci w' s' else None
  | String _ _, EmptyString => None
  end.

Fixpoint star (ci : bool) (p : cls) (k : string -> bool) (s : string) : bool :=
  k s
  || match s with
     | String x s' => clsMatch ci p x && star ci p k s'
     | EmptyString => false
     end.

Fixpoint accept (ci : bool) (r : regex) (s : string) (k : string -> bool) : bool :=
  match r with
  | RLit w => match stripLit ci w s with Some rest => k rest | None => false end
  | ROpt r' => accept ci r' s k || k s
  | RStar p => star ci p k s
  | RPlus p =>
      match s with
      | String x s' => clsMatch ci p x && star ci p k s'
      | EmptyString => false
      end
  | RSeq r1 r2 => accept ci r1 s (fun rest => accept ci r2 rest k)
  end.

(** [/^r$/.test(s)]. *)
Definition fullMatch (ci : bool) (r : regex) (s : string) : bool :=
  accept ci r s Js.isEmpty.

(** [/r/.test(s)]: a match may start anywhere. *)
Fixpoint test (ci : bool) (r : regex) (s : string) : bool :=
  accept ci r s (fun _ => true)
  || match s with
     | String _ s' => test ci r s'
     | EmptyString => false
     end.

(** The pattern [w.*w1.*w2...]. *)
Fixpoint chain (w : string) (ws : list string) : regex :=
  match ws with
  | [] => RLit w
  | w' :: rest => RSeq (RLit w) (RSeq (RStar CDot) (chain w' rest))
  end.

End Regex.


(** ** The aggregator *)

Module TextAggregator.

Import Js Regex.

(** *** Data model *)

(** A value of a cleaned survey record: a trimmed string, a number or null. *)
Inductive JsValue : Type :=
| VNull
| VNum (n : Z)
| VStr (s : string).

Record RawResponse : Type := mkRaw {
  text : string;
  normalizedText : string;
  leader : option string;
  department : string;
  fullOriginal : string;
  semanticTokens : list string
}.

(** A cluster while the clustering pass builds it: [leaders] and
    [departments] are still sets ([null] can be a member of [leaders]). *)
Record OpenCluster : Type := mkOpen {
  o_theme : string;
  o_count : nat;
  o_examples : list string;
  o_leaders : list (option string);
  o_departments : list string;
  o_semanticSignature : list string;
  o_avgLength : float
}.

Record Cluster : Type := mkCluster {
  theme : string;
  count : nat;
  examples : list string;
  leaderCount : nat;
  departmentCount : nat;
  semanticSignature : list string;
  avgLength : float
}.

(** *** isValidTextResponse *)

Definition invalidPatterns : list regex :=
  [ RSeq (RLit "n") (RSeq (ROpt (RLit "/")) (RLit "a"));   (* /^n\/?a$/ *)
    RLit "none";
    RLit "no";
    RLit "nothing";
    RLit "nil";
    RPlus (CChar "-");                                      (* /^-+$/ *)
    RPlus (CChar ".");                                      (* /^\.+$/ *)
    RLit "na";
    RLit "not applicable";
    RLit "no comment";
    RLit "nope";
    RLit "nada" ].

Definition isValidTextResponse (value : JsValue) : bool :=
  match value with
  | VStr value =>
      let normalized := trim (toLowerCase value) in
      if existsb (fun pattern => fullMatch false pattern normalized) invalidPatterns
      then false
      else 8 <? String.length (trim value)
  | _ => false
  end.

(** *** enhancedCleanTextResponse *)

Definition isWordOpt (c : option ascii) : bool :=
  match c with Some x => isWordChar x | None => false end.

Definition headOf (s : string) : option ascii :=
  match s with String x _ => Some x | EmptyString => None end.

Fixpoint runLength (p : ascii -> bool) (s : string) : nat :=
  match s with
  | String x r => if p x then S (runLength p r) else 0
  | EmptyString => 0
  end.

Fixpoint dropChars (n : nat) (s : string) : string :=
  match n, s with
  | S k, String _ r => dropChars k r
  | _, _ => s
  end.

(** [/\bab+\b/gi] at the current position: the letter [a], then the longest
    run of the letter [b]; [\b] holds before the match when the previous
    character is not a word character and behind it when the next one is
    not (a shorter run is followed by [b], where [\b] fails). *)
Definition fillerAt (a b : ascii) (prev : option ascii) (rest : string) : option nat :=
  match rest with
  | String x r =>
      if charEq true x a && negb (isWordOpt prev) then
        let n := runLength (fun c => charEq true c b) r in
        if (1 <=? n) && negb (isWordOpt (headOf (dropChars n r)))
        then Some (1 + n) else None
      else None
  | EmptyString => None
  end.

(** [/\s{2,}/g] at the current position. *)
Definition spacesAt (_ : option ascii) (rest : string) : option nat :=
  let n := runLength isWhiteSpace rest in
  if 2 <=? n then Some n else None.

(** The four patterns are all replaced by the empty string: the test
    [pattern === /\s{2,}/g] compares two distinct objects and is false. *)
Definition minimalFillers : list (option ascii -> string -> option nat) :=
  [ fillerAt "u" "h"; fillerAt "u" "m"; fillerAt "e" "r"; spacesAt ].

Definition enhancedCleanTextResponse (text : string) : string :=
  let cleaned := trim text in
  let cleaned := fold_left (fun cleaned pattern => replace pattern "" cleaned)
                           minimalFillers cleaned in
  let cleaned := trim cleaned in
  if 500 <? String.length cleaned then
    let truncated := prefix 500 cleaned in
    let lastPeriod := lastIndexOf "." truncated in
    let lastExclamation := lastIndexOf "!" truncated in
    let lastQuestion := lastIndexOf "?" truncated in
    let lastSentenceEnd := Z.max (Z.max lastPeriod lastExclamation) lastQuestion in
    if (400 <? lastSentenceEnd)%Z
    then prefix (Z.to_nat (lastSentenceEnd + 1)) truncated
    else truncated
  else cleaned.

(** *** normalizeForClustering *)

Definition normalizations : list (string * string) :=
  [ ("mgmt", "management"); ("mgr", "manager"); ("comm", "communication");
    ("dev", "development"); ("info", "information"); ("tech", "technology");
    ("sys", "system"); ("proc", "process"); ("dept", "department");
    ("org", "organization") ].

(** [/\bshort\b/g] at the current position, for a [short] made of letters. *)
Definition wordAt (short : string) (prev : option ascii) (rest : string) : option nat :=
  if isWordOpt prev then None
  else match stripLit false short rest with
       | Some after =>
           if isWordOpt (headOf after) then None else Some (String.length short)
       | None => None
       end.

Definition normalizeForClustering (text : string) : string :=
  fold_left (fun normalized '(short, full) => replace (wordAt short) full normalized)
            normalizations (toLowerCase text).

(** *** extractSemanticTokens *)

Definition semanticCategories : list (string * list string) :=
  [ ("communication", ["communication"; "talk"; "discuss"; "share"; "inform"; "update"; "meeting"; "feedback"; "transparency"]);
    ("tools", ["tools"; "software"; "system"; "technology"; "platform"; "equipment"; "resources"; "application"]);
    ("development", ["training"; "learning"; "development"; "skills"; "education"; "growth"; "course"; "mentor"]);
    ("process", ["process"; "procedure"; "workflow"; "efficiency"; "streamline"; "bureaucracy"; "red_tape"]);
    ("management", ["management"; "manager"; "leadership"; "supervisor"; "boss"; "lead"; "director"]);
    ("culture", ["culture"; "environment"; "atmosphere"; "team"; "collaboration"; "morale"; "values"]);
    ("recognition", ["recognition"; "appreciate"; "acknowledge"; "reward"; "praise"; "thanks"; "credit"]);
    ("autonomy", ["autonomy"; "freedom"; "decision"; "empowered"; "control"; "choice"; "independence"]);
    ("workload", ["workload"; "busy"; "overwhelmed"; "balance"; "time"; "bandwidth"; "capacity"; "stress"]);
    ("clarity", ["clarity"; "clear"; "understand"; "direction"; "goals"; "expectations"; "vision"; "purpose"]) ].

Definition extractSemanticTokens (text : string) : list string :=
  let words := splitWs (toLowerCase text) in
  let tokens :=
    fold_left (fun tokens '(category, keywords) =>
                 if existsb (fun keyword => includes words keyword) keywords
                 then (tokens ++ [category])%list else tokens)
              semanticCategories [] in
  let importantWords :=
    filter (fun w => (5 <? String.length w)
                     && negb (includes ["better"; "would"; "could"; "should"; "really"; "think"] w))
           words in
  setOf (tokens ++ firstn 3 importantWords)%list.

(** *** enhancedExtractTheme *)

Definition themeKeywords : list (string * list string) :=
  [ ("communication_transparency",
     ["communication"; "communicate"; "talk"; "discuss"; "share"; "inform"; "update";
      "transparency"; "information"; "feedback"; "meeting"; "clarity"; "clear"]);
    ("tools_technology",
     ["tools"; "software"; "system"; "technology"; "equipment"; "resources"; "platform";
      "application"; "technical"; "tech"; "digital"; "infrastructure"]);
    ("training_development",
     ["training"; "learn"; "development"; "skills"; "education"; "growth"; "course";
      "mentor"; "knowledge"; "professional"; "career"; "advancement"]);
    ("recognition_appreciation",
     ["recognition"; "appreciate"; "acknowledge"; "reward"; "praise"; "thanks";
      "credit"; "valued"; "recognized"; "celebration"]);
    ("autonomy_empowerment",
     ["autonomy"; "freedom"; "decision"; "empowered"; "control"; "choice"; "independence";
      "empower"; "decisions"; "authority"; "ownership"]);
    ("process_efficiency",
     ["process"; "procedure"; "workflow"; "efficiency"; "streamline"; "bureaucracy";
      "improve"; "optimization"; "faster"; "easier"; "simple"]);
    ("leadership_management",
     ["leadership"; "management"; "manager"; "leader"; "supervisor"; "boss";
      "direction"; "guidance"; "support"; "lead"]);
    ("workload_balance",
     ["workload"; "busy"; "overwhelmed"; "balance"; "time"; "bandwidth"; "capacity";
      "stress"; "pressure"; "deadline"; "priorities"]);
    ("culture_environment",
     ["culture"; "environment"; "atmosphere"; "team"; "collaboration"; "morale";
      "workplace"; "office"; "culture"; "values"; "belonging"]);
    ("compensation_benefits",
     ["compensation"; "salary"; "pay"; "benefits"; "money"; "raise"; "bonus";
      "financial"; "wage"; "income"; "cost_of_living"]);
    ("remote_flexibility",
     ["remote"; "hybrid"; "home"; "office"; "flexible"; "flexibility"; "location";
      "commute"; "work_from_home"; "telework"]) ].

Definition themeStoplist : list string :=
  ["would"; "could"; "should"; "more"; "better"; "need"; "want"; "really"; "think"; "feel"].

(** [matches + (keywords.some(...) ? 1 : 0)] for one dictionary. *)
Definition themeScore (words keywords : list string) : nat :=
  let matches := List.length (filter (fun keyword => includes words keyword) keywords) in
  matches + (if existsb (fun k => includes words k) keywords then 1 else 0).

(** One round of the [forEach] over the dictionaries, on the pair
    [(bestTheme, bestScore)]. *)
Definition bestThemeStep (words : list string) (best : string * nat)
    (entry : string * list string) : string * nat :=
  let '(bestTheme, bestScore) := best in
  let '(theme, keywords) := entry in
  let score := themeScore words keywords in
  if bestScore <? score then (theme, score) else best.

Definition meaningfulWords (words : list string) : list string :=
  filter (fun w => (4 <? String.length w) && negb (includes themeStoplist w)) words.

Definition extractThemeWith (dictionaries : list (string * list string)) (text : string) : string :=
  let words := splitWs (toLowerCase text) in
  let '(bestTheme, bestScore) :=
    fold_left (bestThemeStep words) dictionaries ("other", 0) in
  if String.eqb bestTheme "other" && (bestScore =? 0) then
    let meaningful := meaningfulWords words in
    if 0 <? List.length meaningful then join "_" (firstn 2 meaningful)
    else bestTheme
  else bestTheme.

Definition enhancedExtractTheme (text : string) : string :=
  extractThemeWith themeKeywords text.

(** *** Similarity measures *)

Definition calculateJaccardSimilarity (text1 text2 : string) : float :=
  let tokens1 := setOf (splitWs text1) in
  let tokens2 := setOf (splitWs text2) in
  if (List.length tokens1 =? 0) || (List.length tokens2 =? 0) then 0%float
  else
    let intersection := setOf (filter (fun x => includes tokens2 x) tokens1) in
    let union := setOf (tokens1 ++ tokens2)%list in
    (num (List.length intersection) / num (List.length union))%float.

Definition calculateSemanticSimilarity (tokens1 tokens2 : list string) : float :=
  if (List.length tokens1 =? 0) || (List.length tokens2 =? 0) then 0%float
  else
    let set1 := setOf tokens1 in
    let set2 := setOf tokens2 in
    let intersection := List.length (filter (fun x => includes set2 x) set1) in
    let union := List.length (setOf (set1 ++ set2)%list) in
    (num intersection / num union)%float.

Definition calculateThemeSimilarity (text1 text2 : string) : float :=
  let theme1 := enhancedExtractTheme text1 in
  let theme2 := enhancedExtractTheme text2 in
  if String.eqb theme1 theme2 then 1%float
  else
    let words1 := splitOn "_" theme1 in
    let words2 := splitOn "_" theme2 in
    let overlap := List.length (filter (fun w => includes words2 w) words1) in
    let maxLength := Nat.max (List.length words1) (List.length words2) in
    if 0 <? maxLength then (num overlap / num maxLength)%float else 0%float.

(** [(jaccard * 0.3) + (semantic * 0.4) + (theme * 0.3)] of a seed and a
    candidate. *)
Definition combinedSimilarity (response otherResponse : RawResponse) : float :=
  let jaccard := calculateJaccardSimilarity (normalizedText response) (normalizedText otherResponse) in
  let semantic := calculateSemanticSimilarity (semanticTokens response) (semanticTokens otherResponse) in
  let theme := calculateThemeSimilarity (text response) (text otherResponse) in
  ((jaccard * 0.3) + (semantic * 0.4) + (theme * 0.3))%float.

(** *** enhancedClusterResponsesWithFullExamples: the clustering pass *)

(** Truthiness of a string and of a string-or-null. *)
Definition truthy (s : string) : bool := negb (isEmpty s).

Definition truthyOpt (o : option string) : bool :=
  match o with Some s => truthy s | None => false end.

Definition optEqb (a b : option string) : bool :=
  match a, b with
  | Some x, Some y => String.eqb x y
  | None, None => true
  | _, _ => false
  end.

Definition leadersAdd (s : list (option string)) (x : option string) : list (option string) :=
  if existsb (optEqb x) s then s else (s ++ [x])%list.

(** The cluster that a seed opens. *)
Definition openCluster (response : RawResponse) : OpenCluster :=
  {| o_theme := enhancedExtractTheme (text response);
     o_count := 1;
     o_examples := [fullOriginal response];
     o_leaders := [leader response];
     o_departments := [department response];
     o_semanticSignature := semanticTokens response;
     o_avgLength := num (String.length (text response)) |}.

(** The body of [if (combinedSimilarity > 0.45)], on the cluster. *)
Definition absorb (cluster : OpenCluster) (otherResponse : RawResponse) : OpenCluster :=
  {| o_theme := o_theme cluster;
     o_count := o_count cluster + 1;
     o_examples :=
       if List.length (o_examples cluster) <? 8
       then (o_examples cluster ++ [fullOriginal otherResponse])%list
       else o_examples cluster;
     o_leaders :=
       if truthyOpt (leader otherResponse)
       then leadersAdd (o_leaders cluster) (leader otherResponse)
       else o_leaders cluster;
     o_departments :=
       if truthy (department otherResponse)
       then setAdd (o_departments cluster) (department otherResponse)
       else o_departments cluster;
     o_semanticSignature :=
       setOf (o_semanticSignature cluster ++ semanticTokens otherResponse)%list;
     o_avgLength :=
       ((o_avgLength cluster + num (String.length (text otherResponse))) / 2)%float |}.

(** One round of the inner [forEach], for the seed [response] at [idx], on
    the pair of the cluster and the [processed] set. *)
Definition absorbStep (response : RawResponse) (idx : nat)
    (st : OpenCluster * list nat) (other : nat * RawResponse) : OpenCluster * list nat :=
  let '(cluster, processed) := st in
  let '(otherIdx, otherResponse) := other in
  if (otherIdx <=? idx) || has processed otherIdx then st
  else if PrimFloat.ltb 0.45 (combinedSimilarity response otherResponse)
       then (absorb cluster otherResponse, add processed otherIdx)
       else st.

(** The sets become counts. *)
Definition closeCluster (cluster : OpenCluster) : Cluster :=
  {| theme := o_theme cluster;
     count := o_count cluster;
     examples := o_examples cluster;
     leaderCount := List.length (o_leaders cluster);
     departmentCount := List.length (o_departments cluster);
     semanticSignature := o_semanticSignature cluster;
     avgLength := o_avgLength cluster |}.

(** One round of the outer [forEach], on the pair of [clusters] and
    [processed]. *)
Definition seedStep (sortedResponses : list RawResponse)
    (st : list Cluster * list nat) (seed : nat * RawResponse) : list Cluster * list nat :=
  let '(clusters, processed) := st in
  let '(idx, response) := seed in
  if has processed idx then st
  else
    let '(cluster, processed) :=
      fold_left (absorbStep response idx) (indexed sortedResponses)
                (openCluster response, add processed idx) in
    ((clusters ++ [closeCluster cluster])%list, processed).

(** [clusters] when the outer [forEach] is over. *)
Definition clusterSeeds (responses : list RawResponse) : list Cluster :=
  let sortedResponses := sortDesc (fun r => String.length (text r)) responses in
  fst (fold_left (seedStep sortedResponses) (indexed sortedResponses) ([], [])).

(** *** postProcessClustersWithExamples: the post-merge pass *)

Definition themeJaccard (theme1 theme2 : string) : float :=
  let themeWords1 := setOf (splitOn "_" theme1) in
  let themeWords2 := setOf (splitOn "_" theme2) in
  let themeOverlap := List.length (filter (fun x => includes themeWords2 x) themeWords1) in
  let themeUnion := List.length (setOf (themeWords1 ++ themeWords2)%list) in
  (num themeOverlap / num themeUnion)%float.

(** The body of [if (themeJaccard > 0.6)], on [currentCluster]; [cluster]
    is the cluster of the outer loop, as it was before any merge. *)
Definition mergeInto (cluster currentCluster otherCluster : Cluster) : Cluster :=
  {| theme :=
       if count cluster <? count otherCluster
       then theme otherCluster else theme currentCluster;
     count := count currentCluster + count otherCluster;
     examples := firstn 8 (setOf (examples currentCluster ++ examples otherCluster)%list);
     leaderCount := leaderCount currentCluster + leaderCount otherCluster;
     departmentCount := departmentCount currentCluster + departmentCount otherCluster;
     semanticSignature := semanticSignature currentCluster;
     avgLength := avgLength currentCluster |}.

Definition mergeStep (cluster : Cluster) (idx : nat)
    (st : Cluster * list nat) (other : nat * Cluster) : Cluster * list nat :=
  let '(currentCluster, processed) := st in
  let '(otherIdx, otherCluster) := other in
  if (otherIdx <=? idx) || has processed otherIdx then st
  else if PrimFloat.ltb 0.6 (themeJaccard (theme cluster) (theme otherCluster))
       then (mergeInto cluster currentCluster otherCluster, add processed otherIdx)
       else st.

Definition mergeSeedStep (clusters : list Cluster)
    (st : list Cluster * list nat) (seed : nat * Cluster) : list Cluster * list nat :=
  let '(merged, processed) := st in
  let '(idx, cluster) := seed in
  if has processed idx then st
  else
    let '(currentCluster, processed) :=
      fold_left (mergeStep cluster idx) (indexed clusters) (cluster, add processed idx) in
    ((merged ++ [currentCluster])%list, processed).

Definition postProcessClustersWithExamples (clusters : list Cluster) : list Cluster :=
  if List.length clusters <? 2 then clusters
  else fst (fold_left (mergeSeedStep clusters) (indexed clusters) ([], [])).

Definition enhancedClusterResponsesWithFullExamples (responses : list RawResponse) : list Cluster :=
  if List.length responses =? 0 then []
  else
    let clusters := clusterSeeds responses in
    let mergedClusters := postProcessClustersWithExamples clusters in
    firstn 40 (sortDesc count mergedClusters).

(** *** aggregateResponses *)

(** An element of [cleanedData].  A cleaned record is an object whose
    [_steamLeader] and [_department] are a string or null; [columns] lists
    its other own properties in the order of [Object.keys].  (The two
    computed keys match none of the header patterns, see
    [computed_keys_not_extracted].)  A number or a boolean has no property of
    its own; reading a property of [null] or [undefined] throws. *)
Record ResponseObject : Type := mkResponse {
  _steamLeader : option string;
  _department : option string;
  columns : list (string * JsValue)
}.

Inductive SurveyRecord : Type :=
| RNull
| RUndefined
| RPrimitive
| RObject (o : ResponseObject).

(** What a step returns: a value, or the [TypeError] it throws. *)
Inductive result (A : Type) : Type :=
| Ok (a : A)
| TypeError.
Arguments Ok {A} a.
Arguments TypeError {A}.

Definition bind {A B : Type} (r : result A) (k : A -> result B) : result B :=
  match r with
  | Ok a => k a
  | TypeError => TypeError
  end.

Notation "x <- r ;; k" := (bind r (fun x => k))
  (at level 61, r at next level, right associativity).

(** [xs.forEach(step)] for a step that can throw. *)
Fixpoint forEach {St E : Type} (step : St -> E -> result St) (xs : list E) (s : St) : result St :=
  match xs with
  | [] => Ok s
  | x :: rest => s' <- step s x ;; forEach step rest s'
  end.

Record QuestionMapping : Type := mkMapping {
  category : string;
  patterns : list regex;
  columnIndex : nat;
  m_columnRef : string
}.

Definition questionMappings : list QuestionMapping :=
  [ mkMapping "fulfilling_work"
      [ chain "make" ["work"; "fulfilling"]; chain "work" ["experience"; "fulfilling"];
        chain "fulfilling" ["work"]; chain "enjoy" ["work"]; chain "satisfying" ["work"] ]
      7 "H";
    mkMapping "role_clarity"
      [ chain "clarify" ["role"; "goals"]; chain "information" ["support"; "clarify"];
        chain "understand" ["role"]; chain "goals" ["clear"]; RLit "expectations" ]
      9 "J";
    mkMapping "obstacles"
      [ chain "obstacles" ["preventing"]; chain "preventing" ["highest"];
        RLit "barriers"; RLit "challenges"; RLit "problems" ]
      12 "M";
    mkMapping "empowerment_changes"
      [ chain "empowered" ["role"]; chain "changes" ["empowered"];
        chain "feel" ["empowered"]; RLit "autonomy"; chain "decision" ["making"] ]
      14 "O";
    mkMapping "bold_ideas"
      [ chain "bold" ["ideas"]; chain "ideas" ["propel"]; chain "propel" ["forward"];
        RLit "innovation"; RLit "suggestions" ]
      16 "Q";
    mkMapping "leadership_support"
      [ chain "support" ["leadership"]; chain "leadership" ["provide"];
        chain "leadership" ["support"]; chain "management" ["support"];
        chain "help" ["succeed"] ]
      19 "T" ].

Record ProcessingStats : Type := mkStats {
  originalCount : nat;
  validCount : nat;
  clusteredCount : nat
}.

(** A category while the responses are collected. *)
Record CategoryData : Type := mkCategoryData {
  d_totalResponses : nat;
  d_rawResponses : list RawResponse;
  d_columnRef : string;
  d_originalCount : nat;
  d_validCount : nat
}.

(** A category as [aggregateResponses] returns it: [rawResponses] is [None]
    once [delete categoryData.rawResponses] has removed the property. *)
Record CategoryAggregate : Type := mkCategoryAggregate {
  clusters : list Cluster;
  totalResponses : nat;
  rawResponses : option (list RawResponse);
  columnRef : string;
  processingStats : ProcessingStats
}.

(** The part of the returned object that the categories make up, with the
    two counts of [metadata].  [byLeader], [metadata.processingTime] and
    [metadata.clusteringStats] are left out; of the [byLeader] bookkeeping
    only the exception it can throw is kept (see [leaderThemeStep]). *)
Record Aggregated : Type := mkAggregated {
  byCategory : list (string * CategoryAggregate);
  a_totalResponses : nat;
  uniqueLeaderCount : nat;
  uniqueDepartmentCount : nat
}.

Definition extractLeaderName (rawLeaderName : option string) : option string :=
  match rawLeaderName with
  | None => None
  | Some raw =>
      if isEmpty raw || String.eqb raw "null" || String.eqb raw "undefined" then None
      else
        let name := trim (hd EmptyString (splitOn "(" raw)) in
        let parts := filter (fun p => 0 <? String.length p) (splitOn " " name) in
        match parts with
        | p0 :: p1 :: _ => Some (p0 ++ " " ++ p1)
        | [p0] => Some p0
        | [] => None
        end
  end.

Definition extractTextFromResponse (response : ResponseObject) (mapping : QuestionMapping)
    : list string :=
  fold_left (fun textResponses '(key, value) =>
               if existsb (fun pattern => test true pattern key) (patterns mapping) then
                 match value with
                 | VStr s => if truthy s then (textResponses ++ [s])%list else textResponses
                 | _ => textResponses
                 end
               else textResponses)
            (columns response) [].

(** The names that every object inherits from [Object.prototype].  For such
    a [leaderName], [aggregated.byLeader[leaderName]] is an inherited value
    and truthy, so no entry is created for the leader. *)
Definition objectPrototypeKeys : list string :=
  [ "constructor"; "__defineGetter__"; "__defineSetter__"; "hasOwnProperty";
    "__lookupGetter__"; "__lookupSetter__"; "isPrototypeOf"; "propertyIsEnumerable";
    "toString"; "valueOf"; "__proto__"; "toLocaleString" ].

(** [if (leaderName) { ... byLeader[leaderName].themes[theme] = ... }]: the
    leader's entry has a [themes] object unless the name is inherited, in
    which case [themes] is undefined and indexing it throws. *)
Definition leaderThemeStep (leaderName : option string) : result unit :=
  match leaderName with
  | Some name =>
      if truthy name && includes objectPrototypeKeys name then TypeError else Ok tt
  | None => Ok tt
  end.

(** One round of [textResponses.forEach]. *)
Definition textStep (leaderName : option string) (department : string)
    (categoryData : CategoryData) (textResponse : string) : result CategoryData :=
  let categoryData :=
    mkCategoryData (d_totalResponses categoryData) (d_rawResponses categoryData)
                   (d_columnRef categoryData) (d_originalCount categoryData + 1)
                   (d_validCount categoryData) in
  if isValidTextResponse (VStr textResponse) then
    let cleanText := enhancedCleanTextResponse textResponse in
    let normalizedText := normalizeForClustering cleanText in
    let raw := mkRaw cleanText normalizedText leaderName department textResponse
                     (extractSemanticTokens cleanText) in
    let categoryData :=
      mkCategoryData (d_totalResponses categoryData + 1)
                     (d_rawResponses categoryData ++ [raw])%list
                     (d_columnRef categoryData) (d_originalCount categoryData)
                     (d_validCount categoryData + 1) in
    _ <- leaderThemeStep leaderName ;; Ok categoryData
  else Ok categoryData.

(** [obj[key] = value] and an update of [obj[key]] in place. *)
Fixpoint assocSet {V : Type} (d : list (string * V)) (key : string) (v : V) : list (string * V) :=
  match d with
  | [] => [(key, v)]
  | (k, x) :: rest => if String.eqb k key then (k, v) :: rest else (k, x) :: assocSet rest key v
  end.

Fixpoint assocUpdate {V : Type} (d : list (string * V)) (key : string)
    (f : V -> result V) : result (list (string * V)) :=
  match d with
  | [] => Ok []
  | (k, x) :: rest =>
      if String.eqb k key then x' <- f x ;; Ok ((k, x') :: rest)
      else rest' <- assocUpdate rest key f ;; Ok ((k, x) :: rest')
  end.

(** One round of [questionMappings.forEach] for one response. *)
Definition mappingStep (response : ResponseObject) (leaderName : option string)
    (department : string) (byCategory : list (string * CategoryData))
    (mapping : QuestionMapping) : result (list (string * CategoryData)) :=
  let textResponses := extractTextFromResponse response mapping in
  assocUpdate byCategory (category mapping)
    (fun categoryData => forEach (textStep leaderName department) textResponses categoryData).

(** The state of the loop over [cleanedData]. *)
Record Collected : Type := mkCollected {
  c_byCategory : list (string * CategoryData);
  c_uniqueLeaders : list string;
  c_uniqueDepartments : list string
}.

(** The properties of a record as the loop reads them. *)
Definition asObject (record : SurveyRecord) : result ResponseObject :=
  match record with
  | RNull | RUndefined => TypeError
  | RPrimitive => Ok (mkResponse None None [])
  | RObject o => Ok o
  end.

(** One round of [cleanedData.forEach]. *)
Definition responseStep (st : Collected) (record : SurveyRecord) : result Collected :=
  response <- asObject record ;;
  let leaderName := extractLeaderName (_steamLeader response) in
  let department :=
    if truthyOpt (_department response)
    then match _department response with Some d => d | None => "Unknown" end
    else "Unknown" in
  let uniqueLeaders :=
    match leaderName with
    | Some name => if truthy name then setAdd (c_uniqueLeaders st) name else c_uniqueLeaders st
    | None => c_uniqueLeaders st
    end in
  let uniqueDepartments :=
    if truthy department then setAdd (c_uniqueDepartments st) department
    else c_uniqueDepartments st in
  byCategory <- forEach (mappingStep response leaderName department)
                        questionMappings (c_byCategory st) ;;
  Ok (mkCollected byCategory uniqueLeaders uniqueDepartments).

Definition initialCategories : list (string * CategoryData) :=
  fold_left (fun byCategory mapping =>
               assocSet byCategory (category mapping)
                        (mkCategoryData 0 [] (m_columnRef mapping) 0 0))
            questionMappings [].

(** The body of [Object.keys(aggregated.byCategory).forEach] for one
    category. *)
Definition clusterCategory (categoryData : CategoryData) : CategoryAggregate :=
  if 0 <? List.length (d_rawResponses categoryData) then
    let clusters := enhancedClusterResponsesWithFullExamples (d_rawResponses categoryData) in
    mkCategoryAggregate clusters (d_totalResponses categoryData) None
      (d_columnRef categoryData)
      (mkStats (d_originalCount categoryData) (d_validCount categoryData)
               (List.length clusters))
  else
    mkCategoryAggregate [] (d_totalResponses categoryData)
      (Some (d_rawResponses categoryData)) (d_columnRef categoryData)
      (mkStats (d_originalCount categoryData) (d_validCount categoryData) 0).

Definition aggregateResponses (cleanedData : list SurveyRecord) : result Aggregated :=
  collected <- forEach responseStep cleanedData (mkCollected initialCategories [] []) ;;
  Ok (mkAggregated
        (map (fun '(name, categoryData) => (name, clusterCategory categoryData))
             (c_byCategory collected))
        (List.length cleanedData)
        (List.length (c_uniqueLeaders collected))
        (List.length (c_uniqueDepartments collected))).

End TextAggregator.

(** ** The order of [Object.entries]

    An object lists its own string keys in the order of their creation,
    except that the keys that are array indices (canonical decimal numerals
    up to 2^32 - 2) come first, in ascending order.  The keys of
    [byCategory] are never array indices; a leader name can be one. *)

Module JsObject.
Import Js.

Definition isDigit (c : ascii) : bool :=
  let n := nat_of_ascii c in (48 <=? n) && (n <=? 57).

Fixpoint digitsValue (acc : N) (s : string) : option N :=
  match s with
  | EmptyString => Some acc
  | String c r =>
      if isDigit c
      then digitsValue (acc * 10 + N.of_nat (nat_of_ascii c - 48))%N r
      else None
  end.

Definition arrayIndex (key : string) : option N :=
  match key with
  | EmptyString => None
  | String c r =>
      if Ascii.eqb c "0" && negb (isEmpty r) then None
      else match digitsValue 0 key with
           | Some v => if (v <=? 4294967294)%N then Some v else None
           | None => None
           end
  end.

Definition indexOf (key : string) : N :=
  match arrayIndex key with Some v => v | None => 0%N end.

Fixpoint insertAsc {V : Type} (x : string * V) (l : list (string * V)) : list (string * V) :=
  match l with
  | [] => [x]
  | y :: l' =>
      if (indexOf (fst y) <=? indexOf (fst x))%N then y :: insertAsc x l' else x :: l
  end.

Definition isIndexKey {V : Type} (entry : string * V) : bool :=
  match arrayIndex (fst entry) with Some _ => true | None => false end.

(** [Object.entries(obj)] for the object whose properties were created in
    the order of [obj]. *)
Definition entries {V : Type} (obj : list (string * V)) : list (string * V) :=
  (fold_right insertAsc [] (filter isIndexKey obj)
   ++ filter (fun entry => negb (isIndexKey entry)) obj)%list.

End JsObject.

(** ** TextAggregator.getAggregationStats

    The whole-number fields of the statistics that [processWithGemini]
    reads off the aggregated data.  [totalLeaders] (a count over
    [byLeader]), the per-category [ratio], [avgClusterSize] and
    [compressionRatio] (rounded and formatted quotients) are left out. *)

Module AggregationStats.
Import Js TextAggregator.

Record CategoryClusters : Type := mkCategoryClusters {
  cc_clusters : nat;
  cc_responses : nat;
  cc_highFrequency : nat
}.

Record Stats : Type := mkAggregationStats {
  totalCategories : nat;
  categoryClusters : list (string * CategoryClusters);
  totalClusters : nat;
  highFrequencyClusters : nat
}.

(** One round of [Object.entries(aggregatedData.byCategory).forEach], on
    [stats.categoryClusters] and the three running totals. *)
Definition statsStep (acc : list (string * CategoryClusters) * nat * nat * nat)
    (entry : string * CategoryAggregate) : list (string * CategoryClusters) * nat * nat * nat :=
  let '(categoryClusters, totalOriginalResponses, totalClusters, highFrequencyCount) := acc in
  let '(category, data) := entry in
  let clusterCount := List.length (clusters data) in
  let responseCount := totalResponses data in
  let clustersWithTwentyPlus :=
    List.length (filter (fun c => 20 <=? count c) (clusters data)) in
  (assocSet categoryClusters category
            (mkCategoryClusters clusterCount responseCount clustersWithTwentyPlus),
   totalOriginalResponses + responseCount,
   totalClusters + clusterCount,
   highFrequencyCount + clustersWithTwentyPlus).

Definition getAggregationStats (aggregatedData : Aggregated) : Stats :=
  let '(categoryClusters, _, totalClusters, highFrequencyCount) :=
    fold_left statsStep (JsObject.entries (byCategory aggregatedData)) ([], 0, 0, 0) in
  mkAggregationStats (List.length (byCategory aggregatedData)) categoryClusters
                     totalClusters highFrequencyCount.

End AggregationStats.

(** ** PromptBuilder.buildCategoryPrompt

    From [scripts/FINAI-95/qualPromptBuilder.js]: the part of
    [buildCategoryPrompt] that decides whether a prompt is built and
    prepares the clusters it describes.  The prompt is a fixed template
    around the JSON text of these clusters; the template and the
    [percentage] of a cluster (a rounded quotient) are left out.  The
    function pads [cluster.examples] in place, so that the category data is
    changed by the call: it is returned next to the result.  Every cluster
    has an [examples] array of its own, as [TextAggregator] builds them. *)

Module PromptBuilder.
Import Js TextAggregator.

Record EnrichedCluster : Type := mkEnriched {
  e_theme : string;
  e_count : nat;
  full_examples : list string;
  e_leaderCount : nat
}.

(** [while (examples.length < 3) examples.push(examples[0])], for at most
    [rounds] rounds. *)
Fixpoint padExamples (rounds : nat) (examples : list string) : list string :=
  match rounds with
  | O => examples
  | S k =>
      if List.length examples <? 3
      then padExamples k (examples ++ [hd EmptyString examples])
      else examples
  end.

(** The body of [highFrequencyClusters.map]: the description of the
    cluster, and the cluster with its padded [examples]. *)
Definition enrichCluster (cluster : Cluster) : EnrichedCluster * Cluster :=
  let examples0 := examples cluster in
  let examples1 :=
    if (List.length examples0 <? 3) && (0 <? List.length examples0)
    then padExamples 2 examples0 else examples0 in
  (mkEnriched (theme cluster) (count cluster) (firstn 5 examples1)
              (if leaderCount cluster =? 0 then 1 else leaderCount cluster),
   mkCluster (theme cluster) (count cluster) examples1 (leaderCount cluster)
             (departmentCount cluster) (semanticSignature cluster) (avgLength cluster)).

(** [None] where the function returns [null]. *)
Definition buildCategoryPrompt (categoryData : CategoryAggregate)
    : option (list EnrichedCluster) * CategoryAggregate :=
  let highFrequencyClusters := filter (fun c => 20 <=? count c) (clusters categoryData) in
  if List.length highFrequencyClusters =? 0 then (None, categoryData)
  else
    let enrichedClusters := map (fun cluster => fst (enrichCluster cluster))
                                highFrequencyClusters in
    (Some enrichedClusters,
     mkCategoryAggregate
       (map (fun cluster => if 20 <=? count cluster then snd (enrichCluster cluster)
                            else cluster)
            (clusters categoryData))
       (totalResponses categoryData) (rawResponses categoryData)
       (columnRef categoryData) (processingStats categoryData)).

End PromptBuilder.

Import AggregationStats PromptBuilder.

(** ** TextAggregator.aggregateResponses: the [byLeader] bookkeeping

    The loop over [cleanedData] once more, read for [aggregated.byLeader]:
    an entry is created for a leader name that [byLeader] does not know yet,
    and every valid text of a record adds one to the [responseCount] of the
    record's leader.  A name that every object inherits is known without an
    entry; for it the first valid text throws, as in [leaderThemeStep].  The
    [themes] of an entry are left out.  The object is kept as the list of
    its entries in the order of their creation. *)

Module ByLeader.
Import Js Regex TextAggregator.

Record LeaderData : Type := mkLeaderData {
  responseCount : nat;
  l_department : string
}.

(** [aggregated.byLeader[leaderName]] is truthy: an entry, or an inherited
    property. *)
Definition knownLeader (byLeader : list (string * LeaderData)) (name : string) : bool :=
  existsb (fun entry => String.eqb (fst entry) name) byLeader
  || includes objectPrototypeKeys name.

(** [if (leaderName && !aggregated.byLeader[leaderName]) { ... }]. *)
Definition initLeader (byLeader : list (string * LeaderData)) (leaderName : option string)
    (department : string) : list (string * LeaderData) :=
  match leaderName with
  | Some name =>
      if truthy name && negb (knownLeader byLeader name)
      then assocSet byLeader name (mkLeaderData 0 department)
      else byLeader
  | None => byLeader
  end.

(** The leader part of one round of [textResponses.forEach]. *)
Definition leaderTextStep (leaderName : option string)
    (byLeader : list (string * LeaderData)) (textResponse : string)
    : result (list (string * LeaderData)) :=
  if isValidTextResponse (VStr textResponse) then
    match leaderName with
    | Some name =>
        if truthy name then
          if includes objectPrototypeKeys name then TypeError
          else assocUpdate byLeader name
                 (fun data => Ok (mkLeaderData (responseCount data + 1) (l_department data)))
        else Ok byLeader
    | None => Ok byLeader
    end
  else Ok byLeader.

(** One round of [cleanedData.forEach]. *)
Definition leaderStep (byLeader : list (string * LeaderData)) (record : SurveyRecord)
    : result (list (string * LeaderData)) :=
  response <- asObject record ;;
  let leaderName := extractLeaderName (_steamLeader response) in
  let department :=
    if truthyOpt (_department response)
    then match _department response with Some d => d | None => "Unknown" end
    else "Unknown" in
  let byLeader := initLeader byLeader leaderName department in
  forEach (fun byLeader mapping =>
             forEach (leaderTextStep leaderName)
                     (extractTextFromResponse response mapping) byLeader)
          questionMappings byLeader.

(** [aggregated.byLeader] when [aggregateResponses] returns. *)
Definition aggregateLeaders (cleanedData : list SurveyRecord)
    : result (list (string * LeaderData)) :=
  forEach leaderStep cleanedData [].

End ByLeader.

(** ** AIProcessor.processLeaderInsights

    From [scripts/FINAI-95/aiProcessor.js]: which leaders are analysed, and
    in which batches.  Building the prompt of a batch and the call of the
    API are left out. *)

Module AIProcessor.
Import Js TextAggregator ByLeader.

(** [Object.entries(byLeader).filter(...).sort(...).slice(0, 10)]. *)
Definition significantLeaders (byLeader : list (string * LeaderData))
    : list (string * LeaderData) :=
  firstn 10 (sortDesc (fun entry => responseCount (snd entry))
                      (filter (fun entry => 10 <=? responseCount (snd entry))
                              (JsObject.entries byLeader))).

(** [for (let i = 0; i < significantLeaders.length; i += 5)
       leaderBatches.push(significantLeaders.slice(i, i + 5))],
    for at most [rounds] rounds. *)
Fixpoint leaderBatchesFrom (rounds i : nat) (leaders : list (string * LeaderData))
    : list (list (string * LeaderData)) :=
  match rounds with
  | O => []
  | S k =>
      if i <? List.length leaders
      then firstn 5 (skipn i leaders) :: leaderBatchesFrom k (i + 5) leaders
      else []
  end.

Definition leaderBatches (leaders : list (string * LeaderData))
    : list (list (string * LeaderData)) :=
  leaderBatchesFrom (List.length leaders) 0 leaders.

End AIProcessor.

Import ByLeader AIProcessor.

Import Js Regex TextAggregator.

(** * Vocabulary of the properties *)

(** ** Greedy grouping

    The clustering pass and the post-merge pass are the same pair of
    nested loops over an array and a shared [processed] set: every element
    that is not yet processed opens a group, and the elements behind it that
    pass a test against the opener are taken into the group.  [greedy] is
    that pair of loops for any opening, test, combination and closing. *)

Section GreedyLoop.

Context {X Acc Out : Type}.
Variable opn : X -> Acc.
Variable tst : X -> X -> bool.
Variable cmb : X -> Acc -> X -> Acc.
Variable cls : Acc -> Out.

Definition greedyInner (x : X) (idx : nat) (st : Acc * list nat) (other : nat * X)
    : Acc * list nat :=
  let '(a, processed) := st in
  let '(otherIdx, y) := other in
  if (otherIdx <=? idx) || has processed otherIdx then st
  else if tst x y then (cmb x a y, add processed otherIdx) else st.

Definition greedyOuter (xs : list X) (st : list Out * list nat) (seed : nat * X)
    : list Out * list nat :=
  let '(out, processed) := st in
  let '(idx, x) := seed in
  if has processed idx then st
  else
    let '(a, processed) :=
      fold_left (greedyInner x idx) (indexed xs) (opn x, add processed idx) in
    ((out ++ [cls a])%list, processed).

Definition greedy (xs : list X) : list Out :=
  fst (fold_left (greedyOuter xs) (indexed xs) ([], [])).

End GreedyLoop.

(** The two passes as instances: their tests, and the order in which the
    clustering pass visits the responses. *)
Definition absorbs (response otherResponse : RawResponse) : bool :=
  PrimFloat.ltb 0.45 (combinedSimilarity response otherResponse).

Definition merges (cluster otherCluster : Cluster) : bool :=
  PrimFloat.ltb 0.6 (themeJaccard (theme cluster) (theme otherCluster)).

Definition byTextLength (responses : list RawResponse) : list RawResponse :=
  sortDesc (fun r => String.length (text r)) responses.

(** The order of a list sorted by descending [key]. *)
Definition descending {A : Type} (key : A -> nat) (a b : A) : Prop := key b <= key a.

(** ** Sets and similarities in the words of the specification *)

(** The number of distinct strings of a list: the size of the set. *)
Definition distinctCount (l : list string) : nat := List.length (nodup string_dec l).

(** The elements of [A] that occur in [B]. *)
Definition inBoth (A B : list string) : list string :=
  filter (fun x => if in_dec string_dec x B then true else false) A.

(** Intersection over union of two lists read as sets: the number of
    distinct strings in both over the number of distinct strings in either. *)
Definition intersectionOverUnion (A B : list string) : float :=
  (num (distinctCount (inBoth A B)) / num (distinctCount (A ++ B)%list))%float.

(** The number of words that two labels share. *)
Definition sharedWords (words1 words2 : list string) : nat :=
  distinctCount (inBoth words1 words2).

(** The theme similarity in the words of the specification: 1 when the two
    labels are identical, otherwise the number of shared
    underscore-separated words over the word count of the larger label. *)
Definition sharedWordSimilarity (theme1 theme2 : string) : float :=
  if string_dec theme1 theme2 then 1%float
  else
    let words1 := splitOn "_" theme1 in
    let words2 := splitOn "_" theme2 in
    (num (sharedWords words1 words2)
     / num (Nat.max (List.length words1) (List.length words2)))%float.

(** The combined score in the words of the specification. *)
Definition sharedWordScore (response otherResponse : RawResponse) : float :=
  let jaccard :=
    intersectionOverUnion (splitWs (normalizedText response))
                          (splitWs (normalizedText otherResponse)) in
  let semantic :=
    match semanticTokens response, semanticTokens otherResponse with
    | [], _ | _, [] => 0%float
    | _ :: _, _ :: _ =>
        intersectionOverUnion (semanticTokens response) (semanticTokens otherResponse)
    end in
  let theme :=
    sharedWordSimilarity (enhancedExtractTheme (text response))
                         (enhancedExtractTheme (text otherResponse)) in
  ((jaccard * 0.3) + (semantic * 0.4) + (theme * 0.3))%float.

(** ** The theme similarity and the combined score that the code computes *)

(** The theme similarity that [calculateThemeSimilarity] computes: 1 when
    the two labels are equal, otherwise the number of words of the first
    label that occur in the second, over the word count of the longer
    label.  A word that the first label repeats counts each time, and the
    two labels do not play the same role. *)
Definition labelSimilarity (theme1 theme2 : string) : float :=
  if string_dec theme1 theme2 then 1%float
  else
    let words1 := splitOn "_" theme1 in
    let words2 := splitOn "_" theme2 in
    (num (List.length (inBoth words1 words2))
     / num (Nat.max (List.length words1) (List.length words2)))%float.

(** The combined score that [combinedSimilarity] computes, with
    [labelSimilarity] as its theme part. *)
Definition similarityScore (response otherResponse : RawResponse) : float :=
  let jaccard :=
    intersectionOverUnion (splitWs (normalizedText response))
                          (splitWs (normalizedText otherResponse)) in
  let semantic :=
    match semanticTokens response, semanticTokens otherResponse with
    | [], _ | _, [] => 0%float
    | _ :: _, _ :: _ =>
        intersectionOverUnion (semanticTokens response) (semanticTokens otherResponse)
    end in
  let theme :=
    labelSimilarity (enhancedExtractTheme (text response))
                    (enhancedExtractTheme (text otherResponse)) in
  ((jaccard * 0.3) + (semantic * 0.4) + (theme * 0.3))%float.

(** ** Theme scores in the words of the specification *)

(** How many keywords of a dictionary are among the words. *)
Definition keywordsPresent (words keywords : list string) : nat :=
  distinctCount (inBoth keywords words).

(** The score of a dictionary: the number of its keywords present, plus one
    if any is present. *)
Definition keywordScore (words keywords : list string) : nat :=
  keywordsPresent words keywords + (if 0 <? keywordsPresent words keywords then 1 else 0).

(** [label] is the first dictionary of [dictionaries] with the highest
    [score], and that score is positive. *)
Definition firstHighest (score : list string -> nat)
    (dictionaries : list (string * list string)) (label : string) : Prop :=
  exists before keywords after,
    dictionaries = (before ++ (label, keywords) :: after)%list
    /\ 0 < score keywords
    /\ (forall e, In e before -> score (snd e) < score keywords)
    /\ (forall e, In e after -> score (snd e) <= score keywords).

(** ** Theme scores that the code computes *)

(** How many entries of a dictionary's keyword list are among the words; a
    keyword that the list holds twice counts twice. *)
Definition listedCount (words keywords : list string) : nat :=
  List.length (filter (fun k => if in_dec string_dec k words then true else false) keywords).

(** The score that [themeScore] computes: the number of entries present,
    plus one if any is present. *)
Definition listedScore (words keywords : list string) : nat :=
  if listedCount words keywords =? 0 then 0 else listedCount words keywords + 1.

(** [label] is the first dictionary of [dictionaries] with the highest
    [listedScore], and that score is positive. *)
Definition firstBest (words : list string) (dictionaries : list (string * list string))
    (label : string) : Prop :=
  exists before keywords after,
    dictionaries = (before ++ (label, keywords) :: after)%list
    /\ 0 < listedScore words keywords
    /\ (forall e, In e before -> listedScore words (snd e) < listedScore words keywords)
    /\ (forall e, In e after -> listedScore words (snd e) <= listedScore words keywords).

(** ** The denylist in the words of the specification *)




(** ** Runs of the aggregation *)

Definition categoryNames : list string :=
  [ "fulfilling_work"; "role_clarity"; "obstacles"; "empowerment_changes";
    "bold_ideas"; "leadership_support" ].

(** While the responses are collected, [totalResponses] and [validCount]
    are the length of [rawResponses]: all grow by one for every valid text,
    and only valid texts are stored. *)
Definition countsItsResponses (categoryData : CategoryData) : Prop :=
  d_totalResponses categoryData = List.length (d_rawResponses categoryData)
  /\ d_validCount categoryData = List.length (d_rawResponses categoryData)
  /\ Forall (fun r => isValidTextResponse (VStr (fullOriginal r)) = true)
            (d_rawResponses categoryData).

(** What a run says about the categories: the per-category aggregates, or
    the exception. *)
Definition categoriesOf (r : result Aggregated) : result (list (string * CategoryAggregate)) :=
  match r with
  | Ok aggregated => Ok (byCategory aggregated)
  | TypeError => TypeError
  end.

(** Two runs agree on the categories: both throw, or both return and the
    categories are the same. *)
Definition agree (r1 r2 : result Collected) : Prop :=
  match r1, r2 with
  | Ok s1, Ok s2 => c_byCategory s1 = c_byCategory s2
  | TypeError, TypeError => True
  | _, _ => False
  end.

(** ** Sample inputs *)

(** A record with one valid answer to the obstacles question and a
    non-answer to the bold-ideas question. *)
Definition sampleRecord : SurveyRecord :=
  RObject (mkResponse (Some "Jane Doe (VP)") (Some "Engineering")
             [ ("What obstacles are preventing you from doing your best work?",
                VStr "I need more bandwidth to do my job");
               ("Any bold ideas to share?", VStr "N/A");
               ("Tenure", VNum 3) ]).

(** The response that [aggregateResponses] stores for an answer [s] of a
    respondent without leader and department; two answers about bandwidth
    and one about parking. *)
Definition rawOf (s : string) : RawResponse :=
  let cleanText := enhancedCleanTextResponse s in
  mkRaw cleanText (normalizeForClustering cleanText) None "Unknown" s
        (extractSemanticTokens cleanText).

Definition bandwidthSeed : RawResponse := rawOf "I need more bandwidth to do my job".
Definition bandwidthOther : RawResponse := rawOf "not enough time and bandwidth".
Definition parkingOther : RawResponse := rawOf "parking is awful lately".

(** Eight answers to one question: one long answer labelled
    [noise_music], five equal answers labelled [music_noise] and two equal
    answers labelled [noise_music]. *)
Definition noiseTexts : list string :=
  [ "the noise and music on our floor is too loud to get work done";
    "music noise bad in here all day"; "music noise bad in here all day";
    "music noise bad in here all day"; "music noise bad in here all day";
    "music noise bad in here all day";
    "noise music hurt my ears"; "noise music hurt my ears" ].

(** ** Shapes of clusters and of the values around them *)

(** A cluster as the passes keep it: it stands for at least one response,
    stores between one example and [min count 8] examples, and its leader
    and department counts lie between 1 and [count]. *)
Definition wellFormed (c : Cluster) : Prop :=
  1 <= count c
  /\ 1 <= List.length (examples c) <= Nat.min (count c) 8
  /\ 1 <= leaderCount c <= count c
  /\ 1 <= departmentCount c <= count c.

(** The cluster of a response that absorbs nothing. *)
Definition singleton (response : RawResponse) : Cluster :=
  closeCluster (openCluster response).

(** ** The run of [aggregateResponses] *)

(** A text of the record passes the validity filter in some category. *)
Definition hasValidText (response : ResponseObject) : bool :=
  existsb (fun mapping =>
             existsb (fun textResponse => isValidTextResponse (VStr textResponse))
                     (extractTextFromResponse response mapping))
          questionMappings.

(** The records on which [aggregateResponses] throws: [null], [undefined],
    and an object with a valid text whose leader name, as extracted, is a
    name that objects inherit. *)
Definition fatalRecord (record : SurveyRecord) : bool :=
  match record with
  | RNull | RUndefined => true
  | RPrimitive => false
  | RObject response =>
      match extractLeaderName (_steamLeader response) with
      | Some name => includes objectPrototypeKeys name && hasValidText response
      | None => false
      end
  end.

(** The categories of the returned object with their column letters. *)
Definition categoryColumns : list (string * string) :=
  [ ("fulfilling_work", "H"); ("role_clarity", "J"); ("obstacles", "M");
    ("empowerment_changes", "O"); ("bold_ideas", "Q"); ("leadership_support", "T") ].

(** What [processingStats] says about the clusters of a category. *)
Definition statsDescribe (categoryAggregate : CategoryAggregate) : Prop :=
  let stats := processingStats categoryAggregate in
  validCount stats <= originalCount stats
  /\ validCount stats = totalResponses categoryAggregate
  /\ clusteredCount stats = List.length (clusters categoryAggregate)
  /\ clusteredCount stats <= Nat.min 40 (validCount stats)
  /\ (1 <= validCount stats -> 1 <= clusteredCount stats)
  /\ Forall wellFormed (clusters categoryAggregate).

(** The sample record under a steam leader called "Constructor Team",
    written in lower case in the sheet. *)
Definition inheritedNameRecord : SurveyRecord :=
  RObject (mkResponse (Some "constructor") (Some "Engineering")
             [ ("What obstacles are preventing you from doing your best work?",
                VStr "I need more bandwidth to do my job") ]).

(** The column letters of the categories while the responses are
    collected. *)
Definition columnsOf (byCategory : list (string * CategoryData)) : list (string * string) :=
  map (fun entry => (fst entry, d_columnRef (snd entry))) byCategory.

(** Two answers about parking: a short one whose label repeats its word,
    and a longer one that shares the word. *)
Definition repeatedWord : RawResponse := rawOf "parking parking".
Definition garageFloods : RawResponse := rawOf "parking garage floods whenever rains".

(** Two valid answers about parking: the label of the first repeats its
    word, the label of the second shares it. *)
Definition parkingSeed : RawResponse := rawOf "parking parking is so bad here".
Definition parkingGarage : RawResponse := rawOf "parking garage floods".

(** ** What [aggregateResponses] collects, stated without loops *)

(** The properties of a record; a number or a boolean has none. *)
Definition objectOf (record : SurveyRecord) : ResponseObject :=
  match record with
  | RObject response => response
  | _ => mkResponse None None []
  end.

Definition departmentOf (response : ResponseObject) : string :=
  match _department response with
  | Some d => if truthy d then d else "Unknown"
  | None => "Unknown"
  end.

(** The response stored for a text of a record. *)
Definition responseOf (response : ResponseObject) (textResponse : string) : RawResponse :=
  let cleanText := enhancedCleanTextResponse textResponse in
  mkRaw cleanText (normalizeForClustering cleanText)
        (extractLeaderName (_steamLeader response)) (departmentOf response) textResponse
        (extractSemanticTokens cleanText).

(** The texts of a category, record by record and column by column, and
    the responses stored for the valid ones. *)
Definition textsOf (mapping : QuestionMapping) (cleanedData : list SurveyRecord) : list string :=
  flat_map (fun record => extractTextFromResponse (objectOf record) mapping) cleanedData.

Definition responsesOf (mapping : QuestionMapping) (cleanedData : list SurveyRecord)
    : list RawResponse :=
  flat_map (fun record =>
              map (responseOf (objectOf record))
                  (filter (fun textResponse => isValidTextResponse (VStr textResponse))
                          (extractTextFromResponse (objectOf record) mapping)))
           cleanedData.

Definition collectedCategory (mapping : QuestionMapping) (cleanedData : list SurveyRecord)
    : CategoryData :=
  let responses := responsesOf mapping cleanedData in
  mkCategoryData (List.length responses) responses (m_columnRef mapping)
                 (List.length (textsOf mapping cleanedData)) (List.length responses).

Definition leaderNames (cleanedData : list SurveyRecord) : list string :=
  flat_map (fun record =>
              match extractLeaderName (_steamLeader (objectOf record)) with
              | Some name => [name]
              | None => []
              end)
           cleanedData.

Definition departments (cleanedData : list SurveyRecord) : list string :=
  map (fun record => departmentOf (objectOf record)) cleanedData.

(** The object that a run returns. *)
Definition aggregateOf (cleanedData : list SurveyRecord) : Aggregated :=
  mkAggregated
    (map (fun mapping =>
            (category mapping, clusterCategory (collectedCategory mapping cleanedData)))
         questionMappings)
    (List.length cleanedData)
    (distinctCount (leaderNames cleanedData))
    (distinctCount (departments cleanedData)).

(** The state of the loop over the records behind the records [before]. *)
Definition collectedAfter (before : list SurveyRecord) : Collected :=
  mkCollected
    (map (fun mapping => (category mapping, collectedCategory mapping before))
         questionMappings)
    (setOf (leaderNames before))
    (setOf (departments before)).

(** ** Semantic tokens in the words of the code's comments *)

Definition wordsOf (text : string) : list string := splitWs (toLowerCase text).

(** A keyword of the category is a word of the text. *)
Definition categoryPresent (text category : string) : Prop :=
  exists keywords keyword,
    In (category, keywords) semanticCategories
    /\ In keyword keywords /\ In keyword (wordsOf text).

(** A word of the text longer than 5 that is not one of the six stop
    words. *)
Definition importantWord (text w : string) : Prop :=
  In w (wordsOf text)
  /\ 5 < String.length w
  /\ ~ In w ["better"; "would"; "could"; "should"; "really"; "think"].

(** ** Leader names *)

Definition charsOf (s : string) : list ascii := list_ascii_of_string s.

(** A non-empty string without space and without opening parenthesis. *)
Definition nameWord (p : string) : Prop :=
  p <> EmptyString /\ ~ In " "%char (charsOf p) /\ ~ In "("%char (charsOf p).

(** ** Cleaning *)

(** [a] is [b] with some characters left out. *)
Inductive subsequence : string -> string -> Prop :=
| sub_empty : subsequence EmptyString EmptyString
| sub_skip (c : ascii) (a b : string) : subsequence a b -> subsequence a (String c b)
| sub_keep (c : ascii) (a b : string) :
    subsequence a b -> subsequence (String c a) (String c b).

(** The text before the length limit is applied: trimmed, without the
    fillers and runs of white space, and trimmed again. *)
Definition strippedText (text : string) : string :=
  trim (fold_left (fun cleaned pattern => replace pattern "" cleaned)
                  minimalFillers (trim text)).

Definition sentenceEnd (c : ascii) : bool :=
  Ascii.eqb c "." || Ascii.eqb c "!" || Ascii.eqb c "?".

(** ** Prompts *)

(** A cluster with other examples. *)
Definition withExamples (c : Cluster) (examples' : list string) : Cluster :=
  mkCluster (theme c) (count c) examples' (leaderCount c) (departmentCount c)
            (semanticSignature c) (avgLength c).

(** The examples, followed by copies of the first one up to three. *)
Definition paddedExamples (c : Cluster) : list string :=
  (examples c ++ repeat (hd EmptyString (examples c)) (3 - List.length (examples c)))%list.

(** How a prompt describes a cluster. *)
Definition describes (c : Cluster) (e : EnrichedCluster) : Prop :=
  e_theme e = theme c
  /\ e_count e = count c
  /\ e_leaderCount e = leaderCount c
  /\ full_examples e = firstn 5 (paddedExamples c)
  /\ 3 <= List.length (full_examples e) <= 5
  /\ forall x, In x (full_examples e) -> In x (examples c).

(** Twenty respondents with the answer of the sample record. *)
Definition twentyRecords : list SurveyRecord := repeat sampleRecord 20.

(** ** Whole words *)

(** The longest prefix of word characters, and what follows it. *)
Fixpoint wordRun (s : string) : string * string :=
  match s with
  | String c r =>
      if isWordChar c then let (w, rest) := wordRun r in (String c w, rest)
      else (EmptyString, s)
  | EmptyString => (EmptyString, EmptyString)
  end.

Fixpoint allWord (s : string) : bool :=
  match s with
  | String c r => isWordChar c && allWord r
  | EmptyString => true
  end.

Definition applyWord (f : string -> string) (w : string) : string :=
  if isEmpty w then EmptyString else f w.

(** [f] applied to every maximal run of word characters of [s]; [cur] is
    the run read so far. *)
Fixpoint mapWordsFrom (f : string -> string) (cur s : string) : string :=
  match s with
  | EmptyString => applyWord f cur
  | String c r =>
      if isWordChar c then mapWordsFrom f (cur ++ String c EmptyString) r
      else applyWord f cur ++ String c (mapWordsFrom f EmptyString r)
  end.

Definition mapWords (f : string -> string) (s : string) : string :=
  mapWordsFrom f EmptyString s.

(** The full form of an abbreviation, and any other word as it is. *)
Definition expand (w : string) : string :=
  match find (fun entry => String.eqb w (fst entry)) normalizations with
  | Some entry => snd entry
  | None => w
  end.

(** One substitution. *)
Definition substitute (short full w : string) : string :=
  if String.eqb w short then full else w.

(** ** Leaders *)

Definition leaderOf (record : SurveyRecord) : option string :=
  extractLeaderName (_steamLeader (objectOf record)).

(** The valid texts of a record, category by category. *)
Definition validTexts (record : SurveyRecord) : list string :=
  flat_map (fun mapping =>
              filter (fun textResponse => isValidTextResponse (VStr textResponse))
                     (extractTextFromResponse (objectOf record) mapping))
           questionMappings.

(** The records of a leader. *)
Definition recordsOf (name : string) (cleanedData : list SurveyRecord) : list SurveyRecord :=
  filter (fun record => optEqb (leaderOf record) (Some name)) cleanedData.

(** The entry of a leader: the number of valid texts of the leader's
    records, and the department of the first of them. *)
Definition entryOf (name : string) (cleanedData : list SurveyRecord) : LeaderData :=
  mkLeaderData
    (List.length (flat_map validTexts (recordsOf name cleanedData)))
    (match recordsOf name cleanedData with
     | record :: _ => departmentOf (objectOf record)
     | [] => "Unknown"
     end).

Definition inherited (name : string) : bool := includes objectPrototypeKeys name.

(** The leaders with an entry: the distinct names in the order of their
    first record, without the inherited ones. *)
Definition knownNames (cleanedData : list SurveyRecord) : list string :=
  filter (fun name => negb (inherited name)) (setOf (leaderNames cleanedData)).

Definition leadersOf (cleanedData : list SurveyRecord) : list (string * LeaderData) :=
  map (fun name => (name, entryOf name cleanedData)) (knownNames cleanedData).

(** A record of the sample leader with two valid texts, and a record of a
    second leader. *)
Definition twoAnswers (leaderName : string) : SurveyRecord :=
  RObject (mkResponse (Some leaderName) (Some "Engineering")
             [ ("What obstacles are preventing you from doing your best work?",
                VStr "I need more bandwidth to do my job");
               ("Any bold ideas to share?", VStr "rotate the on-call duty weekly") ]).

(** [g] applied to the first entry under [key]. *)
Fixpoint updFirst {V : Type} (d : list (string * V)) (key : string) (g : V -> V)
    : list (string * V) :=
  match d with
  | [] => []
  | (k, x) :: rest =>
      if String.eqb k key then (k, g x) :: rest else (k, x) :: updFirst rest key g
  end.

Definition addCount (k : nat) (data : LeaderData) : LeaderData :=
  mkLeaderData (responseCount data + k) (l_department data).

(** Five records of one leader with two valid texts each. *)
Definition tenAnswers : list SurveyRecord := repeat (twoAnswers "Jane Doe (VP)") 5.

(** ** A cluster and its members *)

Definition leader_eq_dec (a b : option string) : {a = b} + {a <> b}.
Proof. decide equality. apply string_dec. Defined.

Definition distinctLeaders (l : list (option string)) : nat :=
  List.length (nodup leader_eq_dec l).

(** What a cluster of the clustering pass says about the responses it
    stands for, the seed first: the label is the seed's, the examples are
    the first 8 answers, the leaders and departments counted are the seed's
    (even if it has none) and the non-empty ones of the others, and the
    signature holds the tokens of all. *)
Definition standsFor (members : list RawResponse) (c : Cluster) : Prop :=
  match members with
  | seed :: others =>
      count c = List.length members
      /\ theme c = enhancedExtractTheme (text seed)
      /\ examples c = firstn 8 (map fullOriginal members)
      /\ leaderCount c
         = distinctLeaders (leader seed :: filter truthyOpt (map leader others))
      /\ departmentCount c
         = distinctCount (department seed :: filter truthy (map department others))
      /\ forall t, In t (semanticSignature c)
                   <-> exists r, In r members /\ In t (semanticTokens r)
  | [] => False
  end.

(** What a cluster of the post-merge pass says about the clusters merged
    into it, the first one first. *)
Definition mergedFrom (parts : list Cluster) (c : Cluster) : Prop :=
  match parts with
  | first :: _ =>
      count c = list_sum (map count parts)
      /\ leaderCount c = list_sum (map leaderCount parts)
      /\ departmentCount c = list_sum (map departmentCount parts)
      /\ semanticSignature c = semanticSignature first
      /\ avgLength c = avgLength first
  | [] => False
  end.

(** The response stored for an answer of a respondent of one leader and
    department. *)
Definition janeSays (s : string) : RawResponse :=
  let cleanText := enhancedCleanTextResponse s in
  mkRaw cleanText (normalizeForClustering cleanText) (Some "Jane Doe") "Engineering" s
        (extractSemanticTokens cleanText).

(** ** The two passes as rounds *)

(** The rounds of a greedy pass over [xs], without indices: the first
    element that is left opens a round and takes, in order, the elements
    still left that pass the test against it; the pass goes on with the
    elements that remain.  A round is its opener and the elements it takes.
    No round is cut short by [fuel] when it is at least the length of the
    list. *)
Section Rounds.

Context {X Acc Out : Type}.
Variable opn : X -> Acc.
Variable tst : X -> X -> bool.
Variable cmb : X -> Acc -> X -> Acc.
Variable cls : Acc -> Out.

Fixpoint greedyRounds (fuel : nat) (xs : list X) : list (X * list X) :=
  match fuel, xs with
  | S fuel, x :: rest =>
      (x, filter (tst x) rest) :: greedyRounds fuel (filter (fun y => negb (tst x y)) rest)
  | _, _ => []
  end.

Definition groupsOf (xs : list X) : list (X * list X) := greedyRounds (List.length xs) xs.

(** What a round leaves: the opener's accumulator after it took its
    elements one by one. *)
Definition closeGroup (g : X * list X) : Out :=
  cls (fold_left (cmb (fst g)) (snd g) (opn (fst g))).

End Rounds.

(** * Properties *)

(** ** Sets of indices, indexed traversal *)

Lemma has_In (s : list nat) (i : nat) : has s i = true <-> In i s.
Proof.
  unfold has. rewrite existsb_exists. split.
  - intros [j [Hj Heq]]. apply Nat.eqb_eq in Heq. now subst.
  - intros H. exists i. split; [assumption | apply Nat.eqb_refl].
Qed.

Lemma has_false (s : list nat) (i : nat) : has s i = false <-> ~ In i s.
Proof.
  rewrite <- has_In. destruct (has s i); split; intros; congruence.
Qed.

Lemma add_fresh (s : list nat) (i : nat) : has s i = false -> add s i = (s ++ [i])%list.
Proof. unfold add. now intros ->. Qed.

Lemma NoDup_snoc {A : Type} (l : list A) (x : A) : NoDup l -> ~ In x l -> NoDup (l ++ [x]).
Proof.
  intros Hl Hx. apply NoDup_rev in Hl.
  rewrite <- (rev_involutive (l ++ [x])). apply NoDup_rev.
  rewrite rev_app_distr. simpl. constructor; [| assumption].
  now rewrite <- in_rev.
Qed.

Lemma indexedFrom_cons {A : Type} (k : nat) (x : A) (l : list A) :
  indexedFrom k (x :: l) = (k, x) :: indexedFrom (S k) l.
Proof. reflexivity. Qed.

Lemma indexedFrom_In {A : Type} (l : list A) :
  forall k i x, In (i, x) (indexedFrom k l) -> k <= i /\ nth_error l (i - k) = Some x.
Proof.
  induction l as [| y l IH]; intros k i x Hin.
  - contradiction.
  - rewrite indexedFrom_cons in Hin. destruct Hin as [Heq | Hin].
    + inversion Heq; subst. split; [lia |]. now rewrite Nat.sub_diag.
    + apply IH in Hin. destruct Hin as [Hle Hnth]. split; [lia |].
      replace (i - k) with (S (i - S k)) by lia. exact Hnth.
Qed.

Lemma indexed_In {A : Type} (l : list A) (i : nat) (x : A) :
  In (i, x) (indexed l) -> nth_error l i = Some x /\ i < List.length l.
Proof.
  intros Hin. apply indexedFrom_In in Hin. destruct Hin as [_ Hnth].
  rewrite Nat.sub_0_r in Hnth. split; [assumption |].
  apply nth_error_Some. congruence.
Qed.

(** An invariant of a [forEach] that holds at every element. *)
Lemma fold_left_invariant {St E : Type} (P : St -> Prop) (f : St -> E -> St) (l : list E) :
  forall s, P s -> (forall s e, In e l -> P s -> P (f s e)) -> P (fold_left f l s).
Proof.
  induction l as [| e l IH]; intros s Hs Hstep; simpl.
  - assumption.
  - apply IH.
    + apply Hstep; [now left | assumption].
    + intros s' e' Hin. apply Hstep. now right.
Qed.

(** An invariant that follows the position of an indexed [forEach]. *)
Lemma fold_indexed_invariant {St A : Type} (Q : nat -> St -> Prop)
    (f : St -> nat * A -> St) (l : list A) :
  forall k s,
    Q k s ->
    (forall i x s, nth_error l i = Some x -> Q (k + i) s -> Q (S (k + i)) (f s (k + i, x))) ->
    Q (k + List.length l) (fold_left f (indexedFrom k l) s).
Proof.
  induction l as [| y l IH]; intros k s Hs Hstep.
  - simpl. now rewrite Nat.add_0_r.
  - rewrite indexedFrom_cons. simpl fold_left.
    replace (k + List.length (y :: l)) with (S k + List.length l) by (simpl; lia).
    apply IH.
    + specialize (Hstep 0 y s eq_refl). rewrite Nat.add_0_r in Hstep. now apply Hstep.
    + intros i x s' Hnth HQ.
      specialize (Hstep (S i) x s' Hnth).
      replace (k + S i) with (S k + i) in Hstep by lia. now apply Hstep.
Qed.

Lemma map_nth_error_seq {A : Type} (l : list A) :
  map (nth_error l) (seq 0 (List.length l)) = map Some l.
Proof.
  induction l as [| x l IH]; [reflexivity |].
  simpl. f_equal. rewrite <- seq_shift, map_map. exact IH.
Qed.

(** A duplicate-free set of indices below [n] that holds every index below
    [n] is a rearrangement of [0 .. n-1]. *)
Lemma full_index_set (n : nat) (P : list nat) :
  NoDup P -> (forall j, In j P -> j < n) -> (forall j, j < n -> In j P) ->
  Permutation P (seq 0 n).
Proof.
  intros Hnd Hb Hall. apply NoDup_Permutation; [assumption | apply seq_NoDup |].
  intros j. rewrite in_seq. split; intros H.
  - apply Hb in H. lia.
  - apply Hall. lia.
Qed.

Lemma map_Some_inj {A : Type} (l1 l2 : list A) : map Some l1 = map Some l2 -> l1 = l2.
Proof.
  revert l2. induction l1 as [| x l1 IH]; intros [| y l2] H; simpl in H;
    try discriminate; [reflexivity |].
  inversion H; subst. f_equal. now apply IH.
Qed.

(** ** Greedy grouping: the groups partition the array *)

Section Greedy.

Context {X Acc Out : Type}.
Variable opn : X -> Acc.
Variable tst : X -> X -> bool.
Variable cmb : X -> Acc -> X -> Acc.
Variable cls : Acc -> Out.

(** [R members a]: the accumulator [a] stands for the group [members]
    (the opener first). *)
Variable R : list X -> Acc -> Prop.
Hypothesis R_opn : forall x, R [x] (opn x).
Hypothesis R_cmb :
  forall x m a y, R (x :: m) a -> tst x y = true -> R (x :: m ++ [y]) (cmb x a y).

Let innerInv (xs : list X) (x : X) (start : list nat) (base : list (option X))
    (st : Acc * list nat) : Prop :=
  NoDup (snd st) /\ (forall j, In j (snd st) -> j < List.length xs)
  /\ (forall j, In j start -> In j (snd st))
  /\ exists m, R (x :: m) (fst st)
               /\ map (nth_error xs) (snd st) = (base ++ map Some (x :: m))%list.

Lemma greedyInner_invariant (xs : list X) (x : X) (idx : nat) (start : list nat)
    (base : list (option X)) (st : Acc * list nat) :
  innerInv xs x start base st ->
  innerInv xs x start base (fold_left (greedyInner tst cmb x idx) (indexed xs) st).
Proof.
  intros Hst. apply fold_left_invariant; [assumption |].
  clear st Hst. intros [a P] [j y] Hin (Hnd & Hb & Hinc & m & HR & Hmap).
  apply indexed_In in Hin. destruct Hin as [Hnth Hlt].
  unfold greedyInner. simpl in *.
  destruct ((j <=? idx) || has P j) eqn:Hskip.
  - unfold innerInv. simpl. eauto 10.
  - apply orb_false_iff in Hskip. destruct Hskip as [_ Hfresh].
    destruct (tst x y) eqn:Htst.
    + rewrite (add_fresh _ _ Hfresh). apply has_false in Hfresh.
      unfold innerInv. simpl. repeat split.
      * now apply NoDup_snoc.
      * intros i Hi. apply in_app_or in Hi. destruct Hi as [Hi | [<- | []]]; auto.
      * intros i Hi. apply in_or_app. left. auto.
      * exists (m ++ [y])%list. split; [now apply R_cmb |].
        rewrite map_app, Hmap. simpl. rewrite Hnth.
        rewrite map_app. simpl. now rewrite <- !app_assoc.
    + unfold innerInv. simpl. eauto 10.
Qed.

Let outerInv (xs : list X) (i : nat) (st : list Out * list nat) : Prop :=
  NoDup (snd st) /\ (forall j, In j (snd st) -> j < List.length xs)
  /\ (forall j, j < i -> In j (snd st))
  /\ exists groups,
       Forall2 (fun m o => exists a, o = cls a /\ R m a) groups (fst st)
       /\ map (nth_error xs) (snd st) = map Some (List.concat groups).

Lemma greedyOuter_invariant (xs : list X) :
  outerInv xs (List.length xs)
           (fold_left (greedyOuter opn tst cmb cls xs) (indexed xs) ([], [])).
Proof.
  change (List.length xs) with (0 + List.length xs). unfold indexed.
  apply (fold_indexed_invariant (outerInv xs)).
  - unfold outerInv. simpl. repeat split.
    + constructor.
    + intros j [].
    + intros j Hj. lia.
    + exists []. split; [constructor | reflexivity].
  - intros i x [out P] Hnth (Hnd & Hb & Hall & groups & HF & Hmap).
    simpl in *. unfold greedyOuter.
    destruct (has P i) eqn:Hhas.
    + apply has_In in Hhas. unfold outerInv. simpl. repeat split; auto.
      * intros j Hj. destruct (Nat.eq_dec j i) as [-> | Hne]; [assumption |].
        apply Hall. lia.
      * eauto.
    + pose proof (add_fresh _ _ Hhas) as Hadd. apply has_false in Hhas.
      assert (Hlt : i < List.length xs) by (apply nth_error_Some; congruence).
      assert (Hstart : innerInv xs x (add P i) (map (nth_error xs) P)
                                (opn x, add P i)).
      { rewrite Hadd. unfold innerInv. simpl. repeat split.
        - now apply NoDup_snoc.
        - intros j Hj. apply in_app_or in Hj. destruct Hj as [Hj | [<- | []]]; auto.
        - auto.
        - exists []. split; [apply R_opn |].
          rewrite map_app. simpl. now rewrite Hnth. }
      apply (greedyInner_invariant xs x i) in Hstart.
      destruct (fold_left (greedyInner tst cmb x i) (indexed xs) (opn x, add P i))
        as [a P'] eqn:Hfold.
      destruct Hstart as (Hnd' & Hb' & Hinc & m & HR & Hmap').
      simpl in *. unfold outerInv. simpl. repeat split; auto.
      * intros j Hj. apply Hinc. rewrite Hadd. apply in_or_app.
        destruct (Nat.eq_dec j i) as [-> | Hne]; [right; now left |].
        left. apply Hall. lia.
      * exists (groups ++ [x :: m])%list. split.
        -- apply Forall2_app; [assumption |]. constructor; [| constructor]. eauto.
        -- rewrite Hmap', Hmap, concat_app. simpl.
           rewrite app_nil_r, map_app. reflexivity.
Qed.

(** The groups partition the array: there is one group per output, each
    output stands for its group, and the groups together are the array up to
    order. *)
Lemma greedy_partition (xs : list X) :
  exists groups,
    Forall2 (fun m o => exists a, o = cls a /\ R m a) groups (greedy opn tst cmb cls xs)
    /\ Permutation (List.concat groups) xs.
Proof.
  destruct (greedyOuter_invariant xs) as (Hnd & Hb & Hall & groups & HF & Hmap).
  exists groups. split; [exact HF |].
  pose proof (full_index_set _ _ Hnd Hb Hall) as Hperm.
  apply (Permutation_map (nth_error xs)) in Hperm.
  rewrite Hmap, map_nth_error_seq in Hperm.
  apply Permutation_map_inv in Hperm. destruct Hperm as (l3 & Heq & Hp).
  apply map_Some_inj in Heq. subst l3. now symmetry.
Qed.

End Greedy.

(** ** Sorting *)

Section SortFacts.

Context {A : Type} (key : A -> nat).

Lemma insertDesc_perm (x : A) (l : list A) : Permutation (insertDesc key x l) (x :: l).
Proof.
  induction l as [| y l IH]; simpl; [reflexivity |].
  destruct (key x <? key y); [| reflexivity].
  rewrite IH. apply perm_swap.
Qed.

Lemma sortDesc_perm (l : list A) : Permutation (sortDesc key l) l.
Proof.
  induction l as [| x l IH]; simpl; [reflexivity |].
  rewrite insertDesc_perm. now constructor.
Qed.

Lemma sortDesc_length (l : list A) : List.length (sortDesc key l) = List.length l.
Proof. apply Permutation_length, sortDesc_perm. Qed.

Lemma insertDesc_sorted (x : A) (l : list A) :
  StronglySorted (descending key) l -> StronglySorted (descending key) (insertDesc key x l).
Proof.
  induction l as [| y l IH]; intros Hs; simpl.
  - constructor; constructor.
  - inversion Hs as [| ? ? Hl Hy]; subst.
    destruct (key x <? key y) eqn:Hcmp.
    + apply Nat.ltb_lt in Hcmp. constructor; [now apply IH |].
      eapply Permutation_Forall.
      * symmetry. apply insertDesc_perm.
      * constructor; [unfold descending; lia | assumption].
    + apply Nat.ltb_ge in Hcmp. constructor; [assumption |].
      constructor; [exact Hcmp |].
      eapply Forall_impl; [| exact Hy]. unfold descending. intros; lia.
Qed.

Lemma sortDesc_sorted (l : list A) : StronglySorted (descending key) (sortDesc key l).
Proof.
  induction l as [| x l IH]; simpl; [constructor | now apply insertDesc_sorted].
Qed.

Lemma firstn_sorted (n : nat) (l : list A) :
  StronglySorted (descending key) l -> StronglySorted (descending key) (firstn n l).
Proof.
  revert n. induction l as [| x l IH]; intros [| n] Hs; simpl; try constructor.
  - inversion Hs; subst. now apply IH.
  - inversion Hs as [| ? ? _ Hx]; subst.
    rewrite Forall_forall in *. intros y Hy. apply Hx.
    rewrite <- (firstn_skipn n l). apply in_or_app. now left.
Qed.

End SortFacts.

(** ** Lists of groups *)

Lemma Forall2_along_perm {A B : Type} (P : A -> B -> Prop) (l2 l2' : list B) :
  Permutation l2 l2' ->
  forall l1, Forall2 P l1 l2 -> exists l1', Permutation l1 l1' /\ Forall2 P l1' l2'.
Proof.
  induction 1 as [| y l2 l2' _ IH | y z l2 | l2 l2' l2'' _ IH1 _ IH2]; intros l1 HF.
  - inversion HF; subst. exists []. split; constructor.
  - inversion HF as [| x ? l1t ? Hxy Ht]; subst.
    destruct (IH _ Ht) as (l1' & Hp & HF'). exists (x :: l1'). split; now constructor.
  - inversion HF as [| x ? l1t ? Hx Ht]; subst.
    inversion Ht as [| x' ? l1t' ? Hx' Ht']; subst.
    exists (x' :: x :: l1t'). split; [apply perm_swap |].
    constructor; [assumption |]. now constructor.
  - destruct (IH1 _ HF) as (l1' & Hp1 & HF1).
    destruct (IH2 _ HF1) as (l1'' & Hp2 & HF2).
    exists l1''. split; [now transitivity l1' | assumption].
Qed.

Lemma Forall2_concat_split {A B : Type} (P : A -> B -> Prop) (ll : list (list B)) :
  forall l, Forall2 P l (List.concat ll) ->
  exists gg, l = List.concat gg /\ Forall2 (Forall2 P) gg ll.
Proof.
  induction ll as [| m ll IH]; intros l HF; simpl in HF.
  - inversion HF; subst. exists []. split; [reflexivity | constructor].
  - apply Forall2_app_inv_r in HF. destruct HF as (l1 & l2 & H1 & H2 & ->).
    destruct (IH _ H2) as (gg & -> & HF).
    exists (l1 :: gg). split; [reflexivity | now constructor].
Qed.

Lemma concat_map_concat {A : Type} (gg : list (list (list A))) :
  List.concat (map (@List.concat A) gg) = List.concat (List.concat gg).
Proof.
  induction gg as [| g gg IH]; simpl; [reflexivity |].
  now rewrite concat_app, IH.
Qed.

Lemma Permutation_concat {A : Type} (l l' : list (list A)) :
  Permutation l l' -> Permutation (List.concat l) (List.concat l').
Proof.
  induction 1; simpl.
  - reflexivity.
  - now apply Permutation_app_head.
  - rewrite !app_assoc. apply Permutation_app_tail, Permutation_app_comm.
  - etransitivity; eassumption.
Qed.

(** ** Count conservation *)

Lemma clusterSeeds_greedy (responses : list RawResponse) :
  clusterSeeds responses
  = greedy openCluster absorbs (fun _ cluster other => absorb cluster other)
           closeCluster (byTextLength responses).
Proof. reflexivity. Qed.

Lemma postProcess_greedy (clusters : list Cluster) :
  postProcessClustersWithExamples clusters
  = if List.length clusters <? 2 then clusters
    else greedy (fun c => c) merges mergeInto (fun c => c) clusters.
Proof. reflexivity. Qed.

(** The clustering pass splits the responses into groups, one per cluster
    and in the order of the clusters; a group starts with the seed and lists
    the responses absorbed behind it. *)
Lemma clusterSeeds_groups (responses : list RawResponse) :
  exists groups,
    Forall2 (fun g c => count c = List.length g) groups (clusterSeeds responses)
    /\ Permutation (List.concat groups) responses.
Proof.
  rewrite clusterSeeds_greedy.
  destruct (greedy_partition openCluster absorbs (fun _ c o => absorb c o) closeCluster
              (fun m a => o_count a = List.length m)) with (xs := byTextLength responses)
    as (groups & HF & Hp).
  - reflexivity.
  - intros x m a y Ha _. simpl. rewrite length_app. simpl in *. lia.
  - exists groups. split.
    + eapply Forall2_impl; [| exact HF]. intros g c (a & -> & Ha). exact Ha.
    + rewrite Hp. apply sortDesc_perm.
Qed.

(** The post-merge pass splits the clusters into groups, one per merged
    cluster, whose counts add up to the merged count. *)
Lemma postProcess_groups (clusters : list Cluster) :
  exists cgroups,
    Forall2 (fun m c => count c = list_sum (map count m)) cgroups
            (postProcessClustersWithExamples clusters)
    /\ Permutation (List.concat cgroups) clusters.
Proof.
  rewrite postProcess_greedy. destruct (List.length clusters <? 2).
  - exists (map (fun c => [c]) clusters). split.
    + induction clusters as [| c l IH]; simpl; constructor; [simpl; lia | exact IH].
    + induction clusters as [| c l IH]; simpl; [reflexivity | now constructor].
  - destruct (greedy_partition (fun c => c) merges mergeInto (fun c : Cluster => c)
                (fun m a => count a = list_sum (map count m))) with (xs := clusters)
      as (cgroups & HF & Hp).
    + intros x. simpl. lia.
    + intros x m a y Ha _. simpl in *. rewrite map_app, list_sum_app. simpl. lia.
    + exists cgroups. split; [| exact Hp].
      eapply Forall2_impl; [| exact HF]. intros g c (a & -> & Ha). exact Ha.
Qed.

Lemma group_counts (gs : list (list RawResponse)) (cs : list Cluster) :
  Forall2 (fun g c => count c = List.length g) gs cs ->
  list_sum (map count cs) = List.length (List.concat gs).
Proof.
  induction 1 as [| g c gs cs Hgc _ IH]; simpl; [reflexivity |].
  rewrite length_app. lia.
Qed.

Lemma merged_group_counts (gg : list (list (list RawResponse)))
    (cgroups : list (list Cluster)) :
  Forall2 (Forall2 (fun g c => count c = List.length g)) gg cgroups ->
  forall merged,
    Forall2 (fun m c => count c = list_sum (map count m)) cgroups merged ->
    Forall2 (fun g c => count c = List.length g) (map (@List.concat RawResponse) gg) merged.
Proof.
  induction 1 as [| g m gg cgroups Hgm _ IH]; intros merged HF2.
  - inversion HF2; subst. constructor.
  - inversion HF2 as [| ? c ? mt Hc Ht]; subst. simpl. constructor.
    + rewrite Hc. now apply group_counts.
    + now apply IH.
Qed.

(** Count conservation for a list of responses: the counts of the clusters
    that the clustering pass produces add up to the number of responses, and
    so do the counts after the post-merge pass, which is the list that is
    then sorted and truncated to 40.  Moreover the responses split into one
    group per cluster (the responses absorbed into it, the seed included)
    and the [count] of every cluster is the size of its group. *)
Lemma passes_conserve_counts (responses : list RawResponse) :
  let merged := postProcessClustersWithExamples (clusterSeeds responses) in
  enhancedClusterResponsesWithFullExamples responses = firstn 40 (sortDesc count merged)
  /\ list_sum (map count (clusterSeeds responses)) = List.length responses
  /\ list_sum (map count merged) = List.length responses
  /\ exists groups : list (list RawResponse),
       Forall2 (fun g c => count c = List.length g) groups merged
       /\ Permutation (List.concat groups) responses.
Proof.
  intros merged.
  destruct (clusterSeeds_groups responses) as (groups1 & HF1 & Hp1).
  destruct (postProcess_groups (clusterSeeds responses)) as (cgroups & HF2 & Hp2).
  fold merged in HF2.
  assert (Hgroups : exists groups : list (list RawResponse),
             Forall2 (fun g c => count c = List.length g) groups merged
             /\ Permutation (List.concat groups) responses).
  { destruct (Forall2_along_perm _ _ _ (Permutation_sym Hp2) _ HF1) as (groups1' & Hp & HF).
    apply Forall2_concat_split in HF. destruct HF as (gg & -> & HF).
    exists (map (@List.concat RawResponse) gg). split.
    - now apply (merged_group_counts gg cgroups).
    - rewrite concat_map_concat. rewrite <- Hp1.
      apply Permutation_concat. now symmetry. }
  repeat split.
  - unfold enhancedClusterResponsesWithFullExamples.
    destruct responses as [| r rs]; reflexivity.
  - rewrite (group_counts _ _ HF1). now apply Permutation_length.
  - destruct Hgroups as (groups & HF & Hp).
    rewrite (group_counts _ _ HF). now apply Permutation_length.
  - exact Hgroups.
Qed.

(** ** The emitted list: sorted and capped *)

(** C9.  The cluster list returned for a category is in descending order of
    [count] (every cluster counts at least as much as every cluster behind
    it) and has at most 40 entries, for every list of responses; so have the
    [clusters] of every category that [clusterCategory] emits. *)
Theorem clusters_sorted_and_capped :
  (forall responses : list RawResponse,
     let result := enhancedClusterResponsesWithFullExamples responses in
     List.length result <= 40
     /\ StronglySorted (fun a b => count b <= count a) result)
  /\ (forall categoryData : CategoryData,
        let emitted := clusters (clusterCategory categoryData) in
        List.length emitted <= 40
        /\ StronglySorted (fun a b => count b <= count a) emitted).
Proof.
  assert (Hmain : forall responses : list RawResponse,
             List.length (enhancedClusterResponsesWithFullExamples responses) <= 40
             /\ StronglySorted (fun a b => count b <= count a)
                               (enhancedClusterResponsesWithFullExamples responses)).
  { intros responses. unfold enhancedClusterResponsesWithFullExamples.
    destruct (List.length responses =? 0).
    - split; [simpl; lia | constructor].
    - split; [apply firstn_le_length |].
      apply (firstn_sorted count), sortDesc_sorted. }
  split; [exact Hmain |].
  intros categoryData. unfold clusterCategory.
  destruct (0 <? List.length (d_rawResponses categoryData)); simpl.
  - apply Hmain.
  - split; [lia | constructor].
Qed.

(** ** aggregateResponses *)

(** C7.  On the empty input array [aggregateResponses] returns (it does not
    throw), the returned object has exactly the six configured categories,
    and each of them has [clusters = []] and [totalResponses = 0]. *)
Theorem aggregate_empty_input :
  exists aggregated,
    aggregateResponses [] = Ok aggregated
    /\ map fst (byCategory aggregated) = map category questionMappings
    /\ map fst (byCategory aggregated) = categoryNames
    /\ Forall (fun entry => clusters (snd entry) = [] /\ totalResponses (snd entry) = 0)
              (byCategory aggregated).
Proof.
  eexists. split; [reflexivity |].
  split; [reflexivity |]. split; [reflexivity |].
  repeat constructor.
Qed.

Lemma forEach_invariant {St E : Type} (P : St -> Prop) (step : St -> E -> result St)
    (xs : list E) :
  (forall s e s', P s -> step s e = Ok s' -> P s') ->
  forall s s', P s -> forEach step xs s = Ok s' -> P s'.
Proof.
  intros Hstep. induction xs as [| x xs IH]; intros s s' Hs Hrun; simpl in Hrun.
  - inversion Hrun; now subst.
  - destruct (step s x) as [s1 |] eqn:Hx; simpl in Hrun; [| discriminate].
    eapply IH; [| exact Hrun]. eapply Hstep; eassumption.
Qed.

Lemma assocUpdate_Forall {V : Type} (P : V -> Prop) (key : string) (f : V -> result V) :
  (forall v v', P v -> f v = Ok v' -> P v') ->
  forall d d', Forall (fun entry => P (snd entry)) d -> assocUpdate d key f = Ok d' ->
               Forall (fun entry => P (snd entry)) d'.
Proof.
  intros Hf. induction d as [| [k x] d IH]; intros d' Hd Hrun; simpl in Hrun.
  - inversion Hrun; subst. constructor.
  - inversion Hd as [| ? ? Hx Hrest]; subst. simpl in Hx.
    destruct (String.eqb k key).
    + destruct (f x) as [x' |] eqn:Hfx; simpl in Hrun; [| discriminate].
      inversion Hrun; subst. constructor; [simpl; eauto | assumption].
    + destruct (assocUpdate d key f) as [rest' |] eqn:Hr; simpl in Hrun; [| discriminate].
      inversion Hrun; subst. constructor; [assumption | now apply IH].
Qed.

Lemma textStep_counts (leaderName : option string) (department : string)
    (categoryData categoryData' : CategoryData) (textResponse : string) :
  countsItsResponses categoryData ->
  textStep leaderName department categoryData textResponse = Ok categoryData' ->
  countsItsResponses categoryData'.
Proof.
  intros (Ht & Hv & Hvalid). unfold textStep.
  destruct (isValidTextResponse (VStr textResponse)) eqn:Hok.
  - destruct (leaderThemeStep leaderName); cbn [bind]; [| discriminate].
    intros H. inversion H; subst. unfold countsItsResponses.
    cbn [d_totalResponses d_rawResponses d_validCount].
    rewrite length_app. cbn [List.length]. repeat split; try lia.
    apply Forall_app. split; [assumption |]. constructor; [exact Hok | constructor].
  - intros H. inversion H; subst. repeat split; assumption.
Qed.

Lemma collected_counts (cleanedData : list SurveyRecord) (collected : Collected) :
  forEach responseStep cleanedData (mkCollected initialCategories [] []) = Ok collected ->
  Forall (fun entry => countsItsResponses (snd entry)) (c_byCategory collected).
Proof.
  apply (forEach_invariant
           (fun st => Forall (fun entry => countsItsResponses (snd entry)) (c_byCategory st))).
  - intros st record st' Hst. unfold responseStep.
    destruct (asObject record) as [response |]; cbn [bind]; [| discriminate].
    match goal with |- context [forEach ?stp questionMappings ?s0] =>
      destruct (forEach stp questionMappings s0) as [byCat |] eqn:Hrun end;
      cbn [bind]; [| discriminate].
    intros H. inversion H; subst. cbn [c_byCategory].
    revert Hrun. apply forEach_invariant; [| exact Hst].
    intros d mapping d' Hd. unfold mappingStep.
    apply assocUpdate_Forall; [| exact Hd].
    intros v v' Hv. apply forEach_invariant; [| exact Hv].
    intros cd text cd' Hcd. now apply textStep_counts.
  - repeat constructor.
Qed.

(** C1.  Count conservation.  For every list of responses, the counts of
    the clusters after the clustering pass and after the post-merge pass
    (before the sort and the cut to 40) add up to the number of responses,
    and the [count] of every cluster is the number of responses absorbed
    into it, the seed included: the responses split into one group per
    cluster.  For every category that [aggregateResponses] returns, the
    responses are the valid responses extracted for the category:
    [totalResponses] and [validCount] are their number, and the emitted
    [clusters] are the first 40 of their merged clusters. *)
Theorem count_conservation :
  (forall responses : list RawResponse,
     let merged := postProcessClustersWithExamples (clusterSeeds responses) in
     enhancedClusterResponsesWithFullExamples responses = firstn 40 (sortDesc count merged)
     /\ list_sum (map count (clusterSeeds responses)) = List.length responses
     /\ list_sum (map count merged) = List.length responses
     /\ exists groups : list (list RawResponse),
          Forall2 (fun g c => count c = List.length g) groups merged
          /\ Permutation (List.concat groups) responses)
  /\ (forall cleanedData aggregated name categoryAggregate,
        aggregateResponses cleanedData = Ok aggregated ->
        In (name, categoryAggregate) (byCategory aggregated) ->
        exists responses : list RawResponse,
          let merged := postProcessClustersWithExamples (clusterSeeds responses) in
          clusters categoryAggregate = firstn 40 (sortDesc count merged)
          /\ list_sum (map count merged) = totalResponses categoryAggregate
          /\ validCount (processingStats categoryAggregate) = totalResponses categoryAggregate
          /\ Forall (fun r => isValidTextResponse (VStr (fullOriginal r)) = true) responses).
Proof.
  split; [exact passes_conserve_counts |].
  unfold aggregateResponses. intros cleanedData aggregated name c Hrun Hin.
  destruct (forEach responseStep cleanedData (mkCollected initialCategories [] []))
    as [collected |] eqn:Hcollect; cbn [bind] in Hrun; [| discriminate].
  inversion Hrun; subst; clear Hrun. cbn [byCategory] in Hin.
  apply collected_counts in Hcollect.
  apply in_map_iff in Hin. destruct Hin as ([name' cd] & Heq & Hin).
  inversion Heq; subst; clear Heq.
  rewrite Forall_forall in Hcollect. specialize (Hcollect _ Hin).
  destruct Hcollect as (Ht & Hv & Hvalid). cbn [snd] in Ht, Hv, Hvalid.
  exists (d_rawResponses cd).
  destruct (passes_conserve_counts (d_rawResponses cd)) as (Hemit & _ & Hsum & _).
  cbv zeta in *. unfold clusterCategory.
  destruct (0 <? List.length (d_rawResponses cd)) eqn:Hlen;
    cbn [clusters totalResponses processingStats validCount].
  - repeat split; [exact Hemit | lia | lia | exact Hvalid].
  - apply Nat.ltb_ge in Hlen.
    destruct (d_rawResponses cd) as [| r rs]; [| simpl in Hlen; lia].
    repeat split; [simpl in *; lia | simpl in *; lia | constructor].
Qed.

Lemma count_conservation_witness :
  exists aggregated categoryAggregate responses,
    aggregateResponses [sampleRecord; sampleRecord] = Ok aggregated
    /\ In ("obstacles", categoryAggregate) (byCategory aggregated)
    /\ totalResponses categoryAggregate = 2
    /\ list_sum (map count (postProcessClustersWithExamples (clusterSeeds responses))) = 2.
Proof.
  destruct (aggregateResponses [sampleRecord; sampleRecord]) as [aggregated |] eqn:Hrun;
    [| vm_compute in Hrun; discriminate].
  destruct count_conservation as [_ Hcategory].
  pose proof (Hcategory [sampleRecord; sampleRecord] aggregated) as Hcat.
  vm_compute in Hrun. inversion Hrun; subst; clear Hrun.
  match goal with
  | H : forall name c, _ -> In (name, c) (byCategory ?agg) -> _ |- _ =>
      match agg with
      | context [("obstacles", ?c)] =>
          destruct (H "obstacles" c eq_refl) as (responses & _ & Hsum & _);
            [right; right; left; reflexivity |];
            exists agg, c, responses
      end
  end.
  split; [reflexivity |]. split; [right; right; left; reflexivity |].
  split; [reflexivity | exact Hsum].
Defined.

(** C10.  In the object that [aggregateResponses] returns, a category that
    received at least one valid response has no [rawResponses] property (it
    was deleted), and a category that received none still has
    [rawResponses] equal to the empty list. *)
Theorem rawResponses_shape (cleanedData : list SurveyRecord) (aggregated : Aggregated) :
  aggregateResponses cleanedData = Ok aggregated ->
  forall name categoryAggregate,
    In (name, categoryAggregate) (byCategory aggregated) ->
    (1 <= totalResponses categoryAggregate -> rawResponses categoryAggregate = None)
    /\ (totalResponses categoryAggregate = 0 -> rawResponses categoryAggregate = Some []).
Proof.
  unfold aggregateResponses. intros Hrun name c Hin.
  destruct (forEach responseStep cleanedData (mkCollected initialCategories [] []))
    as [collected |] eqn:Hcollect; simpl in Hrun; [| discriminate].
  inversion Hrun; subst; clear Hrun. simpl in Hin.
  apply collected_counts in Hcollect.
  apply in_map_iff in Hin. destruct Hin as ([name' cd] & Heq & Hin).
  inversion Heq; subst; clear Heq.
  rewrite Forall_forall in Hcollect. specialize (Hcollect _ Hin).
  destruct Hcollect as (Ht & _). simpl in Ht. unfold clusterCategory.
  destruct (0 <? List.length (d_rawResponses cd)) eqn:Hlen; simpl.
  - split; [reflexivity |]. apply Nat.ltb_lt in Hlen. lia.
  - apply Nat.ltb_ge in Hlen. split; [lia |].
    intros _. destruct (d_rawResponses cd); [reflexivity | simpl in Hlen; lia].
Qed.

Lemma rawResponses_shape_witness :
  exists aggregated,
    aggregateResponses [sampleRecord] = Ok aggregated
    /\ (exists c, In ("obstacles", c) (byCategory aggregated)
                  /\ totalResponses c = 1 /\ rawResponses c = None)
    /\ (exists c, In ("bold_ideas", c) (byCategory aggregated)
                  /\ totalResponses c = 0 /\ rawResponses c = Some []).
Proof.
  destruct (aggregateResponses [sampleRecord]) as [aggregated |] eqn:Hrun;
    [| vm_compute in Hrun; discriminate].
  exists aggregated. split; [reflexivity |].
  pose proof (rawResponses_shape [sampleRecord] aggregated Hrun) as Hshape.
  vm_compute in Hrun. inversion Hrun; subst; clear Hrun. split.
  - eexists. split; [right; right; left; reflexivity |].
    split; [reflexivity |].
    eapply Hshape; [right; right; left; reflexivity | simpl; lia].
  - eexists. split; [do 4 right; left; reflexivity |].
    split; [reflexivity |].
    eapply Hshape; [do 4 right; left; reflexivity | reflexivity].
Defined.

(** ** Records that are not objects *)

Lemma forEach_app {St E : Type} (step : St -> E -> result St) (xs ys : list E) (s : St) :
  forEach step (xs ++ ys) s = (s' <- forEach step xs s ;; forEach step ys s').
Proof.
  revert s. induction xs as [| x xs IH]; intros s; simpl; [reflexivity |].
  destruct (step s x); simpl; [apply IH | reflexivity].
Qed.

Lemma forEach_unchanged {St E : Type} (step : St -> E -> result St) (xs : list E) (s : St) :
  (forall e, step s e = Ok s) -> forEach step xs s = Ok s.
Proof.
  intros Hid. induction xs as [| x xs IH]; simpl; [reflexivity |].
  now rewrite Hid.
Qed.

Lemma assocUpdate_unchanged {V : Type} (key : string) (f : V -> result V)
    (d : list (string * V)) :
  (forall v, f v = Ok v) -> assocUpdate d key f = Ok d.
Proof.
  intros Hid. induction d as [| [k x] d IH]; simpl; [reflexivity |].
  destruct (String.eqb k key); [now rewrite Hid | now rewrite IH].
Qed.

(** A number or a boolean leaves every category as it is. *)
Lemma responseStep_primitive (st : Collected) :
  exists st', responseStep st RPrimitive = Ok st'
              /\ c_byCategory st' = c_byCategory st.
Proof.
  unfold responseStep. cbn [asObject bind].
  rewrite forEach_unchanged.
  - cbn [bind]. eexists. split; reflexivity.
  - intros mapping. unfold mappingStep. now apply assocUpdate_unchanged.
Qed.

Lemma responseStep_agree (s1 s2 : Collected) (record : SurveyRecord) :
  c_byCategory s1 = c_byCategory s2 ->
  agree (responseStep s1 record) (responseStep s2 record).
Proof.
  intros Heq. unfold responseStep.
  destruct (asObject record) as [response |]; cbn [bind]; [| exact I].
  rewrite Heq.
  match goal with |- context [forEach ?stp questionMappings ?s0] =>
    destruct (forEach stp questionMappings s0) as [byCat |] end;
    cbn [bind agree]; [reflexivity | exact I].
Qed.

Lemma forEach_agree (records : list SurveyRecord) :
  forall s1 s2, c_byCategory s1 = c_byCategory s2 ->
                agree (forEach responseStep records s1) (forEach responseStep records s2).
Proof.
  induction records as [| record records IH]; intros s1 s2 Heq; simpl.
  - exact Heq.
  - pose proof (responseStep_agree s1 s2 record Heq) as Hstep.
    destruct (responseStep s1 record) as [s1' |], (responseStep s2 record) as [s2' |];
      simpl in *; try contradiction; [now apply IH | exact I].
Qed.

(** C6, as the code has it.  [aggregateResponses] has no guard for a record
    that is not an object.  A [null] or [undefined] record makes the run
    throw, wherever it stands in the array.  A number or a boolean is passed
    over: the run throws or returns exactly as it does without the record,
    and when it returns every category is aggregated as if the record were
    absent. *)
Theorem non_object_records :
  (forall before after,
     aggregateResponses (before ++ RNull :: after) = TypeError
     /\ aggregateResponses (before ++ RUndefined :: after) = TypeError)
  /\ (forall before after,
        categoriesOf (aggregateResponses (before ++ RPrimitive :: after))
        = categoriesOf (aggregateResponses (before ++ after))).
Proof.
  split.
  - intros before after. unfold aggregateResponses. rewrite !forEach_app.
    destruct (forEach responseStep before _); split; reflexivity.
  - intros before after. unfold aggregateResponses. rewrite !forEach_app.
    destruct (forEach responseStep before _) as [st |]; cbn [bind]; [| reflexivity].
    cbn [forEach].
    destruct (responseStep_primitive st) as (st' & -> & Hcats). cbn [bind].
    pose proof (forEach_agree after st' st Hcats) as Hagree.
    destruct (forEach responseStep after st') as [c1 |],
             (forEach responseStep after st) as [c2 |];
      simpl in *; try contradiction; [| reflexivity].
    now rewrite Hagree.
Qed.

(** C6, as stated, fails: an array that holds [null] behind a good record
    makes [aggregateResponses] throw, and so does [null] alone. *)
Lemma null_record_is_fatal :
  aggregateResponses [RNull] = TypeError
  /\ aggregateResponses [sampleRecord; RNull] = TypeError
  /\ exists aggregated, aggregateResponses [sampleRecord] = Ok aggregated.
Proof.
  split; [reflexivity |]. split; [vm_compute; reflexivity |].
  eexists. vm_compute. reflexivity.
Qed.

(** ** The validity filter *)








Lemma stripLit_exact (w s rest : string) :
  stripLit false w s = Some rest <-> s = (w ++ rest)%string.
Proof.
  revert s. induction w as [| c w IH]; intros s; simpl.
  - split; intros H; congruence.
  - destruct s as [| x s]; [split; intros H; discriminate |].
    unfold charEq. destruct (Ascii.eqb x c) eqn:Hc.
    + apply Ascii.eqb_eq in Hc. subst x. rewrite IH. split; intros H; congruence.
    + apply Ascii.eqb_neq in Hc. split; intros H; [discriminate | congruence].
Qed.











(** ** Theme labels *)

Lemma includes_In (xs : list string) (x : string) : includes xs x = true <-> In x xs.
Proof.
  unfold includes. rewrite existsb_exists. split.
  - intros (y & Hy & Heq). apply String.eqb_eq in Heq. now subst.
  - intros H. exists x. split; [assumption | apply String.eqb_refl].
Qed.

Lemma includes_dec (xs : list string) (x : string) :
  includes xs x = if in_dec string_dec x xs then true else false.
Proof.
  destruct (in_dec string_dec x xs) as [Hin | Hout].
  - now apply includes_In.
  - destruct (includes xs x) eqn:H; [| reflexivity]. apply includes_In in H. contradiction.
Qed.

Lemma themeScore_listed (words keywords : list string) :
  themeScore words keywords = listedScore words keywords.
Proof.
  unfold themeScore, listedScore, listedCount.
  rewrite (filter_ext _ _ (includes_dec words)).
  induction keywords as [| k ks IH]; simpl; [reflexivity |].
  rewrite includes_dec.
  destruct (in_dec string_dec k words); simpl; [lia |].
  exact IH.
Qed.

Lemma listedScore_zero (words keywords : list string) :
  (forall k, In k keywords -> ~ In k words) -> listedScore words keywords = 0.
Proof.
  intros Hnone. unfold listedScore, listedCount.
  replace (filter _ keywords) with (@nil string); [reflexivity |].
  induction keywords as [| k ks IH]; simpl; [reflexivity |].
  destruct (in_dec string_dec k words) as [Hin | _].
  - exfalso. apply (Hnone k); [now left | assumption].
  - apply IH. intros k' Hk'. apply Hnone. now right.
Qed.

Lemma listedScore_pos (words keywords : list string) (k : string) :
  In k keywords -> In k words -> 0 < listedScore words keywords.
Proof.
  intros Hk Hw. unfold listedScore.
  assert (0 < listedCount words keywords).
  { unfold listedCount. induction keywords as [| k' ks IH]; [contradiction |].
    simpl. destruct (in_dec string_dec k' words) as [_ | Hout]; [simpl; lia |].
    destruct Hk as [-> | Hk]; [contradiction | now apply IH]. }
  destruct (listedCount words keywords =? 0) eqn:H0; [apply Nat.eqb_eq in H0 |]; lia.
Qed.

(** What the [forEach] over the dictionaries leaves in
    [(bestTheme, bestScore)]: the start values when no score exceeds
    [bestScore], and otherwise the first dictionary with the highest score. *)
Lemma bestTheme_fold (words : list string) (dictionaries : list (string * list string)) :
  forall bestTheme bestScore,
    let final := fold_left (bestThemeStep words) dictionaries (bestTheme, bestScore) in
    (final = (bestTheme, bestScore)
     /\ forall e, In e dictionaries -> listedScore words (snd e) <= bestScore)
    \/ (exists before keywords after,
          dictionaries = (before ++ (fst final, keywords) :: after)%list
          /\ snd final = listedScore words keywords
          /\ bestScore < listedScore words keywords
          /\ (forall e, In e before -> listedScore words (snd e) < listedScore words keywords)
          /\ (forall e, In e after -> listedScore words (snd e) <= listedScore words keywords)).
Proof.
  induction dictionaries as [| [theme keywords] rest IH]; intros bestTheme bestScore; simpl.
  - left. split; [reflexivity | intros e []].
  - rewrite themeScore_listed. destruct (bestScore <? listedScore words keywords) eqn:Hcmp.
    + apply Nat.ltb_lt in Hcmp.
      destruct (IH theme (listedScore words keywords)) as [[Hfinal Hrest] | Hlater].
      * right. exists [], keywords, rest. rewrite Hfinal. simpl. repeat split; auto.
        intros e [].
      * destruct Hlater as (before & kws & after & Hd & Hs & Hlt & Hb & Ha).
        right. exists ((theme, keywords) :: before), kws, after.
        rewrite Hd at 1. repeat split; auto; try lia.
        intros e [<- | He]; [exact Hlt | now apply Hb].
    + apply Nat.ltb_ge in Hcmp.
      destruct (IH bestTheme bestScore) as [[Hfinal Hrest] | Hlater].
      * left. split; [exact Hfinal |]. intros e [<- | He]; [exact Hcmp | now apply Hrest].
      * destruct Hlater as (before & kws & after & Hd & Hs & Hlt & Hb & Ha).
        right. exists ((theme, keywords) :: before), kws, after.
        rewrite Hd at 1. repeat split; auto.
        intros e [<- | He]; [simpl; lia | now apply Hb].
Qed.


Lemma extractThemeWith_cases (dictionaries : list (string * list string)) (text : string) :
  let words := splitWs (toLowerCase text) in
  let label := extractThemeWith dictionaries text in
  (firstBest words dictionaries label)
  \/ ((forall e, In e dictionaries -> listedScore words (snd e) = 0)
      /\ label = match meaningfulWords words with
                 | [] => "other"
                 | _ :: _ => join "_" (firstn 2 (meaningfulWords words))
                 end).
Proof.
  intros words label. subst label. unfold extractThemeWith. fold words.
  pose proof (bestTheme_fold words dictionaries "other" 0) as Hfold. simpl in Hfold.
  destruct (fold_left (bestThemeStep words) dictionaries ("other", 0))
    as [bestTheme bestScore].
  destruct Hfold as [[Hfinal Hall] | Hbest].
  - right. inversion Hfinal; subst. split.
    + intros e He. specialize (Hall e He). lia.
    + simpl. destruct (meaningfulWords words); reflexivity.
  - left. destruct Hbest as (before & kws & after & Hd & Hs & Hlt & Hb & Ha).
    simpl in Hd, Hs. subst bestScore.
    replace (listedScore words kws =? 0) with false
      by (symmetry; apply Nat.eqb_neq; lia).
    rewrite andb_false_r. exists before, kws, after. auto.
Qed.

Lemma firstBest_positive (words : list string) (dictionaries : list (string * list string))
    (label : string) :
  firstBest words dictionaries label ->
  exists keywords, In (label, keywords) dictionaries /\ 0 < listedScore words keywords.
Proof.
  intros (before & kws & after & -> & Hpos & _). exists kws. split; [| assumption].
  apply in_or_app. right. now left.
Qed.

(** The theme label that the code gives a text.  Every one of the eleven
    dictionaries scores the number of entries of its keyword list found
    among the lower-cased, white-space-split words (a keyword that a
    dictionary lists twice counts twice), plus one if any is found.  If some
    dictionary scores above zero the label is the dictionary with the
    highest score, the first one among equals.  Otherwise the label joins,
    with an underscore, the first two words that are longer than 4
    characters and not on the stoplist, and it is ["other"] when there is no
    such word.  A text with the word ["empowered"] and no keyword of another
    dictionary is labelled ["autonomy_empowerment"]. *)
Theorem theme_label (text : string) :
  let words := splitWs (toLowerCase text) in
  let label := enhancedExtractTheme text in
  List.length themeKeywords = 11
  /\ (forall keywords, themeScore words keywords = listedScore words keywords)
  /\ ((exists e, In e themeKeywords /\ 0 < listedScore words (snd e)) ->
      firstBest words themeKeywords label)
  /\ (forall w, In w (meaningfulWords words)
                <-> In w words /\ 4 < String.length w /\ ~ In w themeStoplist)
  /\ ((forall e, In e themeKeywords -> listedScore words (snd e) = 0) ->
      label = match meaningfulWords words with
              | [] => "other"
              | _ :: _ => join "_" (firstn 2 (meaningfulWords words))
              end)
  /\ (In "empowered" words ->
      (forall theme keywords k,
         In (theme, keywords) themeKeywords -> theme <> "autonomy_empowerment" ->
         In k keywords -> ~ In k words) ->
      label = "autonomy_empowerment").
Proof.
  intros words label.
  pose proof (extractThemeWith_cases themeKeywords text) as Hcases.
  cbv zeta in Hcases. subst words label. unfold enhancedExtractTheme.
  generalize dependent (extractThemeWith themeKeywords text). intros label Hcases.
  generalize dependent (splitWs (toLowerCase text)). intros words Hcases.
  split; [reflexivity |]. split; [apply themeScore_listed |].
  split; [| split; [| split]].
  - intros (e & He & Hpos). destruct Hcases as [Hbest | [Hzero _]]; [assumption |].
    specialize (Hzero e He). lia.
  - intros w. unfold meaningfulWords. rewrite filter_In, andb_true_iff, Nat.ltb_lt.
    rewrite negb_true_iff. split.
    + intros (Hw & Hlen & Hstop). repeat split; auto.
      intros Hin. apply includes_In in Hin. congruence.
    + intros (Hw & Hlen & Hstop). repeat split; auto.
      destruct (includes themeStoplist w) eqn:Hin; [| reflexivity].
      apply includes_In in Hin. contradiction.
  - intros Hzero. destruct Hcases as [Hbest | [_ Hlabel]]; [| assumption].
    apply firstBest_positive in Hbest. destruct Hbest as (kws & Hin & Hpos).
    specialize (Hzero _ Hin). simpl in Hzero. lia.
  - intros Hemp Hothers.
    assert (Hauto : exists kws, In ("autonomy_empowerment", kws) themeKeywords
                                /\ In "empowered" kws).
    { eexists. split; [do 4 right; left; reflexivity |]. simpl. tauto. }
    destruct Hauto as (kwsA & HinA & HkA).
    destruct Hcases as [Hbest | [Hzero _]].
    + apply firstBest_positive in Hbest. destruct Hbest as (kws & Hin & Hpos).
      destruct (string_dec label "autonomy_empowerment") as [Heq | Hne]; [assumption |].
      rewrite (listedScore_zero words kws) in Hpos; [lia |].
      intros k Hk. now apply (Hothers label kws).
    + specialize (Hzero _ HinA). simpl in Hzero.
      pose proof (listedScore_pos words kwsA "empowered" HkA Hemp). lia.
Qed.

Lemma theme_label_witness :
  enhancedExtractTheme "I feel Empowered when trusted" = "autonomy_empowerment".
Proof.
  destruct (theme_label "I feel Empowered when trusted") as (_ & _ & _ & _ & _ & Hemp).
  apply Hemp.
  - vm_compute. tauto.
  - intros theme keywords k Hin Hne Hk Hw.
    assert (Hcheck :
      forallb (fun e => String.eqb (fst e) "autonomy_empowerment"
                        || forallb (fun k0 =>
                                      negb (includes
                                              (splitWs (toLowerCase "I feel Empowered when trusted"))
                                              k0))
                                   (snd e))
              themeKeywords = true) by (vm_compute; reflexivity).
    rewrite forallb_forall in Hcheck. specialize (Hcheck _ Hin). cbn [fst snd] in Hcheck.
    apply orb_true_iff in Hcheck. destruct Hcheck as [Heq | Hnone].
    + apply String.eqb_eq in Heq. contradiction.
    + rewrite forallb_forall in Hnone. specialize (Hnone _ Hk).
      apply negb_true_iff in Hnone. apply includes_In in Hw. congruence.
Defined.

(** Instances: a text with ["empowered"], a tie that the first
    dictionary wins, the fallback and ["other"]. *)
Example theme_label_examples :
  enhancedExtractTheme "I feel Empowered when trusted" = "autonomy_empowerment"
  /\ enhancedExtractTheme "more training and more authority" = "training_development"
  /\ enhancedExtractTheme "parking is awful lately" = "parking_awful"
  /\ enhancedExtractTheme "it is ok" = "other".
Proof. repeat split; reflexivity. Qed.

(** ** Sets as duplicate-free lists *)

Lemma setAdd_In (s : list string) (x y : string) : In x (setAdd s y) <-> In x s \/ x = y.
Proof.
  unfold setAdd. destruct (includes s y) eqn:Hy.
  - apply includes_In in Hy. split; [tauto |]. intros [H | ->]; assumption.
  - rewrite in_app_iff. simpl. intuition.
Qed.

Lemma setAdd_NoDup (s : list string) (y : string) : NoDup s -> NoDup (setAdd s y).
Proof.
  intros Hs. unfold setAdd. destruct (includes s y) eqn:Hy; [assumption |].
  apply NoDup_snoc; [assumption |]. intros Hin. apply includes_In in Hin. congruence.
Qed.

Lemma fold_setAdd (l : list string) :
  forall acc, NoDup acc ->
    NoDup (fold_left setAdd l acc)
    /\ forall x, In x (fold_left setAdd l acc) <-> In x acc \/ In x l.
Proof.
  induction l as [| y l IH]; intros acc Hacc; simpl.
  - split; [assumption | intros x; tauto].
  - destruct (IH (setAdd acc y) (setAdd_NoDup _ _ Hacc)) as [Hnd Hin].
    split; [assumption |]. intros x. rewrite Hin, setAdd_In.
    split; intros H; intuition (subst; auto).
Qed.

Lemma setOf_NoDup (l : list string) : NoDup (setOf l).
Proof. apply (fold_setAdd l []). constructor. Qed.

Lemma setOf_In (l : list string) (x : string) : In x (setOf l) <-> In x l.
Proof.
  unfold setOf. destruct (fold_setAdd l [] (NoDup_nil _)) as [_ Hin].
  rewrite Hin. simpl. tauto.
Qed.

Lemma NoDup_same_length {A : Type} (l1 l2 : list A) :
  NoDup l1 -> NoDup l2 -> (forall x, In x l1 <-> In x l2) ->
  List.length l1 = List.length l2.
Proof.
  intros H1 H2 Hsame. apply Permutation_length. now apply NoDup_Permutation.
Qed.

Lemma setOf_size (l : list string) : List.length (setOf l) = distinctCount l.
Proof.
  apply NoDup_same_length; [apply setOf_NoDup | apply NoDup_nodup |].
  intros x. now rewrite setOf_In, nodup_In.
Qed.

Lemma inBoth_In (A B : list string) (x : string) : In x (inBoth A B) <-> In x A /\ In x B.
Proof.
  unfold inBoth. rewrite filter_In.
  destruct (in_dec string_dec x B); split; intros [H1 H2]; auto; discriminate.
Qed.

Lemma intersection_size (A B : list string) :
  List.length (filter (fun x => includes (setOf B) x) (setOf A)) = distinctCount (inBoth A B).
Proof.
  apply NoDup_same_length.
  - apply NoDup_filter, setOf_NoDup.
  - apply NoDup_nodup.
  - intros x. rewrite nodup_In, inBoth_In, filter_In, includes_In, !setOf_In. tauto.
Qed.

Lemma union_size (A B : list string) :
  List.length (setOf (setOf A ++ setOf B)%list) = distinctCount (A ++ B)%list.
Proof.
  rewrite setOf_size. apply NoDup_same_length; try apply NoDup_nodup.
  intros x. rewrite !nodup_In, !in_app_iff, !setOf_In. tauto.
Qed.

Lemma splitWsFrom_nonempty (s cur : string) (inWs : bool) : splitWsFrom cur inWs s <> [].
Proof.
  revert cur inWs. induction s as [| c s IH]; intros cur inWs; simpl; [discriminate |].
  destruct (isWhiteSpace c); [destruct inWs |]; try apply IH; discriminate.
Qed.

Lemma splitOnFrom_nonempty (sep : ascii) (s cur : string) : splitOnFrom sep cur s <> [].
Proof.
  revert cur. induction s as [| c s IH]; intros cur; simpl; [discriminate |].
  destruct (Ascii.eqb c sep); [discriminate | apply IH].
Qed.

Lemma setOf_nonempty (l : list string) : l <> [] -> (List.length (setOf l) =? 0) = false.
Proof.
  intros Hl. destruct l as [| x l]; [congruence |].
  apply Nat.eqb_neq. intros H0.
  assert (Hin : In x (setOf (x :: l))) by (apply setOf_In; now left).
  destruct (setOf (x :: l)); [contradiction | discriminate].
Qed.

(** The lexical similarity is the intersection over union of the two
    word sets. *)
Lemma jaccard_spec (text1 text2 : string) :
  calculateJaccardSimilarity text1 text2
  = intersectionOverUnion (splitWs text1) (splitWs text2).
Proof.
  unfold calculateJaccardSimilarity, intersectionOverUnion, splitWs.
  rewrite !setOf_nonempty by apply splitWsFrom_nonempty. cbn [orb].
  rewrite setOf_size, union_size. f_equal. f_equal.
  rewrite <- intersection_size. symmetry. apply NoDup_same_length.
  - apply NoDup_filter, setOf_NoDup.
  - apply NoDup_nodup.
  - intros x. now rewrite nodup_In.
Qed.

(** The semantic similarity is the intersection over union of the two token
    sets, and 0 when one of them is empty. *)
Lemma semantic_spec (tokens1 tokens2 : list string) :
  calculateSemanticSimilarity tokens1 tokens2
  = match tokens1, tokens2 with
    | [], _ | _, [] => 0%float
    | _ :: _, _ :: _ => intersectionOverUnion tokens1 tokens2
    end.
Proof.
  unfold calculateSemanticSimilarity, intersectionOverUnion.
  destruct tokens1 as [| a A]; [reflexivity |].
  destruct tokens2 as [| b B]; [reflexivity |].
  cbn [List.length Nat.eqb orb].
  now rewrite intersection_size, union_size.
Qed.

Lemma theme_overlap (text1 text2 : string) :
  calculateThemeSimilarity text1 text2
  = labelSimilarity (enhancedExtractTheme text1) (enhancedExtractTheme text2).
Proof.
  unfold calculateThemeSimilarity, labelSimilarity.
  destruct (string_dec (enhancedExtractTheme text1) (enhancedExtractTheme text2)) as [Heq | Hne].
  - apply String.eqb_eq in Heq. now rewrite Heq.
  - apply String.eqb_neq in Hne. rewrite Hne.
    set (words1 := splitOn "_" (enhancedExtractTheme text1)).
    set (words2 := splitOn "_" (enhancedExtractTheme text2)).
    assert (Hpos : (0 <? Nat.max (List.length words1) (List.length words2)) = true).
    { apply Nat.ltb_lt. unfold words1, splitOn.
      pose proof (splitOnFrom_nonempty "_" (enhancedExtractTheme text1) EmptyString) as Hne1.
      destruct (splitOnFrom "_" EmptyString (enhancedExtractTheme text1));
        [congruence | cbn [List.length]; lia]. }
    rewrite Hpos. unfold inBoth.
    now rewrite (filter_ext _ _ (includes_dec words2)).
Qed.

(** ** The absorption rule of the clustering pass *)

Lemma combinedSimilarity_score (response otherResponse : RawResponse) :
  combinedSimilarity response otherResponse = similarityScore response otherResponse.
Proof.
  unfold combinedSimilarity, similarityScore.
  now rewrite jaccard_spec, semantic_spec, theme_overlap.
Qed.

Lemma optEqb_eq (a b : option string) : optEqb a b = true <-> a = b.
Proof.
  destruct a as [x |], b as [y |]; simpl; try (split; intros H; congruence).
  rewrite String.eqb_eq. split; intros H; congruence.
Qed.

Lemma leadersAdd_In (s : list (option string)) (x y : option string) :
  In x (leadersAdd s y) <-> In x s \/ x = y.
Proof.
  unfold leadersAdd. destruct (existsb (optEqb y) s) eqn:Hy.
  - apply existsb_exists in Hy. destruct Hy as (z & Hz & Heq).
    apply optEqb_eq in Heq. subst z. split; [tauto |]. intros [H | ->]; assumption.
  - rewrite in_app_iff. simpl. intuition.
Qed.

(** One round of the inner loop of the clustering pass, for the seed at
    [idx] and a candidate at [otherIdx].  A candidate that is not behind the
    seed or is already processed is passed over.  A later, unprocessed
    candidate is absorbed exactly when the combined score
    [jaccard * 0.3 + semantic * 0.4 + theme * 0.3] exceeds 0.45, where
    [jaccard] and [semantic] are intersection over union of the two word
    sets of [normalizedText] and of the two [semanticTokens] sets
    ([semantic] is 0 when a response has no token), and [theme] compares
    the two theme labels: 1 when they are equal, otherwise the number of
    words of the seed's label that occur in the candidate's label, a
    repeated word counted each time, over the longer word count.
    Absorbing marks the candidate processed, adds one to [count], appends
    [fullOriginal] to [examples] when fewer than 8 are stored, adds the
    candidate's leader and department to the two sets and its tokens to
    [semanticSignature]; the theme label stays the seed's. *)
Theorem absorption_rule (response otherResponse : RawResponse) (idx otherIdx : nat)
    (cluster : OpenCluster) (processed : list nat) :
  let after := absorbStep response idx (cluster, processed) (otherIdx, otherResponse) in
  let score := similarityScore response otherResponse in
  (otherIdx <= idx \/ In otherIdx processed -> after = (cluster, processed))
  /\ (idx < otherIdx -> ~ In otherIdx processed ->
      ((0.45 <? score)%float = false -> after = (cluster, processed))
      /\ ((0.45 <? score)%float = true ->
          snd after = (processed ++ [otherIdx])%list
          /\ o_count (fst after) = o_count cluster + 1
          /\ o_examples (fst after)
             = (if List.length (o_examples cluster) <? 8
                then (o_examples cluster ++ [fullOriginal otherResponse])%list
                else o_examples cluster)
          /\ (forall l, In l (o_leaders (fst after))
                        <-> In l (o_leaders cluster)
                            \/ (l = leader otherResponse
                                /\ truthyOpt (leader otherResponse) = true))
          /\ (forall d, In d (o_departments (fst after))
                        <-> In d (o_departments cluster)
                            \/ (d = department otherResponse
                                /\ truthy (department otherResponse) = true))
          /\ (forall t, In t (o_semanticSignature (fst after))
                        <-> In t (o_semanticSignature cluster)
                            \/ In t (semanticTokens otherResponse))
          /\ NoDup (o_semanticSignature (fst after))
          /\ o_theme (fst after) = o_theme cluster)).
Proof.
  intros after score. subst after score. unfold absorbStep.
  rewrite combinedSimilarity_score. split.
  - intros [Hle | Hin].
    + apply Nat.leb_le in Hle. now rewrite Hle.
    + apply has_In in Hin. rewrite Hin. now rewrite orb_true_r.
  - intros Hlt Hfresh.
    apply Nat.leb_gt in Hlt. apply has_false in Hfresh. rewrite Hlt, Hfresh. cbn [orb].
    split; intros Hscore; rewrite Hscore; [reflexivity |].
    cbn [fst snd]. unfold absorb. cbn [o_count o_examples o_leaders o_departments
                                       o_semanticSignature o_theme].
    split; [now apply add_fresh |]. split; [reflexivity |]. split; [reflexivity |].
    split; [| split; [| split; [| split]]].
    + intros l. destruct (truthyOpt (leader otherResponse)).
      * rewrite leadersAdd_In. intuition.
      * split; [tauto |]. intros [H | [_ H]]; [assumption | discriminate].
    + intros d. destruct (truthy (department otherResponse)).
      * rewrite setAdd_In. intuition.
      * split; [tauto |]. intros [H | [_ H]]; [assumption | discriminate].
    + intros t. now rewrite setOf_In, in_app_iff.
    + apply setOf_NoDup.
    + reflexivity.
Qed.

Lemma absorption_rule_witness :
  (let after := absorbStep bandwidthSeed 0 (openCluster bandwidthSeed, [0]) (1, bandwidthOther) in
   snd after = [0; 1] /\ o_count (fst after) = 2
   /\ o_examples (fst after)
      = ["I need more bandwidth to do my job"; "not enough time and bandwidth"])
  /\ absorbStep bandwidthSeed 0 (openCluster bandwidthSeed, [0]) (1, parkingOther)
     = (openCluster bandwidthSeed, [0]).
Proof.
  split.
  - destruct (absorption_rule bandwidthSeed bandwidthOther 0 1
                (openCluster bandwidthSeed) [0]) as [_ Hlater].
    destruct Hlater as [_ Habsorb]; [lia | simpl; intros [H | []]; discriminate |].
    destruct Habsorb as (Hp & Hc & He & _); [vm_compute; reflexivity |].
    cbv zeta. rewrite Hp, Hc, He. repeat split.
  - destruct (absorption_rule bandwidthSeed parkingOther 0 1
                (openCluster bandwidthSeed) [0]) as [_ Hlater].
    destruct Hlater as [Hskip _]; [lia | simpl; intros [H | []]; discriminate |].
    apply Hskip. vm_compute. reflexivity.
Defined.

(** ** The merge rule of the post-merge pass *)

Lemma themeJaccard_spec (theme1 theme2 : string) :
  themeJaccard theme1 theme2
  = intersectionOverUnion (splitOn "_" theme1) (splitOn "_" theme2).
Proof.
  unfold themeJaccard, intersectionOverUnion.
  now rewrite intersection_size, union_size.
Qed.

Lemma NoDup_firstn {A : Type} (n : nat) (l : list A) : NoDup l -> NoDup (firstn n l).
Proof.
  revert n. induction l as [| x l IH]; intros [| n] Hl; simpl; try constructor.
  - inversion Hl; subst. intros Hin. apply H1.
    rewrite <- (firstn_skipn n l). apply in_or_app. now left.
  - inversion Hl; subst. now apply IH.
Qed.

Lemma firstn_In {A : Type} (n : nat) (l : list A) (x : A) : In x (firstn n l) -> In x l.
Proof.
  intros Hin. rewrite <- (firstn_skipn n l). apply in_or_app. now left.
Qed.

(** One round of the inner loop of the post-merge pass, for the cluster at
    [idx] and a later cluster at [otherIdx].  The second cluster is merged
    exactly when the intersection over union of the two theme labels'
    underscore-split word sets exceeds 0.6 (the first label is the one the
    cluster had before any merge).  A merge adds the second [count],
    [leaderCount] and [departmentCount] to the running ones and keeps the
    first 8 of the duplicate-free union of the examples.  The label becomes
    the second cluster's when its [count] exceeds the [count] that the first
    cluster had before any merge, and stays as it is otherwise. *)
Theorem merge_rule (cluster currentCluster otherCluster : Cluster) (idx otherIdx : nat)
    (processed : list nat) :
  let after := mergeStep cluster idx (currentCluster, processed) (otherIdx, otherCluster) in
  let overlap :=
    intersectionOverUnion (splitOn "_" (theme cluster)) (splitOn "_" (theme otherCluster)) in
  (otherIdx <= idx \/ In otherIdx processed -> after = (currentCluster, processed))
  /\ (idx < otherIdx -> ~ In otherIdx processed ->
      ((0.6 <? overlap)%float = false -> after = (currentCluster, processed))
      /\ ((0.6 <? overlap)%float = true ->
          snd after = (processed ++ [otherIdx])%list
          /\ count (fst after) = count currentCluster + count otherCluster
          /\ examples (fst after)
             = firstn 8 (setOf (examples currentCluster ++ examples otherCluster)%list)
          /\ NoDup (examples (fst after))
          /\ List.length (examples (fst after)) <= 8
          /\ (forall e, In e (examples (fst after)) ->
                        In e (examples currentCluster) \/ In e (examples otherCluster))
          /\ leaderCount (fst after) = leaderCount currentCluster + leaderCount otherCluster
          /\ departmentCount (fst after)
             = departmentCount currentCluster + departmentCount otherCluster
          /\ theme (fst after)
             = (if count cluster <? count otherCluster
                then theme otherCluster else theme currentCluster))).
Proof.
  intros after overlap. subst after overlap. unfold mergeStep.
  rewrite themeJaccard_spec. split.
  - intros [Hle | Hin].
    + apply Nat.leb_le in Hle. now rewrite Hle.
    + apply has_In in Hin. rewrite Hin. now rewrite orb_true_r.
  - intros Hlt Hfresh.
    apply Nat.leb_gt in Hlt. apply has_false in Hfresh. rewrite Hlt, Hfresh. cbn [orb].
    split; intros Hover; rewrite Hover; [reflexivity |].
    cbn [fst snd]. unfold mergeInto.
    cbn [count examples leaderCount departmentCount theme].
    split; [now apply add_fresh |]. split; [reflexivity |]. split; [reflexivity |].
    split; [apply NoDup_firstn, setOf_NoDup |].
    split; [apply firstn_le_length |].
    split; [| auto].
    intros e He. apply firstn_In in He. apply (proj1 (setOf_In _ _)) in He.
    now apply in_app_or.
Qed.

Lemma merge_rule_witness :
  let a := mkCluster "noise_music" 1 ["loud"] 1 1 [] 4%float in
  let b := mkCluster "music_noise" 5 ["louder"; "loud"] 2 1 [] 6%float in
  mergeStep a 0 (a, [0]) (1, b)
  = (mkCluster "music_noise" 6 ["loud"; "louder"] 3 2 [] 4%float, [0; 1]).
Proof.
  intros a b.
  destruct (merge_rule a a b 0 1 [0]) as [_ Hlater].
  destruct Hlater as [_ Hmerge]; [lia | simpl; intros [H | []]; discriminate |].
  destruct Hmerge as (Hp & Hc & He & _ & _ & _ & Hl & Hd & Ht); [vm_compute; reflexivity |].
  destruct (mergeStep a 0 (a, [0]) (1, b)) as [[t c e l d s v] p] eqn:Hstep.
  cbn [fst snd theme count examples leaderCount departmentCount] in *.
  subst. vm_compute in Hstep. inversion Hstep; subst. reflexivity.
Defined.

(** C3, where the code departs from it.  The clustering pass turns
    [noiseTexts] into three clusters of 1, 5 and 2 responses whose labels
    have the same word set.  The post-merge pass merges the second and the
    third into the first.  After the first merge the cluster counts 6 and
    carries the label of the cluster of 5; merging the cluster of 2 then
    replaces the label by that of the cluster of 2, because its count is
    compared with the count of the first cluster before any merge.  The
    emitted cluster of 8 does not carry the label of the largest cluster it
    was merged from. *)
Theorem merged_label_not_the_largest :
  let clusters := clusterSeeds (map rawOf noiseTexts) in
  map (fun c => (theme c, count c)) clusters
  = [("noise_music", 1); ("music_noise", 5); ("noise_music", 2)]
  /\ (forall a b c, clusters = [a; b; c] ->
        (theme (mergeInto a a b), count (mergeInto a a b)) = ("music_noise", 6)
        /\ (theme (mergeInto a (mergeInto a a b) c), count (mergeInto a (mergeInto a a b) c))
           = ("noise_music", 8))
  /\ map (fun c => (theme c, count c)) (postProcessClustersWithExamples clusters)
     = [("noise_music", 8)]
  /\ map (fun c => (theme c, count c))
         (enhancedClusterResponsesWithFullExamples (map rawOf noiseTexts))
     = [("noise_music", 8)].
Proof.
  intros clusters.
  assert (Hc : exists a b c, clusters = [a; b; c]
                 /\ (theme a, count a) = ("noise_music", 1)
                 /\ (theme b, count b) = ("music_noise", 5)
                 /\ (theme c, count c) = ("noise_music", 2)).
  { subst clusters. vm_compute. do 3 eexists. repeat split. }
  destruct Hc as (a & b & c & Heq & Ha & Hb & Hc).
  split; [rewrite Heq; simpl; now rewrite Ha, Hb, Hc |].
  split.
  - intros a' b' c' Heq'. rewrite Heq in Heq'. inversion Heq'; subst a' b' c'.
    inversion Ha. inversion Hb. inversion Hc. unfold mergeInto. simpl.
    repeat match goal with H : count _ = _ |- _ => rewrite H end.
    repeat match goal with H : theme _ = _ |- _ => rewrite H end.
    split; reflexivity.
  - split; vm_compute; reflexivity.
Qed.

(** ** Examples of a cluster *)

Lemma Forall2_In_r {A B : Type} (P : A -> B -> Prop) (l1 : list A) (l2 : list B) (y : B) :
  Forall2 P l1 l2 -> In y l2 -> exists x, In x l1 /\ P x y.
Proof.
  induction 1 as [| x y' l1 l2 Hxy _ IH]; intros Hin; [contradiction |].
  destruct Hin as [<- | Hin].
  - exists x. split; [now left | assumption].
  - destruct (IH Hin) as (x' & Hx' & HP). exists x'. split; [now right | assumption].
Qed.

Lemma in_concat_group {A : Type} (groups : list (list A)) (g : list A) (x : A) :
  In g groups -> In x g -> In x (List.concat groups).
Proof. intros Hg Hx. apply in_concat. now exists g. Qed.

(** After the clustering pass a cluster holds at most 8 examples, each the
    [fullOriginal] of a response. *)
Lemma clusterSeeds_examples (responses : list RawResponse) (c : Cluster) :
  In c (clusterSeeds responses) ->
  List.length (examples c) <= 8
  /\ forall e, In e (examples c) -> exists r, In r responses /\ fullOriginal r = e.
Proof.
  rewrite clusterSeeds_greedy. intros Hc.
  destruct (greedy_partition openCluster absorbs (fun _ c o => absorb c o) closeCluster
              (fun m a => List.length (o_examples a) <= 8
                          /\ forall e, In e (o_examples a) ->
                                       exists r, In r m /\ fullOriginal r = e))
    with (xs := byTextLength responses) as (groups & HF & Hp).
  - intros x. simpl. split; [lia |]. intros e [<- | []]. exists x. split; [now left | reflexivity].
  - intros x m a y [Hlen Hex] _. simpl.
    destruct (List.length (o_examples a) <? 8) eqn:Hcap.
    + apply Nat.ltb_lt in Hcap. split; [rewrite length_app; simpl; lia |].
      intros e He. apply in_app_or in He. destruct He as [He | [<- | []]].
      * destruct (Hex e He) as (r & [<- | Hr] & Hfull).
        -- exists x. split; [now left | assumption].
        -- exists r. split; [right; apply in_or_app; now left | assumption].
      * exists y. split; [right; apply in_or_app; right; now left | reflexivity].
    + split; [assumption |]. intros e He.
      destruct (Hex e He) as (r & [<- | Hr] & Hfull).
      * exists x. split; [now left | assumption].
      * exists r. split; [right; apply in_or_app; now left | assumption].
  - destruct (Forall2_In_r _ _ _ _ HF Hc) as (g & Hg & a & -> & Hlen & Hex).
    simpl. split; [assumption |]. intros e He.
    destruct (Hex e He) as (r & Hr & Hfull). exists r. split; [| assumption].
    eapply Permutation_in; [apply sortDesc_perm |].
    apply (Permutation_in r Hp). now apply (in_concat_group groups g).
Qed.

(** The post-merge pass keeps both properties. *)
Lemma postProcess_examples (clusters : list Cluster) (c : Cluster) :
  Forall (fun c0 => List.length (examples c0) <= 8) clusters ->
  In c (postProcessClustersWithExamples clusters) ->
  List.length (examples c) <= 8
  /\ forall e, In e (examples c) -> exists c0, In c0 clusters /\ In e (examples c0).
Proof.
  rewrite postProcess_greedy. intros Hcap Hc.
  destruct (List.length clusters <? 2).
  - rewrite Forall_forall in Hcap. split; [now apply Hcap |]. intros e He. now exists c.
  - destruct (greedy_partition (fun c0 => c0) merges mergeInto (fun c0 : Cluster => c0)
                (fun m a => (Forall (fun c0 => List.length (examples c0) <= 8) m ->
                             List.length (examples a) <= 8)
                            /\ forall e, In e (examples a) ->
                                         exists c0, In c0 m /\ In e (examples c0)))
      with (xs := clusters) as (groups & HF & Hp).
    + intros x. split.
      * intros Hx. now inversion Hx.
      * intros e He. exists x. split; [now left | assumption].
    + intros x m a y [Hlen Hex] _. unfold mergeInto. cbn [examples].
      split; [intros _; apply firstn_le_length |].
      intros e He. apply firstn_In in He. apply (proj1 (setOf_In _ _)) in He.
      apply in_app_or in He. destruct He as [He | He].
      * destruct (Hex e He) as (c0 & [<- | Hc0] & Hin).
        -- exists x. split; [now left | assumption].
        -- exists c0. split; [right; apply in_or_app; now left | assumption].
      * exists y. split; [right; apply in_or_app; right; now left | assumption].
    + destruct (Forall2_In_r _ _ _ _ HF Hc) as (g & Hg & a & -> & Hlen & Hex).
      assert (Hsub : forall c0, In c0 g -> In c0 clusters).
      { intros c0 Hc0. apply (Permutation_in c0 Hp). now apply (in_concat_group groups g). }
      rewrite Forall_forall in Hcap. split.
      * apply Hlen. apply Forall_forall. intros c0 Hc0. now apply Hcap, Hsub.
      * intros e He. destruct (Hex e He) as (c0 & Hc0 & Hin). exists c0. auto.
Qed.

(** Every emitted cluster holds at most 8 examples, each of them the
    [fullOriginal] of a response of the category, character for character.
    (The examples need not be distinct.) *)
Theorem examples_capped_and_verbatim (responses : list RawResponse) (c : Cluster) :
  In c (enhancedClusterResponsesWithFullExamples responses) ->
  List.length (examples c) <= 8
  /\ forall e, In e (examples c) -> exists r, In r responses /\ fullOriginal r = e.
Proof.
  unfold enhancedClusterResponsesWithFullExamples.
  destruct (List.length responses =? 0); [intros [] |].
  intros Hc. apply firstn_In in Hc.
  apply (Permutation_in c (sortDesc_perm count _)) in Hc.
  assert (Hseeds : Forall (fun c0 => List.length (examples c0) <= 8) (clusterSeeds responses)).
  { apply Forall_forall. intros c0 Hc0. now apply (clusterSeeds_examples responses). }
  destruct (postProcess_examples _ c Hseeds Hc) as [Hlen Hex].
  split; [assumption |]. intros e He.
  destruct (Hex e He) as (c0 & Hc0 & Hin).
  now apply (clusterSeeds_examples responses c0).
Qed.

Lemma examples_capped_and_verbatim_witness :
  exists c, In c (enhancedClusterResponsesWithFullExamples [bandwidthSeed; parkingOther])
            /\ List.length (examples c) <= 8
            /\ forall e, In e (examples c) ->
                         exists r, In r [bandwidthSeed; parkingOther] /\ fullOriginal r = e.
Proof.
  assert (Hin : exists c, In c (enhancedClusterResponsesWithFullExamples
                                  [bandwidthSeed; parkingOther])).
  { vm_compute. eexists. left. reflexivity. }
  destruct Hin as (c & Hc). exists c. split; [assumption |].
  exact (examples_capped_and_verbatim [bandwidthSeed; parkingOther] c Hc).
Defined.

(** C8, where the code departs from it.  Two respondents who give the same
    answer end up in one cluster, and the clustering pass stores the answer
    twice: [examples] is only freed of duplicates when the post-merge pass
    merges two clusters, which does not happen here.  The emitted cluster
    has [count = 2] and the same example twice. *)
Theorem duplicate_examples_survive :
  exists aggregated categoryAggregate cluster,
    aggregateResponses [sampleRecord; sampleRecord] = Ok aggregated
    /\ In ("obstacles", categoryAggregate) (byCategory aggregated)
    /\ clusters categoryAggregate = [cluster]
    /\ count cluster = 2
    /\ examples cluster
       = ["I need more bandwidth to do my job"; "I need more bandwidth to do my job"]
    /\ ~ NoDup (examples cluster).
Proof.
  assert (Hrun : exists aggregated categoryAggregate cluster,
             aggregateResponses [sampleRecord; sampleRecord] = Ok aggregated
             /\ In ("obstacles", categoryAggregate) (byCategory aggregated)
             /\ clusters categoryAggregate = [cluster]
             /\ count cluster = 2
             /\ examples cluster
                = ["I need more bandwidth to do my job"; "I need more bandwidth to do my job"]).
  { vm_compute. do 3 eexists. split; [reflexivity |].
    split; [right; right; left; reflexivity |]. repeat split. }
  destruct Hrun as (aggregated & c & cluster & H1 & H2 & H3 & H4 & H5).
  exists aggregated, c, cluster. repeat split; try assumption.
  rewrite H5. intros Hnd. inversion Hnd as [| ? ? Hnotin _]; subst.
  apply Hnotin. now left.
Qed.

(** ** Header patterns *)

(** The computed keys [_steamLeader] and [_department] match no header
    pattern of any category, so leaving them out of [columns] loses no
    text. *)
Lemma computed_keys_not_extracted (mapping : QuestionMapping) (key : string) :
  In mapping questionMappings ->
  key = "_steamLeader" \/ key = "_department" ->
  existsb (fun pattern => test true pattern key) (patterns mapping) = false.
Proof.
  intros Hin [-> | ->]; simpl in Hin;
    repeat (destruct Hin as [<- | Hin]; [vm_compute; reflexivity |]);
    contradiction.
Qed.

(** The header of the obstacles question selects the obstacles category
    only. *)
Example header_selects_category :
  map (fun mapping =>
         existsb (fun pattern =>
                    test true pattern
                         "What obstacles are preventing you from doing your best work?")
                 (patterns mapping))
      questionMappings
  = [false; false; true; false; false; false].
Proof. vm_compute. reflexivity. Qed.

(** * Further properties *)

(** ** Greedy grouping: the two extremes *)

Lemma firstn_snoc_nth {A : Type} (l : list A) (i : nat) (x : A) :
  nth_error l i = Some x -> firstn (S i) l = (firstn i l ++ [x])%list.
Proof.
  revert i. induction l as [| y l IH]; intros [| i] H; simpl in *; try discriminate.
  - now inversion H.
  - f_equal. now apply IH.
Qed.

Lemma has_seq (n i : nat) : has (seq 0 n) i = (i <? n).
Proof.
  destruct (i <? n) eqn:Hlt.
  - apply has_In, in_seq. apply Nat.ltb_lt in Hlt. lia.
  - apply has_false. rewrite in_seq. apply Nat.ltb_ge in Hlt. lia.
Qed.

Lemma add_seq (n : nat) : add (seq 0 n) n = seq 0 (S n).
Proof.
  rewrite add_fresh by (rewrite has_seq; apply Nat.ltb_irrefl).
  now rewrite seq_S.
Qed.

Lemma ForallOrdPairs_nth {A : Type} (R : A -> A -> Prop) (l : list A) :
  ForallOrdPairs R l ->
  forall i j x y, i < j -> nth_error l i = Some x -> nth_error l j = Some y -> R x y.
Proof.
  induction 1 as [| a l Ha _ IH]; intros i j x y Hij Hi Hj.
  - destruct i; discriminate.
  - destruct j as [| j]; [lia |]. simpl in Hj. destruct i as [| i]; simpl in Hi.
    + inversion Hi; subst. rewrite Forall_forall in Ha. apply Ha.
      eapply nth_error_In; eassumption.
    + apply (IH i j); [lia | assumption | assumption].
Qed.

Section GreedyExtremes.

Context {X Acc Out : Type}.
Variable opn : X -> Acc.
Variable tst : X -> X -> bool.
Variable cmb : X -> Acc -> X -> Acc.
Variable cls : Acc -> Out.

(** When no element passes the test against an element before it, every
    element is a group of its own. *)
Lemma greedy_apart (xs : list X) :
  ForallOrdPairs (fun x y => tst x y = false) xs ->
  greedy opn tst cmb cls xs = map (fun x => cls (opn x)) xs.
Proof.
  intros Hpairs. unfold greedy.
  assert (Hinv : fold_left (greedyOuter opn tst cmb cls xs) (indexed xs) ([], [])
                 = (map (fun x => cls (opn x)) (firstn (0 + List.length xs) xs),
                    seq 0 (0 + List.length xs))).
  { unfold indexed.
    apply (fold_indexed_invariant
             (fun i st => st = (map (fun x => cls (opn x)) (firstn i xs), seq 0 i))).
    - reflexivity.
    - intros i x st Hnth ->. cbn [Nat.add]. unfold greedyOuter.
      rewrite has_seq, Nat.ltb_irrefl, add_seq.
      assert (Hidle : fold_left (greedyInner tst cmb x i) (indexed xs) (opn x, seq 0 (S i))
                      = (opn x, seq 0 (S i))).
      { apply (fold_left_invariant (fun st => st = (opn x, seq 0 (S i)))); [reflexivity |].
        intros st [j y] Hin ->. apply indexed_In in Hin. destruct Hin as [Hj _].
        unfold greedyInner. destruct (j <=? i) eqn:Hle; [reflexivity |].
        apply Nat.leb_gt in Hle. cbn [orb].
        destruct (has (seq 0 (S i)) j); [reflexivity |].
        now rewrite (ForallOrdPairs_nth _ _ Hpairs i j x y Hle Hnth Hj). }
      rewrite Hidle. rewrite (firstn_snoc_nth _ _ _ Hnth), map_app. reflexivity. }
  rewrite Hinv. simpl. now rewrite firstn_all.
Qed.

(** When every element behind the first passes the test against the first,
    there is one group, and it takes the elements in order. *)
Lemma greedy_collapse (x : X) (rest : list X) :
  (forall y, In y rest -> tst x y = true) ->
  greedy opn tst cmb cls (x :: rest) = [cls (fold_left (cmb x) rest (opn x))].
Proof.
  intros Hall. unfold greedy, indexed. rewrite indexedFrom_cons.
  cbn [fold_left greedyOuter has existsb]. change (add [] 0) with [0].
  unfold indexed. rewrite indexedFrom_cons. cbn [fold_left].
  assert (Hfirst : greedyInner tst cmb x 0 (opn x, [0]) (0, x) = (opn x, [0]))
    by reflexivity.
  rewrite Hfirst.
  assert (Hinner : fold_left (greedyInner tst cmb x 0) (indexedFrom 1 rest) (opn x, [0])
                   = (fold_left (cmb x) (firstn (1 + List.length rest - 1) rest) (opn x),
                      seq 0 (1 + List.length rest))).
  { apply (fold_indexed_invariant
             (fun i st => st = (fold_left (cmb x) (firstn (i - 1) rest) (opn x), seq 0 i))).
    - reflexivity.
    - intros i y st Hnth ->. unfold greedyInner. cbn [Nat.leb Nat.add orb].
      rewrite has_seq, Nat.ltb_irrefl.
      rewrite (Hall y) by (eapply nth_error_In; eassumption).
      change (add (seq 0 (S i)) (S i)) with (add (seq 0 (S i)) (S i)).
      rewrite add_seq. f_equal.
      replace (S i - 1) with i by lia. replace (S (S i) - 1) with (S i) by lia.
      rewrite (firstn_snoc_nth _ _ _ Hnth), fold_left_app. reflexivity. }
  rewrite Hinner. replace (1 + List.length rest - 1) with (List.length rest) by lia.
  rewrite firstn_all.
  set (group := fold_left (cmb x) rest (opn x)).
  assert (Hskip : fold_left (greedyOuter opn tst cmb cls (x :: rest)) (indexedFrom 1 rest)
                            ([cls group], seq 0 (1 + List.length rest))
                  = ([cls group], seq 0 (1 + List.length rest))).
  { apply (fold_left_invariant (fun st => st = ([cls group], seq 0 (1 + List.length rest))));
      [reflexivity |].
    intros st [j y] Hin ->. apply indexedFrom_In in Hin. destruct Hin as [Hj Hnth].
    assert (Hlt : j - 1 < List.length rest) by (apply nth_error_Some; congruence).
    unfold greedyOuter. rewrite has_seq.
    replace (j <? 1 + List.length rest) with true; [reflexivity |].
    symmetry. apply Nat.ltb_lt. lia. }
  cbn [app]. rewrite Hskip. reflexivity.
Qed.

End GreedyExtremes.

(** ** Clusters of the two passes: well-formedness and size *)

Lemma leadersAdd_length (s : list (option string)) (x : option string) :
  List.length s <= List.length (leadersAdd s x) <= S (List.length s).
Proof.
  unfold leadersAdd. destruct (existsb (optEqb x) s); [lia |].
  rewrite length_app. simpl. lia.
Qed.

Lemma setAdd_length (s : list string) (x : string) :
  List.length s <= List.length (setAdd s x) <= S (List.length s).
Proof.
  unfold setAdd. destruct (includes s x); [lia |].
  rewrite length_app. simpl. lia.
Qed.

Lemma setOf_length_le (l : list string) : List.length (setOf l) <= List.length l.
Proof.
  apply NoDup_incl_length; [apply setOf_NoDup |].
  intros x Hx. now apply setOf_In.
Qed.

Lemma setOf_length_pos (l : list string) : l <> [] -> 1 <= List.length (setOf l).
Proof.
  intros Hl. pose proof (setOf_nonempty l Hl) as H. apply Nat.eqb_neq in H. lia.
Qed.

Lemma groups_bound {A B : Type} (P : list A -> B -> Prop) (groups : list (list A))
    (outs : list B) :
  (forall m o, P m o -> 1 <= List.length m) ->
  Forall2 P groups outs ->
  List.length outs <= List.length (List.concat groups)
  /\ (List.concat groups <> [] -> 1 <= List.length outs).
Proof.
  intros Hpos. induction 1 as [| m o groups outs Hm _ [IHle IHpos]]; simpl.
  - split; [lia | congruence].
  - apply Hpos in Hm. rewrite length_app. split; [lia | intros _; lia].
Qed.

Lemma absorb_well_formed (x : RawResponse) (m : list RawResponse) (a : OpenCluster)
    (y : RawResponse) :
  o_count a = List.length (x :: m)
  /\ List.length (o_examples a) = Nat.min (o_count a) 8
  /\ 1 <= List.length (o_leaders a) <= o_count a
  /\ 1 <= List.length (o_departments a) <= o_count a ->
  o_count (absorb a y) = List.length (x :: m ++ [y])
  /\ List.length (o_examples (absorb a y)) = Nat.min (o_count (absorb a y)) 8
  /\ 1 <= List.length (o_leaders (absorb a y)) <= o_count (absorb a y)
  /\ 1 <= List.length (o_departments (absorb a y)) <= o_count (absorb a y).
Proof.
  intros (Hc & He & Hl & Hd). unfold absorb.
  cbn [o_count o_examples o_leaders o_departments]. cbn [List.length] in *.
  rewrite length_app. cbn [List.length].
  split; [lia |]. split; [| split].
  - destruct (List.length (o_examples a) <? 8) eqn:Hcap.
    + apply Nat.ltb_lt in Hcap. rewrite length_app. cbn [List.length]. lia.
    + apply Nat.ltb_ge in Hcap. lia.
  - destruct (truthyOpt (leader y)); [| lia].
    pose proof (leadersAdd_length (o_leaders a) (leader y)). lia.
  - destruct (truthy (department y)); [| lia].
    pose proof (setAdd_length (o_departments a) (department y)). lia.
Qed.

Lemma mergeInto_well_formed (x a y : Cluster) :
  wellFormed a -> wellFormed y -> wellFormed (mergeInto x a y).
Proof.
  intros (Hca & Hea & Hla & Hda) (Hcy & Hey & Hly & Hdy).
  unfold wellFormed, mergeInto. cbn [count examples leaderCount departmentCount].
  split; [lia |]. split; [| split; lia].
  pose proof (setOf_length_le (examples a ++ examples y)) as Hle.
  rewrite length_app in Hle.
  assert (Hpos : 1 <= List.length (setOf (examples a ++ examples y))).
  { apply setOf_length_pos. destruct (examples a); [simpl in Hea; lia | discriminate]. }
  rewrite length_firstn. lia.
Qed.

(** The clustering pass yields well-formed clusters, at most one per
    response and at least one if there is a response. *)
Lemma clusterSeeds_well_formed (responses : list RawResponse) :
  Forall wellFormed (clusterSeeds responses)
  /\ List.length (clusterSeeds responses) <= List.length responses
  /\ (responses <> [] -> 1 <= List.length (clusterSeeds responses)).
Proof.
  rewrite clusterSeeds_greedy.
  destruct (greedy_partition openCluster absorbs (fun _ c o => absorb c o) closeCluster
              (fun m a => 1 <= List.length m
                          /\ o_count a = List.length m
                          /\ List.length (o_examples a) = Nat.min (o_count a) 8
                          /\ 1 <= List.length (o_leaders a) <= o_count a
                          /\ 1 <= List.length (o_departments a) <= o_count a))
    with (xs := byTextLength responses) as (groups & HF & Hp).
  - intros x. cbn. lia.
  - intros x m a y (_ & H) _. split; [cbn [List.length]; lia |].
    now apply (absorb_well_formed x m).
  - assert (Hlen : List.length (List.concat groups) = List.length responses).
    { rewrite (Permutation_length Hp). apply sortDesc_length. }
    split; [| rewrite <- Hlen].
    + apply Forall_forall. intros c Hc.
      destruct (Forall2_In_r _ _ _ _ HF Hc) as (m & _ & a & -> & Hm & Hcount & He & Hl & Hd).
      unfold wellFormed, closeCluster. cbn [count examples leaderCount departmentCount].
      repeat split; lia.
    + apply groups_bound in HF as [Hle Hpos].
      * split; [exact Hle |]. intros Hne. apply Hpos. intros Hnil.
        rewrite Hnil in Hlen. destruct responses; [congruence | discriminate].
      * intros m o (a & _ & Hm & _). exact Hm.
Qed.

(** The post-merge pass keeps clusters well formed, never yields more
    clusters than it got, and yields one if it got one. *)
Lemma postProcess_well_formed (clusters : list Cluster) :
  Forall wellFormed clusters ->
  Forall wellFormed (postProcessClustersWithExamples clusters)
  /\ List.length (postProcessClustersWithExamples clusters) <= List.length clusters
  /\ (clusters <> [] -> 1 <= List.length (postProcessClustersWithExamples clusters)).
Proof.
  intros Hwf. rewrite postProcess_greedy. destruct (List.length clusters <? 2).
  - split; [assumption |]. split; [lia |]. destruct clusters; [congruence | simpl; lia].
  - destruct (greedy_partition (fun c0 => c0) merges mergeInto (fun c0 : Cluster => c0)
                (fun m a => 1 <= List.length m /\ (Forall wellFormed m -> wellFormed a)))
      with (xs := clusters) as (groups & HF & Hp).
    + intros x. split; [simpl; lia |]. intros Hx. now inversion Hx.
    + intros x m a y (_ & Ha) _. split; [cbn [List.length]; lia |].
      intros Hall. change (x :: m ++ [y])%list with ((x :: m) ++ [y])%list in Hall.
      apply Forall_app in Hall. destruct Hall as [Hxm Hy].
      apply mergeInto_well_formed; [now apply Ha | now inversion Hy].
    + assert (Hlen : List.length (List.concat groups) = List.length clusters)
        by apply (Permutation_length Hp).
      split; [| rewrite <- Hlen].
      * apply Forall_forall. intros c Hc.
        destruct (Forall2_In_r _ _ _ _ HF Hc) as (m & Hm & a & -> & _ & Ha).
        apply Ha. apply Forall_forall. intros c0 Hc0.
        rewrite Forall_forall in Hwf. apply Hwf.
        apply (Permutation_in c0 Hp). now apply (in_concat_group groups m).
      * apply groups_bound in HF as [Hle Hpos].
        -- split; [exact Hle |]. intros Hne. apply Hpos. intros Hnil.
           rewrite Hnil in Hlen. destruct clusters; [congruence | discriminate].
        -- intros m o (a & _ & Hm & _). exact Hm.
Qed.

(** The clusters that the function returns are well formed, at most 40 and
    at most one per response, and at least one if there is a response. *)
Lemma emitted_clusters_invariants (responses : list RawResponse) :
  Forall wellFormed (enhancedClusterResponsesWithFullExamples responses)
  /\ List.length (enhancedClusterResponsesWithFullExamples responses)
     <= Nat.min 40 (List.length responses)
  /\ (responses <> [] ->
      1 <= List.length (enhancedClusterResponsesWithFullExamples responses)).
Proof.
  unfold enhancedClusterResponsesWithFullExamples.
  destruct (List.length responses =? 0) eqn:Hempty.
  - apply Nat.eqb_eq in Hempty. split; [constructor |]. split; [simpl; lia |].
    destruct responses; [congruence | discriminate].
  - destruct (clusterSeeds_well_formed responses) as (Hwf1 & Hle1 & Hpos1).
    destruct (postProcess_well_formed _ Hwf1) as (Hwf2 & Hle2 & Hpos2).
    set (merged := postProcessClustersWithExamples (clusterSeeds responses)) in *.
    assert (Hsorted : List.length (sortDesc count merged) = List.length merged)
      by apply sortDesc_length.
    split; [| split].
    + apply Forall_forall. intros c Hc. apply firstn_In in Hc.
      apply (Permutation_in c (sortDesc_perm count merged)) in Hc.
      rewrite Forall_forall in Hwf2. now apply Hwf2.
    + rewrite length_firstn. lia.
    + intros Hne. rewrite length_firstn, Hsorted.
      assert (1 <= List.length merged).
      { apply Hpos2. intros Hnil. specialize (Hpos1 Hne). rewrite Hnil in Hpos1.
        simpl in Hpos1. lia. }
      lia.
Qed.

Lemma list_sum_firstn (n : nat) (l : list nat) : list_sum (firstn n l) <= list_sum l.
Proof.
  rewrite <- (firstn_skipn n l) at 2. rewrite list_sum_app. lia.
Qed.

(** The clusters that the function returns stand for distinct responses:
    their counts add up to at most the number of responses. *)
Lemma emitted_counts_bound (responses : list RawResponse) :
  list_sum (map count (enhancedClusterResponsesWithFullExamples responses))
  <= List.length responses.
Proof.
  destruct (passes_conserve_counts responses) as (-> & _ & Hsum & _).
  rewrite <- Hsum, <- firstn_map.
  etransitivity; [apply list_sum_firstn |].
  now rewrite (Permutation_map count (sortDesc_perm count _)).
Qed.

Lemma high_frequency_bound (clusters : list Cluster) :
  20 * List.length (filter (fun c => 20 <=? count c) clusters) <= list_sum (map count clusters).
Proof.
  induction clusters as [| c clusters IH]; cbn [filter map list_sum fold_right List.length];
    [lia |].
  change (fold_right Nat.add 0 (map count clusters)) with (list_sum (map count clusters)).
  destruct (20 <=? count c) eqn:Hc; cbn [List.length]; [apply Nat.leb_le in Hc |]; lia.
Qed.

(** Every cluster that [enhancedClusterResponsesWithFullExamples] returns
    stands for at least one response, holds between one example and
    [min count 8] examples, and has leader and department counts between 1
    and [count].  The number of clusters is at most 40 and at most the
    number of responses, and at least one response gives at least one
    cluster (so [aggregateResponses] never divides by zero clusters).  The
    counts of the clusters add up to at most the number of responses, so
    that 20 responses are needed for every cluster of 20 or more. *)
Theorem emitted_clusters_well_formed (responses : list RawResponse) :
  let emitted := enhancedClusterResponsesWithFullExamples responses in
  Forall wellFormed emitted
  /\ List.length emitted <= Nat.min 40 (List.length responses)
  /\ (responses <> [] -> 1 <= List.length emitted)
  /\ list_sum (map count emitted) <= List.length responses
  /\ 20 * List.length (filter (fun c => 20 <=? count c) emitted) <= List.length responses.
Proof.
  cbv zeta. destruct (emitted_clusters_invariants responses) as (Hwf & Hcap & Hpos).
  pose proof (emitted_counts_bound responses) as Hsum.
  pose proof (high_frequency_bound (enhancedClusterResponsesWithFullExamples responses)).
  repeat split; try assumption; lia.
Qed.

(** ** The two extremes of the clustering pass *)

Lemma sortDesc_constant {A : Type} (key : A -> nat) (k : nat) (l : list A) :
  (forall x, In x l -> key x = k) -> sortDesc key l = l.
Proof.
  induction l as [| x l IH]; intros Hk; simpl; [reflexivity |].
  rewrite IH by (intros y Hy; apply Hk; now right).
  destruct l as [| y l']; [reflexivity |]. simpl.
  rewrite (Hk x) by now left. rewrite (Hk y) by (right; now left).
  now rewrite Nat.ltb_irrefl.
Qed.

(** When no response reaches the threshold against a response before it
    (in descending order of text length), every response is a cluster of its
    own; when in addition no two of these clusters have theme labels that
    overlap by more than 0.6, the function returns the first 40 of them. *)
Theorem unrelated_responses_stay_apart (responses : list RawResponse) :
  ForallOrdPairs (fun r o => absorbs r o = false) (byTextLength responses) ->
  clusterSeeds responses = map singleton (byTextLength responses)
  /\ (ForallOrdPairs (fun c o => merges c o = false)
                     (map singleton (byTextLength responses)) ->
      enhancedClusterResponsesWithFullExamples responses
      = firstn 40 (map singleton (byTextLength responses))).
Proof.
  intros Hapart.
  assert (Hseeds : clusterSeeds responses = map singleton (byTextLength responses)).
  { rewrite clusterSeeds_greedy. unfold singleton.
    now rewrite (greedy_apart openCluster absorbs (fun _ c o => absorb c o) closeCluster). }
  split; [exact Hseeds |]. intros Hthemes.
  unfold enhancedClusterResponsesWithFullExamples.
  destruct (List.length responses =? 0) eqn:Hempty.
  - apply Nat.eqb_eq in Hempty. destruct responses; [reflexivity | discriminate].
  - rewrite Hseeds, postProcess_greedy.
    assert (Hmerged : (if List.length (map singleton (byTextLength responses)) <? 2
                       then map singleton (byTextLength responses)
                       else greedy (fun c => c) merges mergeInto (fun c => c)
                                   (map singleton (byTextLength responses)))
                      = map singleton (byTextLength responses)).
    { destruct (_ <? 2); [reflexivity |].
      rewrite greedy_apart by assumption. apply map_id. }
    rewrite Hmerged. f_equal. apply (sortDesc_constant count 1).
    intros c Hc. apply in_map_iff in Hc. destruct Hc as (r & <- & _). reflexivity.
Qed.

Lemma unrelated_responses_stay_apart_witness :
  enhancedClusterResponsesWithFullExamples [parkingOther; bandwidthSeed]
  = [singleton bandwidthSeed; singleton parkingOther].
Proof.
  assert (Hsorted : byTextLength [parkingOther; bandwidthSeed] = [bandwidthSeed; parkingOther])
    by (vm_compute; reflexivity).
  destruct (unrelated_responses_stay_apart [parkingOther; bandwidthSeed]) as [_ Hall].
  - rewrite Hsorted. constructor; [| constructor; [constructor | constructor]].
    constructor; [vm_compute; reflexivity | constructor].
  - rewrite Hall; rewrite Hsorted; [reflexivity |].
    constructor; [| constructor; [constructor | constructor]].
    constructor; [vm_compute; reflexivity | constructor].
Defined.

Lemma absorb_fold (rest : list RawResponse) :
  forall a : OpenCluster,
    List.length (o_examples a) <= 8 ->
    o_count (fold_left absorb rest a) = o_count a + List.length rest
    /\ o_theme (fold_left absorb rest a) = o_theme a
    /\ o_examples (fold_left absorb rest a)
       = firstn 8 (o_examples a ++ map fullOriginal rest).
Proof.
  induction rest as [| y rest IH]; intros a Hcap.
  - cbn [fold_left map List.length]. rewrite app_nil_r, firstn_all2 by assumption.
    repeat split. lia.
  - cbn [fold_left map List.length].
    destruct (List.length (o_examples a) <? 8) eqn:Hlt.
    + apply Nat.ltb_lt in Hlt.
      destruct (IH (absorb a y)) as (Hc & Ht & He).
      { unfold absorb. cbn [o_examples]. apply Nat.ltb_lt in Hlt. rewrite Hlt.
        apply Nat.ltb_lt in Hlt. rewrite length_app. simpl. lia. }
      rewrite Hc, Ht, He. unfold absorb at 1 2 3. cbn [o_count o_theme o_examples].
      apply Nat.ltb_lt in Hlt. rewrite Hlt. rewrite <- app_assoc. cbn [app].
      repeat split. lia.
    + apply Nat.ltb_ge in Hlt.
      assert (Hfull : List.length (o_examples a) = 8) by lia.
      destruct (IH (absorb a y)) as (Hc & Ht & He).
      { unfold absorb. cbn [o_examples]. apply Nat.ltb_ge in Hlt. rewrite Hlt. lia. }
      rewrite Hc, Ht, He. unfold absorb at 1 2 3. cbn [o_count o_theme o_examples].
      apply Nat.ltb_ge in Hlt. rewrite Hlt.
      rewrite !firstn_app, Hfull, Nat.sub_diag. cbn [firstn].
      repeat split. lia.
Qed.

(** When every other response reaches the threshold against the longest
    one, the function returns a single cluster: it counts all responses, is
    labelled with the theme of the longest response, and shows the first 8
    responses in descending order of text length. *)
Theorem similar_responses_collapse (responses : list RawResponse)
    (seed : RawResponse) (rest : list RawResponse) :
  byTextLength responses = seed :: rest ->
  (forall o, In o rest -> absorbs seed o = true) ->
  exists c,
    enhancedClusterResponsesWithFullExamples responses = [c]
    /\ count c = List.length responses
    /\ theme c = enhancedExtractTheme (text seed)
    /\ examples c = firstn 8 (map fullOriginal (seed :: rest)).
Proof.
  intros Hsorted Hall.
  assert (Hlen : List.length responses = S (List.length rest)).
  { unfold byTextLength in Hsorted.
    rewrite <- (sortDesc_length (fun r => String.length (text r)) responses), Hsorted.
    reflexivity. }
  assert (Hseeds : clusterSeeds responses
                   = [closeCluster (fold_left absorb rest (openCluster seed))]).
  { rewrite clusterSeeds_greedy, Hsorted.
    now rewrite (greedy_collapse openCluster absorbs (fun _ c o => absorb c o) closeCluster). }
  exists (closeCluster (fold_left absorb rest (openCluster seed))).
  destruct (absorb_fold rest (openCluster seed)) as (Hc & Ht & He); [simpl; lia |].
  split; [| split; [| split]].
  - unfold enhancedClusterResponsesWithFullExamples. rewrite Hlen, Hseeds. reflexivity.
  - unfold closeCluster. cbn [count]. rewrite Hc, Hlen. reflexivity.
  - unfold closeCluster. cbn [theme]. rewrite Ht. reflexivity.
  - unfold closeCluster. cbn [examples]. rewrite He. reflexivity.
Qed.

Lemma similar_responses_collapse_witness :
  exists c,
    enhancedClusterResponsesWithFullExamples [bandwidthOther; bandwidthSeed] = [c]
    /\ count c = 2
    /\ examples c = ["I need more bandwidth to do my job"; "not enough time and bandwidth"].
Proof.
  destruct (similar_responses_collapse [bandwidthOther; bandwidthSeed]
              bandwidthSeed [bandwidthOther]) as (c & Hc & Hcount & _ & Hex).
  - vm_compute. reflexivity.
  - intros o [<- | []]. vm_compute. reflexivity.
  - exists c. split; [exact Hc |]. split; [exact Hcount |]. rewrite Hex. reflexivity.
Defined.

(** ** When aggregateResponses throws, and what it returns otherwise *)

Lemma forEach_throws {St E : Type} (Inv : St -> Prop) (bad : E -> bool)
    (step : St -> E -> result St) (xs : list E) :
  (forall s e s', Inv s -> step s e = Ok s' -> Inv s') ->
  (forall s e, In e xs -> Inv s -> (step s e = TypeError <-> bad e = true)) ->
  forall s, Inv s -> (forEach step xs s = TypeError <-> existsb bad xs = true).
Proof.
  intros Hkeep. induction xs as [| x xs IH]; intros Hbad s Hs.
  - simpl. split; discriminate.
  - cbn [forEach existsb]. specialize (Hbad s x (or_introl eq_refl) Hs) as Hx.
    destruct (step s x) as [s1 |] eqn:Hstep; cbn [bind].
    + destruct (bad x); [destruct Hx as [_ Hx]; discriminate Hx; reflexivity |].
      cbn [orb]. apply IH; [| eapply Hkeep; eassumption].
      intros s0 e He. apply Hbad. now right.
    + destruct Hx as [Hx _]. rewrite Hx by reflexivity. split; reflexivity.
Qed.

Lemma textSteps_throw (leaderName : option string) (department : string)
    (textResponses : list string) (categoryData : CategoryData) :
  forEach (textStep leaderName department) textResponses categoryData = TypeError
  <-> leaderThemeStep leaderName = TypeError
      /\ existsb (fun textResponse => isValidTextResponse (VStr textResponse)) textResponses
         = true.
Proof.
  revert categoryData. induction textResponses as [| t rest IH]; intros categoryData.
  - simpl. split; [discriminate | intros [_ H]; discriminate].
  - cbn [forEach existsb]. unfold textStep at 1.
    destruct (isValidTextResponse (VStr t)); cbn [orb].
    + destruct (leaderThemeStep leaderName) as [[] |] eqn:Hleader; cbn [bind].
      * rewrite IH. split; intros [H _]; discriminate H.
      * split; [intros _; split; reflexivity | reflexivity].
    + cbn [bind]. apply IH.
Qed.

Lemma assocUpdate_throws {V : Type} (key : string) (f : V -> result V) (P : Prop)
    (d : list (string * V)) :
  (forall v, f v = TypeError <-> P) ->
  In key (map fst d) ->
  (assocUpdate d key f = TypeError <-> P).
Proof.
  intros Hf. induction d as [| [k x] d IH]; intros Hin; [contradiction |].
  cbn [assocUpdate]. destruct (String.eqb k key) eqn:Hk.
  - specialize (Hf x). destruct (f x); cbn [bind]; [| tauto].
    split; [discriminate | intros HP; apply Hf in HP; discriminate].
  - destruct Hin as [Heq | Hin];
      [simpl in Heq; subst; rewrite String.eqb_refl in Hk; discriminate |].
    specialize (IH Hin). destruct (assocUpdate d key f); cbn [bind]; [| exact IH].
    split; [discriminate | intros HP; apply IH in HP; discriminate].
Qed.

Lemma assocUpdate_map {V W : Type} (g : V -> W) (key : string) (f : V -> result V) :
  (forall v v', f v = Ok v' -> g v' = g v) ->
  forall d d', assocUpdate d key f = Ok d' ->
               map (fun entry => (fst entry, g (snd entry))) d'
               = map (fun entry => (fst entry, g (snd entry))) d.
Proof.
  intros Hf. induction d as [| [k x] d IH]; intros d' Hrun; simpl in Hrun.
  - inversion Hrun; reflexivity.
  - destruct (String.eqb k key).
    + destruct (f x) as [x' |] eqn:Hfx; simpl in Hrun; [| discriminate].
      inversion Hrun; subst. simpl. now rewrite (Hf _ _ Hfx).
    + destruct (assocUpdate d key f) as [rest' |] eqn:Hr; simpl in Hrun; [| discriminate].
      inversion Hrun; subst. simpl. now rewrite (IH _ eq_refl).
Qed.

Lemma textStep_columnRef (leaderName : option string) (department : string)
    (categoryData categoryData' : CategoryData) (textResponse : string) :
  textStep leaderName department categoryData textResponse = Ok categoryData' ->
  d_columnRef categoryData' = d_columnRef categoryData.
Proof.
  unfold textStep. destruct (isValidTextResponse (VStr textResponse)).
  - destruct (leaderThemeStep leaderName); cbn [bind]; [| discriminate].
    intros H. inversion H; reflexivity.
  - intros H. inversion H; reflexivity.
Qed.

Lemma textStep_validCount (leaderName : option string) (department : string)
    (categoryData categoryData' : CategoryData) (textResponse : string) :
  d_validCount categoryData <= d_originalCount categoryData ->
  textStep leaderName department categoryData textResponse = Ok categoryData' ->
  d_validCount categoryData' <= d_originalCount categoryData'.
Proof.
  intros Hle. unfold textStep. destruct (isValidTextResponse (VStr textResponse)).
  - destruct (leaderThemeStep leaderName); cbn [bind]; [| discriminate].
    intros H. inversion H; subst. cbn [d_validCount d_originalCount]. lia.
  - intros H. inversion H; subst. cbn [d_validCount d_originalCount]. lia.
Qed.

Lemma forEach_preserves {St E W : Type} (g : St -> W) (step : St -> E -> result St)
    (xs : list E) :
  (forall s e s', step s e = Ok s' -> g s' = g s) ->
  forall s s', forEach step xs s = Ok s' -> g s' = g s.
Proof.
  intros Hstep s s'.
  apply (forEach_invariant (fun s0 => g s0 = g s)); [| reflexivity].
  intros s0 e s1 Hs0 Hrun. now rewrite (Hstep _ _ _ Hrun).
Qed.

Lemma mappingStep_columns (response : ResponseObject) (leaderName : option string)
    (department : string) (d d' : list (string * CategoryData)) (mapping : QuestionMapping) :
  mappingStep response leaderName department d mapping = Ok d' ->
  columnsOf d' = columnsOf d.
Proof.
  unfold mappingStep, columnsOf. apply assocUpdate_map.
  intros v v'. apply forEach_preserves. intros s e s'. apply textStep_columnRef.
Qed.

Lemma mappingStep_validCount (response : ResponseObject) (leaderName : option string)
    (department : string) (d d' : list (string * CategoryData)) (mapping : QuestionMapping) :
  Forall (fun entry => d_validCount (snd entry) <= d_originalCount (snd entry)) d ->
  mappingStep response leaderName department d mapping = Ok d' ->
  Forall (fun entry => d_validCount (snd entry) <= d_originalCount (snd entry)) d'.
Proof.
  intros Hd. unfold mappingStep.
  apply (assocUpdate_Forall (fun c => d_validCount c <= d_originalCount c)); [| exact Hd].
  intros v v'. apply (forEach_invariant (fun c => d_validCount c <= d_originalCount c)).
  intros s e s'. apply textStep_validCount.
Qed.

Lemma responseStep_inv (st st' : Collected) (record : SurveyRecord) :
  responseStep st record = Ok st' ->
  columnsOf (c_byCategory st') = columnsOf (c_byCategory st)
  /\ (Forall (fun entry => d_validCount (snd entry) <= d_originalCount (snd entry))
             (c_byCategory st) ->
      Forall (fun entry => d_validCount (snd entry) <= d_originalCount (snd entry))
             (c_byCategory st'))
  /\ List.length (c_uniqueLeaders st) <= List.length (c_uniqueLeaders st')
     <= S (List.length (c_uniqueLeaders st))
  /\ List.length (c_uniqueDepartments st) <= List.length (c_uniqueDepartments st')
     <= S (List.length (c_uniqueDepartments st))
  /\ 1 <= List.length (c_uniqueDepartments st').
Proof.
  unfold responseStep.
  destruct (asObject record) as [response |]; cbn [bind]; [| discriminate].
  match goal with |- context [forEach ?stp questionMappings ?s0] =>
    destruct (forEach stp questionMappings s0) as [byCat |] eqn:Hrun end;
    cbn [bind]; [| discriminate].
  intros H. inversion H; subst; clear H.
  cbn [c_byCategory c_uniqueLeaders c_uniqueDepartments].
  split; [| split; [| split; [| split]]].
  - revert Hrun. apply forEach_preserves. intros s e s'. apply mappingStep_columns.
  - intros Hst. revert Hrun. apply forEach_invariant; [| exact Hst].
    intros s e s' Hs. now apply mappingStep_validCount.
  - destruct (extractLeaderName (_steamLeader response)) as [name |]; [| lia].
    destruct (truthy name); [apply setAdd_length | lia].
  - match goal with |- context [if truthy ?d then _ else _] => destruct (truthy d) end;
      [apply setAdd_length | lia].
  - assert (Hdep : truthy (if truthyOpt (_department response)
                           then match _department response with
                                | Some d => d
                                | None => "Unknown"
                                end
                           else "Unknown") = true).
    { destruct (_department response) as [d |]; cbn [truthyOpt]; [| reflexivity].
      destruct (truthy d) eqn:Hd; [exact Hd | reflexivity]. }
    rewrite Hdep. unfold setAdd.
    match goal with |- context [includes ?s ?d] => destruct (includes s d) eqn:Hin end.
    + apply includes_In in Hin. destruct (c_uniqueDepartments st); [contradiction | simpl; lia].
    + rewrite length_app. simpl. lia.
Qed.

Lemma leaderThemeStep_throws (leaderName : option string) :
  leaderThemeStep leaderName = TypeError
  <-> match leaderName with
      | Some name => includes objectPrototypeKeys name
      | None => false
      end = true.
Proof.
  destruct leaderName as [name |]; cbn [leaderThemeStep]; [| split; discriminate].
  destruct (includes objectPrototypeKeys name) eqn:Hin.
  - apply includes_In in Hin.
    assert (Ht : truthy name = true).
    { simpl in Hin. repeat (destruct Hin as [<- | Hin]; [reflexivity |]). contradiction. }
    rewrite Ht. split; reflexivity.
  - rewrite andb_false_r. split; discriminate.
Qed.

Lemma existsb_andb_l {A : Type} (b : bool) (f : A -> bool) (l : list A) :
  existsb (fun x => b && f x) l = b && existsb f l.
Proof.
  induction l as [| x l IH]; simpl; [now rewrite andb_false_r |].
  rewrite IH. destruct b; reflexivity.
Qed.

Lemma responseStep_throws (st : Collected) (record : SurveyRecord) :
  columnsOf (c_byCategory st) = categoryColumns ->
  (responseStep st record = TypeError <-> fatalRecord record = true).
Proof.
  intros Hcols. destruct record as [| | | response].
  - split; reflexivity.
  - split; reflexivity.
  - destruct (responseStep_primitive st) as (st' & -> & _). split; discriminate.
  - unfold responseStep, fatalRecord, hasValidText. cbn [asObject bind].
    set (leaderName := extractLeaderName (_steamLeader response)).
    match goal with |- context [forEach ?stp questionMappings ?s0] =>
      assert (Hiff : forEach stp questionMappings s0 = TypeError
                     <-> existsb
                           (fun mapping =>
                              match leaderName with
                              | Some name => includes objectPrototypeKeys name
                              | None => false
                              end
                              && existsb (fun textResponse =>
                                            isValidTextResponse (VStr textResponse))
                                         (extractTextFromResponse response mapping))
                           questionMappings = true);
      [| destruct (forEach stp questionMappings s0) as [byCat |] ]
    end.
    + apply (forEach_throws (fun d => columnsOf d = categoryColumns)); [| | exact Hcols].
      * intros s e s' Hs Hstep. now rewrite (mappingStep_columns _ _ _ _ _ _ Hstep).
      * intros s mapping Hin Hs. unfold mappingStep.
        rewrite assocUpdate_throws
          with (P := leaderThemeStep leaderName = TypeError
                     /\ existsb (fun textResponse => isValidTextResponse (VStr textResponse))
                                (extractTextFromResponse response mapping) = true).
        -- rewrite leaderThemeStep_throws, andb_true_iff. reflexivity.
        -- intros v. apply textSteps_throw.
        -- assert (Hkeys : map fst s = map category questionMappings).
           { transitivity (map fst (columnsOf s)).
             - unfold columnsOf. rewrite map_map. reflexivity.
             - rewrite Hs. reflexivity. }
           rewrite Hkeys. now apply in_map.
    + rewrite existsb_andb_l in Hiff. cbn [bind]. split; [discriminate |].
      intros Hfatal. destruct leaderName; [| discriminate Hfatal].
      apply Hiff in Hfatal. discriminate Hfatal.
    + rewrite existsb_andb_l in Hiff. cbn [bind]. split; [| reflexivity].
      intros _. destruct leaderName; apply Hiff; reflexivity.
Qed.

(** [aggregateResponses] throws on exactly the arrays that hold a [null]
    or [undefined] record, or a record with a valid text in some category
    whose steam leader is extracted as a name that every object inherits
    ([constructor], [toString], [__proto__], ...): for such a leader no
    entry is created and the update of his themes fails.  On every other
    array it returns. *)
Theorem aggregate_throws (cleanedData : list SurveyRecord) :
  aggregateResponses cleanedData = TypeError <-> existsb fatalRecord cleanedData = true.
Proof.
  unfold aggregateResponses.
  rewrite <- (forEach_throws (fun st => columnsOf (c_byCategory st) = categoryColumns)
                fatalRecord responseStep cleanedData)
    with (s := mkCollected initialCategories [] []).
  - destruct (forEach responseStep cleanedData _); cbn [bind]; split;
      try discriminate; reflexivity.
  - intros s e s' Hs Hstep. apply responseStep_inv in Hstep as (Hcols & _). congruence.
  - intros s e _ Hs. now apply responseStep_throws.
  - reflexivity.
Qed.

(** A steam leader entered as "constructor" stops the whole run, behind
    any number of good records. *)
Example inherited_leader_name_is_fatal :
  fatalRecord inheritedNameRecord = true
  /\ aggregateResponses [sampleRecord; inheritedNameRecord] = TypeError.
Proof.
  split; vm_compute; reflexivity.
Qed.

Lemma forEach_growth {St E : Type} (m : St -> nat) (step : St -> E -> result St)
    (xs : list E) :
  (forall s e s', step s e = Ok s' -> m s <= m s' <= S (m s)) ->
  forall s s', forEach step xs s = Ok s' -> m s <= m s' <= m s + List.length xs.
Proof.
  intros Hstep. induction xs as [| x xs IH]; intros s s' Hrun; simpl in Hrun.
  - inversion Hrun; subst. simpl. lia.
  - destruct (step s x) as [s1 |] eqn:Hx; simpl in Hrun; [| discriminate].
    apply Hstep in Hx. apply IH in Hrun. simpl. lia.
Qed.

Lemma clusterCategory_stats (categoryData : CategoryData) :
  countsItsResponses categoryData ->
  d_validCount categoryData <= d_originalCount categoryData ->
  statsDescribe (clusterCategory categoryData).
Proof.
  intros (Htotal & Hvalid & _) Hle. unfold statsDescribe, clusterCategory.
  destruct (0 <? List.length (d_rawResponses categoryData)) eqn:Hany;
    cbn [processingStats validCount originalCount clusteredCount totalResponses clusters].
  - destruct (emitted_clusters_invariants (d_rawResponses categoryData))
      as (Hwf & Hcap & Hpos).
    repeat split; try lia; try assumption.
    intros _. apply Hpos. apply Nat.ltb_lt in Hany.
    destruct (d_rawResponses categoryData); [simpl in Hany; lia | discriminate].
  - apply Nat.ltb_ge in Hany. repeat split; try lia. constructor.
Qed.

(** What [aggregateResponses] returns when it returns: the six categories
    in the configured order with their column letters; [totalResponses] is
    the number of records; the numbers of distinct leaders and departments
    are at most that, and there is at least one department when there is a
    record; and in every category [validCount <= originalCount],
    [totalResponses = validCount], [clusteredCount] is the number of
    clusters, at most 40 and at most [validCount], and at least 1 when a
    response was valid, and every cluster is well formed. *)
Theorem aggregate_shape (cleanedData : list SurveyRecord) (aggregated : Aggregated) :
  aggregateResponses cleanedData = Ok aggregated ->
  map (fun entry => (fst entry, columnRef (snd entry))) (byCategory aggregated)
  = categoryColumns
  /\ a_totalResponses aggregated = List.length cleanedData
  /\ uniqueLeaderCount aggregated <= List.length cleanedData
  /\ uniqueDepartmentCount aggregated <= List.length cleanedData
  /\ (cleanedData <> [] -> 1 <= uniqueDepartmentCount aggregated)
  /\ Forall (fun entry => statsDescribe (snd entry)) (byCategory aggregated).
Proof.
  unfold aggregateResponses. intros Hrun.
  destruct (forEach responseStep cleanedData (mkCollected initialCategories [] []))
    as [collected |] eqn:Hcollect; cbn [bind] in Hrun; [| discriminate].
  inversion Hrun; subst; clear Hrun.
  cbn [byCategory a_totalResponses uniqueLeaderCount uniqueDepartmentCount].
  split; [| split; [reflexivity | split; [| split; [| split]]]].
  - rewrite map_map.
    transitivity (columnsOf (c_byCategory collected)).
    + unfold columnsOf. apply map_ext. intros [name categoryData]. cbn [fst snd].
      unfold clusterCategory. now destruct (0 <? _).
    + apply (forEach_preserves (fun st => columnsOf (c_byCategory st))) in Hcollect.
      * rewrite Hcollect. reflexivity.
      * intros s e s' Hstep. now apply responseStep_inv in Hstep.
  - apply (forEach_growth (fun st => List.length (c_uniqueLeaders st))) in Hcollect.
    + cbn [c_uniqueLeaders List.length] in Hcollect. lia.
    + intros s e s' Hstep. now apply responseStep_inv in Hstep.
  - apply (forEach_growth (fun st => List.length (c_uniqueDepartments st))) in Hcollect.
    + cbn [c_uniqueDepartments List.length] in Hcollect. lia.
    + intros s e s' Hstep. now apply responseStep_inv in Hstep.
  - intros Hne. destruct cleanedData as [| record rest]; [congruence |].
    cbn [forEach] in Hcollect.
    destruct (responseStep _ record) as [st1 |] eqn:Hfirst; cbn [bind] in Hcollect;
      [| discriminate].
    apply responseStep_inv in Hfirst as (_ & _ & _ & _ & Hone).
    apply (forEach_growth (fun st => List.length (c_uniqueDepartments st))) in Hcollect.
    + lia.
    + intros s e s' Hstep. now apply responseStep_inv in Hstep.
  - pose proof (collected_counts _ _ Hcollect) as Hcounts.
    assert (Hvalid : Forall (fun entry => d_validCount (snd entry) <= d_originalCount (snd entry))
                            (c_byCategory collected)).
    { revert Hcollect.
      apply (forEach_invariant
               (fun st => Forall (fun entry => d_validCount (snd entry)
                                               <= d_originalCount (snd entry))
                                 (c_byCategory st))).
      - intros s e s' Hs Hstep. apply responseStep_inv in Hstep. now apply Hstep.
      - repeat constructor. }
    rewrite Forall_forall in *. intros [name c] Hin.
    apply in_map_iff in Hin. destruct Hin as ([name' categoryData] & Heq & Hin).
    inversion Heq; subst; clear Heq. cbn [snd].
    apply clusterCategory_stats; [apply (Hcounts _ Hin) | apply (Hvalid _ Hin)].
Qed.

Lemma aggregate_shape_witness :
  exists aggregated,
    aggregateResponses [sampleRecord] = Ok aggregated
    /\ uniqueDepartmentCount aggregated = 1
    /\ Forall (fun entry => statsDescribe (snd entry)) (byCategory aggregated).
Proof.
  destruct (aggregateResponses [sampleRecord]) as [aggregated |] eqn:Hrun;
    [| vm_compute in Hrun; discriminate].
  exists aggregated. split; [reflexivity |].
  destruct (aggregate_shape [sampleRecord] aggregated Hrun)
    as (_ & _ & _ & Hle & Hpos & Hstats).
  split; [| exact Hstats].
  specialize (Hpos ltac:(discriminate)). simpl in Hle. lia.
Defined.

(** ** Symmetry of the similarity measures *)

Lemma intersectionOverUnion_sym (A B : list string) :
  intersectionOverUnion A B = intersectionOverUnion B A.
Proof.
  unfold intersectionOverUnion, distinctCount. f_equal; f_equal.
  - apply NoDup_same_length; try apply NoDup_nodup.
    intros x. rewrite !nodup_In, !inBoth_In. tauto.
  - apply NoDup_same_length; try apply NoDup_nodup.
    intros x. rewrite !nodup_In, !in_app_iff. tauto.
Qed.

(** The word overlap of two texts, the overlap of two token lists and the
    merge test of two clusters do not depend on the order of their
    arguments.  The theme similarity does, because it counts the words of
    the first label only, and with it the absorption test: a response can
    pass the threshold against a seed that would not pass it the other way
    round. *)
Theorem similarity_symmetry :
  (forall text1 text2,
     calculateJaccardSimilarity text1 text2 = calculateJaccardSimilarity text2 text1)
  /\ (forall tokens1 tokens2,
        calculateSemanticSimilarity tokens1 tokens2
        = calculateSemanticSimilarity tokens2 tokens1)
  /\ (forall cluster otherCluster, merges cluster otherCluster = merges otherCluster cluster)
  /\ calculateThemeSimilarity (text repeatedWord) (text garageFloods)
     <> calculateThemeSimilarity (text garageFloods) (text repeatedWord)
  /\ absorbs repeatedWord garageFloods = true
  /\ absorbs garageFloods repeatedWord = false.
Proof.
  split; [| split; [| split; [| split; [| split]]]].
  - intros text1 text2. rewrite !jaccard_spec. apply intersectionOverUnion_sym.
  - intros tokens1 tokens2. rewrite !semantic_spec.
    destruct tokens1, tokens2; try reflexivity. apply intersectionOverUnion_sym.
  - intros cluster otherCluster. unfold merges. rewrite !themeJaccard_spec.
    now rewrite intersectionOverUnion_sym.
  - intros Heq. apply (f_equal (fun x => PrimFloat.ltb x 0.75)) in Heq.
    vm_compute in Heq. discriminate Heq.
  - vm_compute. reflexivity.
  - vm_compute. reflexivity.
Qed.

(** ** aggregateResponses as a function of its input *)

Lemma extractLeaderName_truthy (rawLeaderName : option string) (name : string) :
  extractLeaderName rawLeaderName = Some name -> truthy name = true.
Proof.
  unfold extractLeaderName. destruct rawLeaderName as [raw |]; [| discriminate].
  destruct (isEmpty raw || String.eqb raw "null" || String.eqb raw "undefined");
    [discriminate |].
  set (name0 := trim (hd EmptyString (splitOn "(" raw))).
  destruct (filter (fun p => 0 <? String.length p) (splitOn " " name0))
    as [| p0 [| p1 rest]] eqn:Hparts; [discriminate | |].
  - intros H. inversion H; subst.
    assert (Hin : In name (filter (fun p => 0 <? String.length p) (splitOn " " name0)))
      by (rewrite Hparts; now left).
    apply filter_In in Hin. destruct Hin as [_ Hlen].
    destruct name; [discriminate Hlen | reflexivity].
  - intros H. inversion H; subst.
    assert (Hin : In p0 (filter (fun p => 0 <? String.length p) (splitOn " " name0)))
      by (rewrite Hparts; now left).
    apply filter_In in Hin. destruct Hin as [_ Hlen].
    destruct p0; [discriminate Hlen | reflexivity].
Qed.

Lemma textSteps_ok (leaderName : option string) (department : string)
    (textResponses : list string) :
  forall categoryData categoryData',
    forEach (textStep leaderName department) textResponses categoryData = Ok categoryData' ->
    let valid := filter (fun textResponse => isValidTextResponse (VStr textResponse))
                        textResponses in
    categoryData'
    = mkCategoryData
        (d_totalResponses categoryData + List.length valid)
        (d_rawResponses categoryData
         ++ map (fun textResponse =>
                   let cleanText := enhancedCleanTextResponse textResponse in
                   mkRaw cleanText (normalizeForClustering cleanText) leaderName department
                         textResponse (extractSemanticTokens cleanText))
                valid)%list
        (d_columnRef categoryData)
        (d_originalCount categoryData + List.length textResponses)
        (d_validCount categoryData + List.length valid).
Proof.
  induction textResponses as [| t rest IH]; intros categoryData categoryData' Hrun.
  - cbn [forEach] in Hrun. inversion Hrun; subst. destruct categoryData'. cbn.
    now rewrite !Nat.add_0_r, app_nil_r.
  - cbn [forEach] in Hrun.
    destruct (textStep leaderName department categoryData t) as [c1 |] eqn:Hstep;
      cbn [bind] in Hrun; [| discriminate].
    apply IH in Hrun. rewrite Hrun. clear Hrun IH.
    unfold textStep in Hstep. cbn [filter].
    destruct (isValidTextResponse (VStr t)).
    + destruct (leaderThemeStep leaderName); cbn [bind] in Hstep; [| discriminate].
      inversion Hstep; subst; clear Hstep.
      cbn [d_totalResponses d_rawResponses d_columnRef d_originalCount d_validCount
           map List.length].
      rewrite <- app_assoc. cbn [app]. f_equal; lia.
    + inversion Hstep; subst; clear Hstep.
      cbn [d_totalResponses d_rawResponses d_columnRef d_originalCount d_validCount
           List.length].
      f_equal; lia.
Qed.

Lemma assocUpdate_behind {V : Type} (key : string) (f : V -> result V) (x : V)
    (pre rest : list (string * V)) :
  ~ In key (map fst pre) ->
  assocUpdate (pre ++ (key, x) :: rest) key f
  = (x' <- f x ;; Ok (pre ++ (key, x') :: rest)%list).
Proof.
  induction pre as [| [k v] pre IH]; intros Hfresh.
  - cbn [app assocUpdate]. now rewrite String.eqb_refl.
  - cbn [app assocUpdate]. destruct (String.eqb k key) eqn:Hk.
    + apply String.eqb_eq in Hk. subst. exfalso. apply Hfresh. now left.
    + rewrite IH by (intros Hin; apply Hfresh; now right).
      destruct (f x); reflexivity.
Qed.

Lemma mappingSteps_pointwise (response : ResponseObject) (leaderName : option string)
    (department : string) (G G' : QuestionMapping -> CategoryData) :
  (forall mapping categoryData',
     forEach (textStep leaderName department) (extractTextFromResponse response mapping)
             (G mapping) = Ok categoryData' ->
     categoryData' = G' mapping) ->
  forall mappings, NoDup (map category mappings) ->
  forall pre d',
    (forall mapping, In mapping mappings -> ~ In (category mapping) (map fst pre)) ->
    forEach (mappingStep response leaderName department) mappings
            (pre ++ map (fun mapping => (category mapping, G mapping)) mappings)%list = Ok d' ->
    d' = (pre ++ map (fun mapping => (category mapping, G' mapping)) mappings)%list.
Proof.
  intros Hpoint. induction mappings as [| mapping rest IH]; intros Hnodup pre d' Hfresh Hrun.
  - cbn [forEach map] in *. now inversion Hrun.
  - cbn [forEach map] in Hrun. unfold mappingStep at 1 in Hrun.
    rewrite assocUpdate_behind in Hrun by (apply Hfresh; now left).
    destruct (forEach (textStep leaderName department) _ (G mapping)) as [x' |] eqn:Htexts;
      cbn [bind] in Hrun; [| discriminate].
    apply Hpoint in Htexts. subst x'.
    inversion Hnodup as [| ? ? Hnotin Hnodup']; subst.
    change (pre ++ (category mapping, G' mapping)
                :: map (fun mapping0 => (category mapping0, G mapping0)) rest)%list
      with (pre ++ [(category mapping, G' mapping)]
                ++ map (fun mapping0 => (category mapping0, G mapping0)) rest)%list in Hrun.
    rewrite app_assoc in Hrun. apply IH in Hrun; [| assumption |].
    + rewrite Hrun, <- app_assoc. reflexivity.
    + intros m Hm. rewrite map_app, in_app_iff. cbn [map fst In].
      intros [Hin | [Heq | []]].
      * apply (Hfresh m); [now right | assumption].
      * apply Hnotin. rewrite Heq. now apply in_map.
Qed.

Lemma categories_distinct : NoDup (map category questionMappings).
Proof.
  change (map category questionMappings) with categoryNames.
  unfold categoryNames.
  repeat (constructor; [cbn [In]; intuition discriminate |]). constructor.
Qed.

Lemma responseStep_collected (before : list SurveyRecord) (record : SurveyRecord)
    (st : Collected) :
  responseStep (collectedAfter before) record = Ok st ->
  st = collectedAfter (before ++ [record]).
Proof.
  unfold responseStep.
  destruct (asObject record) as [response |] eqn:Hobj; cbn [bind]; [| discriminate].
  assert (Hresponse : response = objectOf record).
  { destruct record; cbn in Hobj; try discriminate; now inversion Hobj. }
  clear Hobj. set (leaderName := extractLeaderName (_steamLeader response)).
  assert (Hdep : (if truthyOpt (_department response)
                  then match _department response with
                       | Some d => d
                       | None => "Unknown"
                       end
                  else "Unknown") = departmentOf response).
  { unfold departmentOf. destruct (_department response) as [d |]; reflexivity. }
  rewrite Hdep.
  assert (Htruthy : truthy (departmentOf response) = true).
  { unfold departmentOf. destruct (_department response) as [d |]; [| reflexivity].
    destruct (truthy d) eqn:Hd; [exact Hd | reflexivity]. }
  rewrite Htruthy.
  destruct (forEach (mappingStep response leaderName (departmentOf response))
                    questionMappings (c_byCategory (collectedAfter before)))
    as [byCat |] eqn:Hrun; cbn [bind]; [| discriminate].
  intros H. inversion H; subst st; clear H.
  unfold collectedAfter at 1. f_equal.
  - cbn [collectedAfter c_byCategory] in Hrun.
    apply (mappingSteps_pointwise response leaderName (departmentOf response)
             (fun mapping => collectedCategory mapping before)
             (fun mapping => collectedCategory mapping (before ++ [record]))
             ) with (pre := []) in Hrun.
    + exact Hrun.
    + intros mapping categoryData' Htexts. apply textSteps_ok in Htexts.
      rewrite Htexts. unfold collectedCategory, responsesOf, textsOf.
      rewrite !flat_map_app. cbn [flat_map]. rewrite !app_nil_r, !length_app, length_map.
      cbn [d_totalResponses d_rawResponses d_columnRef d_originalCount d_validCount].
      rewrite <- Hresponse. reflexivity.
    + apply categories_distinct.
    + intros mapping _ [].
  - cbn [collectedAfter c_uniqueLeaders]. unfold leaderNames. rewrite flat_map_app.
    cbn [flat_map]. rewrite app_nil_r, <- Hresponse. fold leaderName.
    unfold setOf. rewrite fold_left_app.
    destruct leaderName as [name |] eqn:Hname; [| reflexivity].
    rewrite (extractLeaderName_truthy _ _ Hname). reflexivity.
  - cbn [collectedAfter c_uniqueDepartments]. unfold departments. rewrite map_app.
    cbn [map]. unfold setOf. rewrite fold_left_app, <- Hresponse. reflexivity.
Qed.

Lemma forEach_collected (rest : list SurveyRecord) :
  forall before st,
    forEach responseStep rest (collectedAfter before) = Ok st ->
    st = collectedAfter (before ++ rest).
Proof.
  induction rest as [| record rest IH]; intros before st Hrun.
  - cbn [forEach] in Hrun. rewrite app_nil_r. now inversion Hrun.
  - cbn [forEach] in Hrun.
    destruct (responseStep (collectedAfter before) record) as [st1 |] eqn:Hstep;
      cbn [bind] in Hrun; [| discriminate].
    apply responseStep_collected in Hstep. subst st1.
    apply IH in Hrun. rewrite Hrun, <- app_assoc. reflexivity.
Qed.

(** When [aggregateResponses] returns, the returned object is determined
    as follows.  The responses of a category are the valid texts of the
    columns whose header matches a pattern of the category, record by record
    and within a record in column order, each stored with the extracted
    leader name and the department of its record; [totalResponses] and
    [validCount] are their number, [originalCount] is the number of texts
    before the validity filter, and the clusters are those of these
    responses.  The leader and department counts are the numbers of distinct
    extracted leader names and of distinct departments, where a record
    without department counts under "Unknown". *)
Theorem aggregate_functional (cleanedData : list SurveyRecord) (aggregated : Aggregated) :
  aggregateResponses cleanedData = Ok aggregated ->
  aggregated = aggregateOf cleanedData.
Proof.
  unfold aggregateResponses. intros Hrun.
  destruct (forEach responseStep cleanedData (mkCollected initialCategories [] []))
    as [collected |] eqn:Hcollect; cbn [bind] in Hrun; [| discriminate].
  inversion Hrun; subst; clear Hrun.
  change (mkCollected initialCategories [] []) with (collectedAfter []) in Hcollect.
  apply forEach_collected in Hcollect. cbn [app] in Hcollect. subst collected.
  unfold aggregateOf, collectedAfter. cbn [c_byCategory c_uniqueLeaders c_uniqueDepartments].
  rewrite map_map, !setOf_size. reflexivity.
Qed.

Lemma aggregate_functional_witness :
  exists aggregated,
    aggregateResponses [sampleRecord] = Ok aggregated
    /\ aggregated = aggregateOf [sampleRecord].
Proof.
  destruct (aggregateResponses [sampleRecord]) as [aggregated |] eqn:Hrun;
    [| vm_compute in Hrun; discriminate].
  exists aggregated. split; [reflexivity |].
  exact (aggregate_functional [sampleRecord] aggregated Hrun).
Defined.

(** ** extractSemanticTokens *)

Lemma categories_pushed (words : list string) (cats : list (string * list string)) :
  forall acc,
    fold_left (fun tokens '(category, keywords) =>
                 if existsb (fun keyword => includes words keyword) keywords
                 then (tokens ++ [category])%list else tokens)
              cats acc
    = (acc ++ map fst (filter (fun entry => existsb (fun keyword => includes words keyword)
                                                    (snd entry))
                              cats))%list.
Proof.
  induction cats as [| [category keywords] cats IH]; intros acc; cbn [fold_left filter snd].
  - now rewrite app_nil_r.
  - rewrite IH. destruct (existsb _ keywords); [| reflexivity].
    cbn [map fst]. now rewrite <- app_assoc.
Qed.

Lemma keyword_present (words keywords : list string) :
  existsb (fun keyword => includes words keyword) keywords = true
  <-> exists keyword, In keyword keywords /\ In keyword words.
Proof.
  rewrite existsb_exists. split; intros (k & Hk & Hw); exists k; split; try assumption;
    now apply includes_In.
Qed.

Lemma long_category_is_keyword (category : string) (keywords : list string) :
  In (category, keywords) semanticCategories ->
  5 < String.length category ->
  In category keywords.
Proof.
  intros Hin Hlen. cbn [semanticCategories In] in Hin.
  repeat (destruct Hin as [Heq | Hin];
          [inversion Heq; subst; clear Heq;
           first [cbn in Hlen; lia | cbn [In]; tauto] |]).
  contradiction.
Qed.

(** The semantic tokens of a text are distinct and at most 13.  The name
    of every category with a keyword among the words of the text is a token,
    and every token is such a name or one of the important words of the
    text; the name of a category is a token only if the category is
    present. *)
Theorem semantic_tokens (text : string) :
  let tokens := extractSemanticTokens text in
  NoDup tokens
  /\ List.length tokens <= 13
  /\ (forall t, In t tokens -> categoryPresent text t \/ importantWord text t)
  /\ (forall category keywords,
        In (category, keywords) semanticCategories ->
        (In category tokens <-> categoryPresent text category)).
Proof.
  cbv zeta. unfold extractSemanticTokens. rewrite categories_pushed. cbn [app].
  fold (wordsOf text).
  set (hits := filter (fun entry => existsb (fun keyword => includes (wordsOf text) keyword)
                                            (snd entry)) semanticCategories).
  set (importantWords :=
         filter (fun w => (5 <? String.length w)
                          && negb (includes ["better"; "would"; "could"; "should";
                                             "really"; "think"] w))
                (wordsOf text)).
  assert (Hhit : forall t, In t (map fst hits) <-> categoryPresent text t).
  { intros t. unfold categoryPresent. rewrite in_map_iff. split.
    - intros ([category keywords] & Heq & Hin). cbn [fst] in Heq. subst category.
      apply filter_In in Hin. destruct Hin as [Hcat Hpresent]. cbn [snd] in Hpresent.
      apply keyword_present in Hpresent. destruct Hpresent as (k & Hk & Hw).
      exists keywords, k. auto.
    - intros (keywords & k & Hcat & Hk & Hw). exists (t, keywords). split; [reflexivity |].
      apply filter_In. split; [assumption |]. cbn [snd]. apply keyword_present. eauto. }
  assert (Hword : forall t, In t (firstn 3 importantWords) -> importantWord text t).
  { intros t Hin. apply firstn_In in Hin. apply filter_In in Hin.
    destruct Hin as [Hw Hcond]. apply andb_true_iff in Hcond. destruct Hcond as [Hlen Hstop].
    split; [assumption |]. split; [now apply Nat.ltb_lt |].
    intros Hin. apply includes_In in Hin. rewrite Hin in Hstop. discriminate. }
  split; [apply setOf_NoDup |]. split; [| split].
  - etransitivity; [apply setOf_length_le |]. rewrite length_app, length_map.
    assert (List.length hits <= 10)
      by (unfold hits; etransitivity; [apply filter_length_le | reflexivity]).
    pose proof (firstn_le_length 3 importantWords). lia.
  - intros t Hin. apply setOf_In, in_app_iff in Hin. destruct Hin as [Hin | Hin].
    + left. exact (proj1 (Hhit t) Hin).
    + right. exact (Hword t Hin).
  - intros category keywords Hcat. rewrite setOf_In, in_app_iff. split.
    + intros [Hin | Hin]; [exact (proj1 (Hhit category) Hin) |].
      apply Hword in Hin. destruct Hin as (Hw & Hlen & _).
      exists keywords, category. split; [assumption |]. split; [| assumption].
      apply (long_category_is_keyword category keywords); assumption.
    + intros Hpresent. left. exact (proj2 (Hhit category) Hpresent).
Qed.

(** ** extractLeaderName *)

Lemma charsOf_app (a b : string) : charsOf (a ++ b) = (charsOf a ++ charsOf b)%list.
Proof.
  unfold charsOf. induction a as [| c a IH]; simpl; [reflexivity | now rewrite IH].
Qed.

Lemma trimStart_chars (s : string) (x : ascii) :
  In x (charsOf (trimStart s)) -> In x (charsOf s).
Proof.
  induction s as [| c s IH]; cbn [trimStart]; [tauto |].
  destruct (isWhiteSpace c); [| tauto]. intros H. right. now apply IH.
Qed.

Lemma trimEnd_chars (s : string) (x : ascii) :
  In x (charsOf (trimEnd s)) -> In x (charsOf s).
Proof.
  induction s as [| c s IH]; cbn [trimEnd]; [tauto |].
  destruct (isWhiteSpace c && isEmpty (trimEnd s)); cbn; [tauto |].
  intros [H | H]; [now left | right; now apply IH].
Qed.

Lemma trim_chars (s : string) (x : ascii) : In x (charsOf (trim s)) -> In x (charsOf s).
Proof. intros H. now apply trimStart_chars, trimEnd_chars. Qed.

Lemma splitOnFrom_chars (sep : ascii) (s : string) :
  forall cur p x,
    In p (splitOnFrom sep cur s) -> In x (charsOf p) ->
    (In x (charsOf cur) \/ In x (charsOf s)) /\ (~ In sep (charsOf cur) -> x <> sep).
Proof.
  induction s as [| c s IH]; intros cur p x Hp Hx; cbn [splitOnFrom] in Hp.
  - destruct Hp as [<- | []]. split; [now left |]. intros Hsep ->. contradiction.
  - destruct (Ascii.eqb c sep) eqn:Hc.
    + destruct Hp as [<- | Hp].
      * split; [now left |]. intros Hsep ->. contradiction.
      * destruct (IH _ _ _ Hp Hx) as [[Hin | Hin] Hne]; [contradiction | ].
        split; [right; now right |]. intros _. apply Hne. intros [].
    + apply Ascii.eqb_neq in Hc.
      destruct (IH _ _ _ Hp Hx) as [Hin Hne]. rewrite charsOf_app in Hin, Hne.
      split.
      * destruct Hin as [Hin | Hin]; [| right; now right].
        apply in_app_iff in Hin. destruct Hin as [Hcur | Hc0]; [now left |].
        right. cbn in Hc0. destruct Hc0 as [Heq | []]. left. exact Heq.
      * intros Hsep. apply Hne. intros Hin0. apply in_app_iff in Hin0.
        destruct Hin0 as [Hcur | Hc0]; [contradiction |].
        cbn in Hc0. destruct Hc0 as [Heq | []]. congruence.
Qed.

Lemma splitOnFrom_head (sep : ascii) (a b : string) :
  ~ In sep (charsOf a) ->
  forall cur,
    splitOnFrom sep cur a = [cur ++ a]
    /\ splitOnFrom sep cur (a ++ String sep b) = (cur ++ a) :: splitOnFrom sep EmptyString b.
Proof.
  induction a as [| c a IH]; intros Hsep cur.
  - cbn. rewrite Ascii.eqb_refl.
    assert (Hcur : cur ++ "" = cur) by (induction cur as [| ? ? IHc]; cbn; congruence).
    now rewrite Hcur.
  - cbn [splitOnFrom String.append].
    assert (Hc : Ascii.eqb c sep = false)
      by (apply Ascii.eqb_neq; intros ->; apply Hsep; now left).
    rewrite Hc.
    assert (Hassoc : (cur ++ String c "") ++ a = cur ++ String c a).
    { clear. induction cur as [| ? ? IHc]; cbn; congruence. }
    destruct (IH (fun H => Hsep (or_intror H)) (cur ++ String c EmptyString)) as [H1 H2].
    rewrite H1, H2, Hassoc. split; reflexivity.
Qed.

(** The name that [extractLeaderName] returns is one word, or two words
    joined by one space; a word is not empty and holds neither a space nor
    an opening parenthesis.  Whatever follows the first opening parenthesis
    is ignored, unless what stands before it is empty, "null" or
    "undefined". *)
Theorem leader_name :
  (forall rawLeaderName name,
     extractLeaderName rawLeaderName = Some name ->
     exists p0,
       nameWord p0
       /\ (name = p0 \/ exists p1, nameWord p1 /\ name = p0 ++ " " ++ p1))
  /\ (forall a b,
        a <> "" -> a <> "null" -> a <> "undefined" -> ~ In "("%char (charsOf a) ->
        extractLeaderName (Some (a ++ "(" ++ b)) = extractLeaderName (Some a)).
Proof.
  split.
  - intros rawLeaderName name. unfold extractLeaderName.
    destruct rawLeaderName as [raw |]; [| discriminate].
    destruct (isEmpty raw || String.eqb raw "null" || String.eqb raw "undefined");
      [discriminate |].
    set (name0 := trim (hd EmptyString (splitOn "(" raw))).
    assert (Hparen : ~ In "("%char (charsOf name0)).
    { intros Hin. apply trim_chars in Hin. unfold splitOn in Hin.
      pose proof (splitOnFrom_nonempty "(" raw EmptyString) as Hne.
      destruct (splitOnFrom "(" EmptyString raw) as [| p rest] eqn:Hsplit; [congruence |].
      cbn [hd] in Hin.
      assert (Hp : In p (splitOnFrom "(" EmptyString raw)) by (rewrite Hsplit; now left).
      destruct (splitOnFrom_chars _ _ _ _ _ Hp Hin) as [_ Hneq].
      apply Hneq; [intros [] | reflexivity]. }
    assert (Hword : forall p, In p (filter (fun p => 0 <? String.length p)
                                           (splitOn " " name0)) -> nameWord p).
    { intros p Hp. apply filter_In in Hp. destruct Hp as [Hp Hlen].
      split; [intros ->; discriminate Hlen |]. split; intros Hin.
      - destruct (splitOnFrom_chars _ _ _ _ _ Hp Hin) as [_ Hneq].
        apply Hneq; [intros [] | reflexivity].
      - destruct (splitOnFrom_chars _ _ _ _ _ Hp Hin) as [[[] | Hin0] _].
        contradiction. }
    destruct (filter (fun p => 0 <? String.length p) (splitOn " " name0))
      as [| p0 [| p1 rest]]; [discriminate | |]; intros H; inversion H; subst; clear H.
    + exists name. split; [apply Hword; now left | now left].
    + exists p0. split; [apply Hword; now left |]. right.
      exists p1. split; [apply Hword; right; now left | reflexivity].
  - intros a b Hne Hnull Hundef Hparen. unfold extractLeaderName, splitOn.
    destruct (splitOnFrom_head "(" a b Hparen EmptyString) as [H1 H2].
    cbn [String.append] in H1, H2.
    change (a ++ "(" ++ b) with (a ++ String "(" b). rewrite H1, H2. cbn [hd].
    assert (Hraw : forall s, s <> "" -> isEmpty s = false)
      by (intros [|]; [congruence | reflexivity]).
    rewrite (Hraw a Hne).
    apply String.eqb_neq in Hnull, Hundef. rewrite Hnull, Hundef. cbn [orb].
    assert (Hlong : forall w, String.eqb (a ++ String "(" b) w = true -> In "("%char (charsOf w)).
    { intros w Heq. apply String.eqb_eq in Heq. subst w. rewrite charsOf_app.
      apply in_app_iff. right. now left. }
    destruct a as [| c a]; [congruence |]. cbn [String.append isEmpty orb].
    destruct (String.eqb (String c (a ++ String "(" b)) "null") eqn:E1.
    { apply (Hlong "null") in E1. cbn in E1. intuition discriminate. }
    destruct (String.eqb (String c (a ++ String "(" b)) "undefined") eqn:E2.
    { apply (Hlong "undefined") in E2. cbn in E2. intuition discriminate. }
    reflexivity.
Qed.

Lemma leader_name_witness :
  extractLeaderName (Some "Jane Doe (VP, Sales)") = extractLeaderName (Some "Jane Doe ")
  /\ exists p0 p1, nameWord p0 /\ nameWord p1
                   /\ extractLeaderName (Some "Jane Doe ") = Some (p0 ++ " " ++ p1).
Proof.
  destruct leader_name as [Hshape Hparen]. split.
  - apply (Hparen "Jane Doe " "VP, Sales"); try discriminate.
    cbn. intuition discriminate.
  - destruct (Hshape (Some "Jane Doe ") "Jane Doe" eq_refl) as (p0 & Hp0 & [Heq | Htwo]).
    + exfalso. destruct Hp0 as (_ & Hspace & _). apply Hspace. rewrite <- Heq.
      cbn. tauto.
    + destruct Htwo as (p1 & Hp1 & Heq). exists p0, p1.
      split; [assumption |]. split; [assumption |]. now rewrite <- Heq.
Defined.

(** ** enhancedCleanTextResponse *)

Lemma subsequence_refl (s : string) : subsequence s s.
Proof. induction s; constructor; assumption. Qed.

Lemma subsequence_trans (a b c : string) :
  subsequence a b -> subsequence b c -> subsequence a c.
Proof.
  intros Hab Hbc. revert a Hab.
  induction Hbc as [| x b c Hbc IH | x b c Hbc IH]; intros a Hab.
  - assumption.
  - apply sub_skip. now apply IH.
  - inversion Hab; subst.
    + apply sub_skip. now apply IH.
    + apply sub_keep. now apply IH.
Qed.

Lemma subsequence_length (a b : string) :
  subsequence a b -> String.length a <= String.length b.
Proof. induction 1; simpl; lia. Qed.

Lemma subsequence_empty (s : string) : subsequence EmptyString s.
Proof. induction s; constructor; assumption. Qed.

Lemma trimStart_subsequence (s : string) : subsequence (trimStart s) s.
Proof.
  induction s as [| c s IH]; cbn [trimStart]; [constructor |].
  destruct (isWhiteSpace c); [now apply sub_skip | apply subsequence_refl].
Qed.

Lemma trimEnd_subsequence (s : string) : subsequence (trimEnd s) s.
Proof.
  induction s as [| c s IH]; cbn [trimEnd]; [constructor |].
  destruct (isWhiteSpace c && isEmpty (trimEnd s));
    [apply subsequence_empty | now apply sub_keep].
Qed.

Lemma trim_subsequence (s : string) : subsequence (trim s) s.
Proof.
  unfold trim. eapply subsequence_trans;
    [apply trimEnd_subsequence | apply trimStart_subsequence].
Qed.

Lemma replaceAll_subsequence (m : option ascii -> string -> option nat) (s : string) :
  forall skip prev, subsequence (replaceAll m "" skip prev s) s.
Proof.
  induction s as [| c s IH]; intros skip prev; cbn [replaceAll]; [constructor |].
  destruct skip as [| k]; [| apply sub_skip, IH].
  destruct (m prev (String c s)) as [[| n] |].
  - apply sub_keep, IH.
  - cbn [String.append]. apply sub_skip, IH.
  - apply sub_keep, IH.
Qed.

Lemma fillers_subsequence (patterns : list (option ascii -> string -> option nat)) :
  forall s,
    subsequence (fold_left (fun cleaned pattern => replace pattern "" cleaned) patterns s) s.
Proof.
  induction patterns as [| pattern patterns IH]; intros s; cbn [fold_left].
  - apply subsequence_refl.
  - eapply subsequence_trans; [apply IH | apply replaceAll_subsequence].
Qed.

Lemma prefix_length (n : nat) (s : string) :
  String.length (prefix n s) = Nat.min n (String.length s).
Proof.
  unfold prefix. revert s. induction n as [| n IH]; intros s.
  - destruct s; reflexivity.
  - destruct s as [| c s]; [reflexivity |]. cbn [substring String.length]. rewrite IH.
    reflexivity.
Qed.

Lemma prefix_subsequence (n : nat) (s : string) : subsequence (prefix n s) s.
Proof.
  unfold prefix. revert s. induction n as [| n IH]; intros s.
  - destruct s; cbn [substring]; apply subsequence_empty.
  - destruct s as [| c s]; cbn [substring]; [constructor | apply sub_keep, IH].
Qed.

Lemma prefix_prefix (n m : nat) (s : string) :
  n <= m -> prefix n (prefix m s) = prefix n s.
Proof.
  unfold prefix. revert m s. induction n as [| n IH]; intros m s Hle.
  - destruct (substring 0 m s), s; reflexivity.
  - destruct m as [| m]; [lia |]. destruct s as [| c s]; [reflexivity |].
    cbn [substring]. rewrite IH by lia. reflexivity.
Qed.

Lemma prefix_get (n i : nat) (s : string) :
  i < n -> String.get i (prefix n s) = String.get i s.
Proof.
  unfold prefix. revert i s. induction n as [| n IH]; intros i s Hlt; [lia |].
  destruct s as [| c s]; [reflexivity |]. cbn [substring].
  destruct i as [| i]; [reflexivity |]. cbn [String.get]. apply IH. lia.
Qed.

Lemma lastIndexOfFrom_spec (c : ascii) (s : string) :
  forall i found, (found < i)%Z ->
    let r := lastIndexOfFrom c i found s in
    (r = found \/ (i <= r < i + Z.of_nat (String.length s))%Z)
    /\ ((i <= r)%Z -> String.get (Z.to_nat (r - i)) s = Some c)
    /\ (forall j, (r < i + Z.of_nat j)%Z -> String.get j s <> Some c).
Proof.
  induction s as [| x s IH]; intros i found Hlt; cbn [lastIndexOfFrom].
  - cbv zeta. split; [now left |]. split; [lia |]. intros j _. destruct j; discriminate.
  - cbv zeta. cbn [String.length]. destruct (Ascii.eqb x c) eqn:Hxc.
    + apply Ascii.eqb_eq in Hxc. subst x.
      destruct (IH (i + 1)%Z i ltac:(lia)) as (Hrange & Hget & Hlast).
      split; [right; lia |]. split.
      * intros _. destruct Hrange as [Hr | Hr].
        -- rewrite Hr, Z.sub_diag. reflexivity.
        -- replace (Z.to_nat (lastIndexOfFrom c (i + 1) i s - i))
             with (S (Z.to_nat (lastIndexOfFrom c (i + 1) i s - (i + 1)))) by lia.
           cbn [String.get]. apply Hget. lia.
      * intros j Hj. destruct j as [| j]; [lia |]. cbn [String.get]. apply Hlast. lia.
    + apply Ascii.eqb_neq in Hxc.
      destruct (IH (i + 1)%Z found ltac:(lia)) as (Hrange & Hget & Hlast).
      split; [destruct Hrange as [Hr | Hr]; [now left | right; lia] |]. split.
      * intros Hir.
        replace (Z.to_nat (lastIndexOfFrom c (i + 1) found s - i))
          with (S (Z.to_nat (lastIndexOfFrom c (i + 1) found s - (i + 1)))) by lia.
        cbn [String.get]. apply Hget. lia.
      * intros j Hj. destruct j as [| j].
        -- cbn [String.get]. congruence.
        -- cbn [String.get]. apply Hlast. lia.
Qed.

Lemma lastIndexOf_spec (c : ascii) (s : string) :
  let r := lastIndexOf c s in
  (-1 <= r < Z.of_nat (String.length s))%Z
  /\ ((0 <= r)%Z -> String.get (Z.to_nat r) s = Some c)
  /\ (forall j, (r < Z.of_nat j)%Z -> String.get j s <> Some c).
Proof.
  pose proof (lastIndexOfFrom_spec c s 0 (-1) ltac:(lia)) as H. cbv zeta in *.
  fold (lastIndexOf c s) in H. destruct H as (Hrange & Hget & Hlast).
  split; [lia |]. split.
  - intros Hr. rewrite <- (Z.sub_0_r (lastIndexOf c s)) at 1. now apply Hget.
  - intros j Hj. apply Hlast. lia.
Qed.

(** The cleaned text is the text with some characters left out; nothing is
    added or replaced, so a run of white space disappears altogether.  It
    is at most 500 characters long.  A stripped text of at most 500
    characters is returned as it is; a longer one is cut behind the last
    [.], [!] or [?] among its first 500 characters if that one stands
    behind position 400, and behind 500 characters otherwise. *)
Theorem cleaning_truncation (text : string) :
  let cleaned := enhancedCleanTextResponse text in
  let stripped := strippedText text in
  subsequence cleaned text
  /\ String.length cleaned <= 500
  /\ (String.length stripped <= 500 -> cleaned = stripped)
  /\ (500 < String.length stripped ->
      exists n,
        402 <= n <= 500
        /\ cleaned = prefix n stripped
        /\ String.length cleaned = n
        /\ (forall i c, n <= i < 500 -> String.get i stripped = Some c ->
                        sentenceEnd c = false)
        /\ (n < 500 -> exists c, String.get (n - 1) stripped = Some c
                                 /\ sentenceEnd c = true)).
Proof.
  cbv zeta. unfold enhancedCleanTextResponse. fold (strippedText text).
  assert (Hsub : subsequence (strippedText text) text).
  { unfold strippedText.
    eapply subsequence_trans; [apply trim_subsequence |].
    eapply subsequence_trans; [apply fillers_subsequence | apply trim_subsequence]. }
  generalize dependent (strippedText text). intros stripped Hsub.
  destruct (500 <? String.length stripped) eqn:Hlong.
  - apply Nat.ltb_lt in Hlong.
    set (truncated := prefix 500 stripped).
    assert (Hlen : String.length truncated = 500)
      by (unfold truncated; rewrite prefix_length; lia).
    destruct (lastIndexOf_spec "." truncated) as (Hp1 & Hp2 & Hp3).
    destruct (lastIndexOf_spec "!" truncated) as (He1 & He2 & He3).
    destruct (lastIndexOf_spec "?" truncated) as (Hq1 & Hq2 & Hq3).
    cbv zeta in *.
    set (lastPeriod := lastIndexOf "." truncated) in *.
    set (lastExclamation := lastIndexOf "!" truncated) in *.
    set (lastQuestion := lastIndexOf "?" truncated) in *.
    set (lastSentenceEnd := Z.max (Z.max lastPeriod lastExclamation) lastQuestion).
    assert (Hnone : forall i c, (lastSentenceEnd < Z.of_nat i)%Z -> i < 500 ->
                                String.get i stripped = Some c -> sentenceEnd c = false).
    { intros i c Hi Hi500 Hget.
      rewrite <- (prefix_get 500 i stripped Hi500) in Hget. fold truncated in Hget.
      unfold sentenceEnd.
      destruct (Ascii.eqb c ".") eqn:E1;
        [apply Ascii.eqb_eq in E1; subst; exfalso; apply (Hp3 i); [lia | assumption] |].
      destruct (Ascii.eqb c "!") eqn:E2;
        [apply Ascii.eqb_eq in E2; subst; exfalso; apply (He3 i); [lia | assumption] |].
      destruct (Ascii.eqb c "?") eqn:E3;
        [apply Ascii.eqb_eq in E3; subst; exfalso; apply (Hq3 i); [lia | assumption] |].
      reflexivity. }
    destruct (400 <? lastSentenceEnd)%Z eqn:Hcut.
    + apply Z.ltb_lt in Hcut.
      assert (Hn : 402 <= Z.to_nat (lastSentenceEnd + 1) <= 500) by lia.
      assert (Hcleaned : prefix (Z.to_nat (lastSentenceEnd + 1)) truncated
                         = prefix (Z.to_nat (lastSentenceEnd + 1)) stripped)
        by (unfold truncated; apply prefix_prefix; lia).
      rewrite Hcleaned.
      assert (Hsize : String.length (prefix (Z.to_nat (lastSentenceEnd + 1)) stripped)
                      = Z.to_nat (lastSentenceEnd + 1)) by (rewrite prefix_length; lia).
      split; [eapply subsequence_trans; [apply prefix_subsequence | exact Hsub] |].
      split; [lia |]. split; [lia |]. intros _.
      exists (Z.to_nat (lastSentenceEnd + 1)).
      split; [exact Hn |]. split; [reflexivity |]. split; [exact Hsize |]. split.
      * intros i c Hi. apply Hnone; lia.
      * intros _.
        replace (Z.to_nat (lastSentenceEnd + 1) - 1) with (Z.to_nat lastSentenceEnd) by lia.
        rewrite <- (prefix_get 500 _ stripped) by lia. fold truncated.
        destruct (Z.max_spec (Z.max lastPeriod lastExclamation) lastQuestion)
          as [[_ Hmax] | [_ Hmax]]; fold lastSentenceEnd in Hmax.
        -- exists "?"%char. split; [| reflexivity]. rewrite Hmax. apply Hq2. lia.
        -- destruct (Z.max_spec lastPeriod lastExclamation) as [[_ Hm] | [_ Hm]];
             rewrite Hm in Hmax.
           ++ exists "!"%char. split; [| reflexivity]. rewrite Hmax. apply He2. lia.
           ++ exists "."%char. split; [| reflexivity]. rewrite Hmax. apply Hp2. lia.
    + apply Z.ltb_ge in Hcut.
      split; [eapply subsequence_trans; [apply prefix_subsequence | exact Hsub] |].
      split; [lia |]. split; [lia |]. intros _.
      exists 500. split; [lia |]. split; [reflexivity |]. split; [exact Hlen |].
      split; [intros i c Hi; lia | lia].
  - apply Nat.ltb_ge in Hlong.
    split; [exact Hsub |]. split; [exact Hlong |]. split; [reflexivity | lia].
Qed.

(** ** The statistics and the prompts of a run *)

Lemma aggregate_categories (cleanedData : list SurveyRecord) (aggregated : Aggregated) :
  aggregateResponses cleanedData = Ok aggregated ->
  byCategory aggregated
  = map (fun mapping =>
           (category mapping, clusterCategory (collectedCategory mapping cleanedData)))
        questionMappings.
Proof.
  unfold aggregateResponses. intros Hrun.
  destruct (forEach responseStep cleanedData (mkCollected initialCategories [] []))
    as [collected |] eqn:Hcollect; cbn [bind] in Hrun; [| discriminate].
  inversion Hrun; subst; clear Hrun.
  change (mkCollected initialCategories [] []) with (collectedAfter []) in Hcollect.
  apply forEach_collected in Hcollect. cbn [app] in Hcollect. subst collected.
  cbn [byCategory collectedAfter c_byCategory]. now rewrite map_map.
Qed.

Lemma clusterCategory_collected (mapping : QuestionMapping) (cleanedData : list SurveyRecord) :
  clusters (clusterCategory (collectedCategory mapping cleanedData))
  = enhancedClusterResponsesWithFullExamples (responsesOf mapping cleanedData)
  /\ totalResponses (clusterCategory (collectedCategory mapping cleanedData))
     = List.length (responsesOf mapping cleanedData).
Proof.
  unfold clusterCategory, collectedCategory. cbn [d_rawResponses d_totalResponses].
  destruct (0 <? List.length (responsesOf mapping cleanedData)) eqn:Hany;
    cbn [clusters totalResponses]; split; try reflexivity.
  apply Nat.ltb_ge in Hany.
  destruct (responsesOf mapping cleanedData); [reflexivity | simpl in Hany; lia].
Qed.

Lemma category_of_run (cleanedData : list SurveyRecord) (aggregated : Aggregated)
    (name : string) (categoryAggregate : CategoryAggregate) :
  aggregateResponses cleanedData = Ok aggregated ->
  In (name, categoryAggregate) (byCategory aggregated) ->
  exists mapping,
    In mapping questionMappings /\ category mapping = name
    /\ clusters categoryAggregate
       = enhancedClusterResponsesWithFullExamples (responsesOf mapping cleanedData)
    /\ totalResponses categoryAggregate = List.length (responsesOf mapping cleanedData).
Proof.
  intros Hrun Hin. rewrite (aggregate_categories _ _ Hrun) in Hin.
  apply in_map_iff in Hin. destruct Hin as (mapping & Heq & Hmapping).
  inversion Heq; subst; clear Heq. exists mapping.
  destruct (clusterCategory_collected mapping cleanedData) as [Hc Ht]. auto.
Qed.

Lemma emitted_examples_verbatim (responses : list RawResponse) (c : Cluster) (e : string) :
  In c (enhancedClusterResponsesWithFullExamples responses) ->
  In e (examples c) ->
  exists r, In r responses /\ fullOriginal r = e.
Proof.
  unfold enhancedClusterResponsesWithFullExamples.
  destruct (List.length responses =? 0); [intros [] |].
  intros Hc He. apply firstn_In in Hc.
  apply (Permutation_in c (sortDesc_perm count _)) in Hc.
  assert (Hseeds : Forall (fun c0 => List.length (examples c0) <= 8) (clusterSeeds responses)).
  { apply Forall_forall. intros c0 Hc0. now apply (clusterSeeds_examples responses). }
  destruct (postProcess_examples _ c Hseeds Hc) as [_ Hex].
  destruct (Hex e He) as (c0 & Hc0 & Hin).
  now apply (clusterSeeds_examples responses c0).
Qed.

Lemma list_sum_In {A : Type} (f : A -> nat) (l : list A) (x : A) :
  In x l -> f x <= list_sum (map f l).
Proof.
  induction l as [| y l IH]; intros Hin; [contradiction |].
  cbn [map list_sum fold_right].
  change (fold_right Nat.add 0 (map f l)) with (list_sum (map f l)).
  destruct Hin as [-> | Hin]; [lia | specialize (IH Hin); lia].
Qed.

Lemma assocSet_fresh {V : Type} (d : list (string * V)) (key : string) (v : V) :
  ~ In key (map fst d) -> assocSet d key v = (d ++ [(key, v)])%list.
Proof.
  induction d as [| [k x] d IH]; intros Hfresh; cbn [assocSet app]; [reflexivity |].
  destruct (String.eqb k key) eqn:Hk.
  - apply String.eqb_eq in Hk. subst. exfalso. apply Hfresh. now left.
  - rewrite IH; [reflexivity |]. intros Hin. apply Hfresh. now right.
Qed.

Lemma insertAsc_perm {V : Type} (x : string * V) (l : list (string * V)) :
  Permutation (JsObject.insertAsc x l) (x :: l).
Proof.
  induction l as [| y l IH]; cbn [JsObject.insertAsc]; [reflexivity |].
  destruct (_ <=? _)%N; [| reflexivity].
  rewrite IH. apply perm_swap.
Qed.

Lemma entries_perm {V : Type} (obj : list (string * V)) :
  Permutation (JsObject.entries obj) obj.
Proof.
  unfold JsObject.entries.
  assert (Hsorted : forall l : list (string * V),
             Permutation (fold_right JsObject.insertAsc [] l) l).
  { induction l as [| x l IH]; cbn [fold_right]; [reflexivity |].
    rewrite insertAsc_perm. now constructor. }
  rewrite Hsorted. clear Hsorted.
  induction obj as [| x obj IH]; cbn [filter]; [reflexivity |].
  destruct (JsObject.isIndexKey x); cbn [negb app].
  - now constructor.
  - etransitivity; [symmetry; apply Permutation_middle | now constructor].
Qed.

Lemma entries_plain {V : Type} (obj : list (string * V)) :
  Forall (fun entry => JsObject.isIndexKey entry = false) obj ->
  JsObject.entries obj = obj.
Proof.
  intros Hplain. unfold JsObject.entries.
  assert (Hnone : filter JsObject.isIndexKey obj = []).
  { induction Hplain as [| x l Hx _ IH]; cbn [filter]; [reflexivity |].
    rewrite Hx. exact IH. }
  rewrite Hnone. clear Hnone. cbn [fold_right app].
  induction Hplain as [| x l Hx _ IH]; cbn [filter]; [reflexivity |].
  rewrite Hx. cbn [negb]. f_equal. exact IH.
Qed.

Lemma statsSteps (entries : list (string * CategoryAggregate)) :
  NoDup (map fst entries) ->
  forall acc total totalClusters0 high,
    (forall entry, In entry entries -> ~ In (fst entry) (map fst acc)) ->
    fold_left statsStep entries (acc, total, totalClusters0, high)
    = ((acc ++ map (fun entry =>
                      (fst entry,
                       mkCategoryClusters
                         (List.length (clusters (snd entry)))
                         (totalResponses (snd entry))
                         (List.length (filter (fun c => 20 <=? count c)
                                              (clusters (snd entry))))))
                   entries)%list,
       total + list_sum (map (fun entry => totalResponses (snd entry)) entries),
       totalClusters0 + list_sum (map (fun entry => List.length (clusters (snd entry)))
                                      entries),
       high + list_sum (map (fun entry =>
                               List.length (filter (fun c => 20 <=? count c)
                                                   (clusters (snd entry))))
                            entries)).
Proof.
  induction entries as [| [category data] entries IH];
    intros Hnodup acc total totalClusters0 high Hfresh.
  - cbn. now rewrite app_nil_r, !Nat.add_0_r.
  - inversion Hnodup as [| ? ? Hnotin Hnodup']; subst.
    cbn [fold_left statsStep]. rewrite assocSet_fresh by (apply (Hfresh (category, data)); now left).
    rewrite IH; [| assumption |].
    + cbn [map fst snd list_sum fold_right]. rewrite <- app_assoc. cbn [app].
      f_equal; [f_equal; [f_equal |] |]; unfold list_sum; lia.
    + intros entry Hentry. rewrite map_app, in_app_iff. cbn [map fst In].
      intros [Hin | [Heq | []]].
      * apply (Hfresh entry); [now right | assumption].
      * apply Hnotin. cbn [fst] in Heq. rewrite Heq. now apply in_map.
Qed.

Lemma sums_bound {A : Type} (high cl resp : A -> nat) (l : list A) :
  Forall (fun x => high x <= cl x /\ cl x <= Nat.min 40 (resp x) /\ 20 * high x <= resp x) l ->
  list_sum (map high l) <= list_sum (map cl l)
  /\ list_sum (map cl l) <= Nat.min (40 * List.length l) (list_sum (map resp l))
  /\ 20 * list_sum (map high l) <= list_sum (map resp l).
Proof.
  induction 1 as [| x l (Hh & Hc & Ht) _ IH]; cbn [map list_sum fold_right List.length].
  - cbn. lia.
  - change (fold_right Nat.add 0) with list_sum in *. lia.
Qed.

(** The statistics of a run that returns.  There are six categories, and
    for each of them the number of clusters, of responses and of clusters
    of 20 or more.  The totals are the sums over the categories.  There are
    never more clusters than responses (so the compression ratio is not
    negative) and never more than 240; and 20 responses are needed for
    every cluster of 20 or more. *)
Theorem aggregation_stats (cleanedData : list SurveyRecord) (aggregated : Aggregated) :
  aggregateResponses cleanedData = Ok aggregated ->
  let stats := getAggregationStats aggregated in
  let responses := list_sum (map (fun entry => cc_responses (snd entry))
                                 (categoryClusters stats)) in
  totalCategories stats = 6
  /\ map fst (categoryClusters stats) = categoryNames
  /\ Forall (fun entry =>
               cc_highFrequency (snd entry) <= cc_clusters (snd entry)
               /\ cc_clusters (snd entry) <= Nat.min 40 (cc_responses (snd entry))
               /\ 20 * cc_highFrequency (snd entry) <= cc_responses (snd entry))
            (categoryClusters stats)
  /\ totalClusters stats = list_sum (map (fun entry => cc_clusters (snd entry))
                                         (categoryClusters stats))
  /\ highFrequencyClusters stats
     = list_sum (map (fun entry => cc_highFrequency (snd entry)) (categoryClusters stats))
  /\ highFrequencyClusters stats <= totalClusters stats
  /\ totalClusters stats <= Nat.min 240 responses
  /\ 20 * highFrequencyClusters stats <= responses.
Proof.
  intros Hrun. pose proof (aggregate_categories _ _ Hrun) as Hcats.
  assert (Hkeys : map fst (byCategory aggregated) = categoryNames).
  { rewrite Hcats, map_map. reflexivity. }
  assert (Hnodup : NoDup (map fst (byCategory aggregated))).
  { rewrite Hkeys. change categoryNames with (map category questionMappings).
    apply categories_distinct. }
  assert (Hentry : Forall (fun entry =>
                             List.length (filter (fun c => 20 <=? count c)
                                                 (clusters (snd entry)))
                             <= List.length (clusters (snd entry))
                             /\ List.length (clusters (snd entry))
                                <= Nat.min 40 (totalResponses (snd entry))
                             /\ 20 * List.length (filter (fun c => 20 <=? count c)
                                                         (clusters (snd entry)))
                                <= totalResponses (snd entry))
                          (byCategory aggregated)).
  { apply Forall_forall. intros [name c] Hin. cbn [snd].
    destruct (category_of_run _ _ _ _ Hrun Hin) as (mapping & _ & _ & Hclusters & Htotal).
    rewrite Hclusters, Htotal.
    destruct (emitted_clusters_invariants (responsesOf mapping cleanedData)) as (_ & Hcap & _).
    pose proof (emitted_counts_bound (responsesOf mapping cleanedData)).
    pose proof (high_frequency_bound
                  (enhancedClusterResponsesWithFullExamples (responsesOf mapping cleanedData))).
    split; [apply filter_length_le |]. split; [exact Hcap | lia]. }
  assert (Hplain : JsObject.entries (byCategory aggregated) = byCategory aggregated).
  { apply entries_plain. rewrite Hcats. apply Forall_map.
    repeat (constructor; [reflexivity |]). constructor. }
  cbv zeta. unfold getAggregationStats. rewrite Hplain.
  rewrite (statsSteps _ Hnodup) by (intros entry _ []).
  cbn [app Nat.add totalCategories categoryClusters totalClusters highFrequencyClusters].
  rewrite !map_map. cbn [fst snd cc_clusters cc_responses cc_highFrequency].
  assert (Hlen : List.length (byCategory aggregated) = 6).
  { rewrite <- (length_map fst), Hkeys. reflexivity. }
  split; [exact Hlen |]. split; [exact Hkeys |]. split.
  { apply Forall_map. cbn [snd cc_clusters cc_responses cc_highFrequency]. exact Hentry. }
  split; [reflexivity |]. split; [reflexivity |].
  destruct (sums_bound _ _ _ _ Hentry) as (H1 & H2 & H3). rewrite Hlen in H2.
  repeat split; lia.
Qed.

Lemma aggregation_stats_witness :
  exists aggregated,
    aggregateResponses twentyRecords = Ok aggregated
    /\ totalCategories (getAggregationStats aggregated) = 6
    /\ highFrequencyClusters (getAggregationStats aggregated)
       <= totalClusters (getAggregationStats aggregated).
Proof.
  assert (Hrun : exists aggregated, aggregateResponses twentyRecords = Ok aggregated)
    by (eexists; vm_compute; reflexivity).
  destruct Hrun as (aggregated & Hrun). exists aggregated. split; [exact Hrun |].
  destruct (aggregation_stats twentyRecords aggregated Hrun)
    as (Hsix & _ & _ & _ & _ & Hhigh & _).
  split; [exact Hsix | exact Hhigh].
Defined.

(** ** buildCategoryPrompt *)

Lemma padExamples_spec (c : Cluster) :
  examples c <> [] ->
  (if (List.length (examples c) <? 3) && (0 <? List.length (examples c))
   then padExamples 2 (examples c) else examples c)
  = paddedExamples c.
Proof.
  unfold paddedExamples. destruct (examples c) as [| a [| b [| d rest]]]; intros Hne.
  - congruence.
  - reflexivity.
  - reflexivity.
  - cbn [List.length Nat.ltb Nat.leb andb Nat.sub repeat]. now rewrite app_nil_r.
Qed.

Lemma enrichCluster_padded (c : Cluster) :
  examples c <> [] -> 1 <= leaderCount c ->
  enrichCluster c
  = (mkEnriched (theme c) (count c) (firstn 5 (paddedExamples c)) (leaderCount c),
     withExamples c (paddedExamples c)).
Proof.
  intros Hne Hleaders. unfold enrichCluster, withExamples.
  rewrite padExamples_spec by assumption.
  destruct (leaderCount c =? 0) eqn:Hzero; [apply Nat.eqb_eq in Hzero; lia | reflexivity].
Qed.

Lemma wellFormed_examples (c : Cluster) :
  wellFormed c -> examples c <> [] /\ 1 <= leaderCount c.
Proof.
  intros (_ & Hex & Hleaders & _). split; [| lia].
  destruct (examples c); [simpl in Hex; lia | discriminate].
Qed.

Lemma enrichCluster_spec (c : Cluster) :
  wellFormed c ->
  enrichCluster c
  = (mkEnriched (theme c) (count c) (firstn 5 (paddedExamples c)) (leaderCount c),
     withExamples c (paddedExamples c)).
Proof.
  intros Hwf. destruct (wellFormed_examples c Hwf). now apply enrichCluster_padded.
Qed.

Lemma paddedExamples_facts (c : Cluster) :
  examples c <> [] ->
  3 <= List.length (paddedExamples c)
  /\ (forall x, In x (paddedExamples c) -> In x (examples c))
  /\ paddedExamples (withExamples c (paddedExamples c)) = paddedExamples c.
Proof.
  intros Hne. unfold paddedExamples at 1 2. split; [| split].
  - rewrite length_app, repeat_length. lia.
  - intros x Hin. apply in_app_iff in Hin. destruct Hin as [Hin | Hin]; [assumption |].
    apply repeat_spec in Hin. subst x. destruct (examples c); [congruence | now left].
  - unfold paddedExamples at 1. unfold withExamples. cbn [examples].
    assert (Hlen : 3 <= List.length (paddedExamples c)).
    { unfold paddedExamples. rewrite length_app, repeat_length. lia. }
    replace (3 - List.length (paddedExamples c)) with 0 by lia.
    cbn [repeat]. apply app_nil_r.
Qed.

Lemma enrichCluster_again (c : Cluster) :
  wellFormed c ->
  enrichCluster (withExamples c (paddedExamples c))
  = (fst (enrichCluster c), withExamples c (paddedExamples c)).
Proof.
  intros Hwf. destruct (wellFormed_examples c Hwf) as [Hne Hleaders].
  destruct (paddedExamples_facts c Hne) as (Hlen & _ & Hidem).
  rewrite (enrichCluster_spec c Hwf). cbn [fst].
  rewrite enrichCluster_padded.
  - rewrite Hidem. reflexivity.
  - unfold withExamples. cbn [examples]. intros Hnil. rewrite Hnil in Hlen. simpl in Hlen. lia.
  - exact Hleaders.
Qed.

Lemma describes_enriched (c : Cluster) :
  wellFormed c -> describes c (fst (enrichCluster c)).
Proof.
  intros Hwf. rewrite enrichCluster_spec by assumption. cbn [fst].
  assert (Hne : examples c <> []).
  { destruct Hwf as (_ & Hex & _). destruct (examples c); [simpl in Hex; lia | discriminate]. }
  destruct (paddedExamples_facts c Hne) as (Hlen & Hin & _).
  unfold describes. cbn [e_theme e_count e_leaderCount full_examples].
  repeat split; try reflexivity.
  - rewrite length_firstn. lia.
  - rewrite length_firstn. lia.
  - intros x Hx. apply Hin. now apply firstn_In in Hx.
Qed.

Lemma filter_map_same {A : Type} (p : A -> bool) (f : A -> A) (l : list A) :
  (forall x, p (f x) = p x) -> filter p (map f l) = map f (filter p l).
Proof.
  intros Hp. induction l as [| x l IH]; cbn [filter map]; [reflexivity |].
  rewrite Hp. destruct (p x); cbn [map]; now rewrite IH.
Qed.

(** What [buildCategoryPrompt] does to a category with well-formed
    clusters.  Without a cluster of 20 or more it returns [null] and leaves
    the category as it is.  Otherwise the prompt describes the clusters of
    20 or more, in their order: label, count and leader count as they are,
    and as quotes the first five of the examples, where a cluster with one
    or two examples first gets its first example repeated up to three.  The
    repeated examples stay in the category data, and a second call builds
    the same description. *)
Theorem prompt_examples (categoryData : CategoryAggregate) :
  Forall wellFormed (clusters categoryData) ->
  let described := filter (fun c => 20 <=? count c) (clusters categoryData) in
  match buildCategoryPrompt categoryData with
  | (None, after) => described = [] /\ after = categoryData
  | (Some enrichedClusters, after) =>
      described <> []
      /\ Forall2 describes described enrichedClusters
      /\ clusters after
         = map (fun c => if 20 <=? count c then withExamples c (paddedExamples c) else c)
               (clusters categoryData)
      /\ buildCategoryPrompt after = (Some enrichedClusters, after)
  end.
Proof.
  intros Hwf. cbv zeta. unfold buildCategoryPrompt at 1.
  destruct (List.length (filter (fun c => 20 <=? count c) (clusters categoryData)) =? 0)
    eqn:Hnone.
  - apply Nat.eqb_eq in Hnone. split; [| reflexivity].
    destruct (filter _ _); [reflexivity | discriminate].
  - apply Nat.eqb_neq in Hnone.
    assert (Hclusters :
              map (fun cluster => if 20 <=? count cluster then snd (enrichCluster cluster)
                                  else cluster)
                  (clusters categoryData)
              = map (fun c => if 20 <=? count c then withExamples c (paddedExamples c) else c)
                    (clusters categoryData)).
    { apply map_ext_in. intros c Hc. destruct (20 <=? count c); [| reflexivity].
      rewrite Forall_forall in Hwf. now rewrite enrichCluster_spec by auto. }
    split; [intros Hnil; rewrite Hnil in Hnone; now apply Hnone |].
    split; [| split; [exact Hclusters |]].
    + clear Hnone Hclusters.
      induction (clusters categoryData) as [| c l IH]; cbn [filter map]; [constructor |].
      inversion Hwf; subst. destruct (20 <=? count c); [| now apply IH].
      cbn [map]. constructor; [now apply describes_enriched | now apply IH].
    + unfold buildCategoryPrompt. cbn [clusters totalResponses rawResponses columnRef
                                      processingStats].
      rewrite Hclusters. clear Hclusters.
      set (pad := fun c => if 20 <=? count c then withExamples c (paddedExamples c) else c).
      assert (Hcount : forall c, count (pad c) = count c).
      { intros c. unfold pad. destruct (20 <=? count c); reflexivity. }
      assert (Hfilter : filter (fun c => 20 <=? count c) (map pad (clusters categoryData))
                        = map pad (filter (fun c => 20 <=? count c) (clusters categoryData))).
      { apply filter_map_same. intros c. now rewrite Hcount. }
      rewrite Hfilter, length_map.
      destruct (List.length (filter (fun c => 20 <=? count c) (clusters categoryData)) =? 0)
        eqn:Hzero; [apply Nat.eqb_eq in Hzero; contradiction |].
      f_equal.
      * f_equal. rewrite map_map. apply map_ext_in. intros c Hc.
        apply filter_In in Hc. destruct Hc as [Hc Hhigh]. unfold pad. rewrite Hhigh.
        rewrite Forall_forall in Hwf. now rewrite (enrichCluster_again c (Hwf c Hc)).
      * f_equal. rewrite map_map. apply map_ext_in. intros c Hc. rewrite Hcount.
        unfold pad. destruct (20 <=? count c) eqn:Hhigh; [| reflexivity].
        rewrite Forall_forall in Hwf. now rewrite (enrichCluster_again c (Hwf c Hc)).
Qed.

Lemma buildCategoryPrompt_result (categoryData : CategoryAggregate)
    (enrichedClusters : list EnrichedCluster) :
  fst (buildCategoryPrompt categoryData) = Some enrichedClusters ->
  enrichedClusters
  = map (fun cluster => fst (enrichCluster cluster))
        (filter (fun c => 20 <=? count c) (clusters categoryData))
  /\ List.length (filter (fun c => 20 <=? count c) (clusters categoryData)) <> 0.
Proof.
  unfold buildCategoryPrompt.
  destruct (List.length (filter (fun c => 20 <=? count c) (clusters categoryData)) =? 0)
    eqn:Hnone; intros Hprompt.
  - discriminate Hprompt.
  - apply Nat.eqb_neq in Hnone. split; [| exact Hnone].
    change (Some (map (fun cluster => fst (enrichCluster cluster))
                      (filter (fun c => 20 <=? count c) (clusters categoryData)))
            = Some enrichedClusters) in Hprompt.
    now inversion Hprompt.
Qed.

(** The prompt of a category of a run.  A prompt is built only for a
    category with a cluster of 20 or more, hence with at least 20 valid
    responses; a category with smaller clusters only is counted as
    processed by [processWithGemini] although no prompt is built for it.
    The prompt describes at most 40 clusters, and for every cluster it
    describes, 20 responses of the category are needed.  A described
    cluster has between 3 and 5 quotes, and every quote is, character for
    character, a valid text that a record gave for the category. *)
Theorem prompt_of_run (cleanedData : list SurveyRecord) (aggregated : Aggregated)
    (name : string) (categoryAggregate : CategoryAggregate)
    (enrichedClusters : list EnrichedCluster) :
  aggregateResponses cleanedData = Ok aggregated ->
  In (name, categoryAggregate) (byCategory aggregated) ->
  fst (buildCategoryPrompt categoryAggregate) = Some enrichedClusters ->
  1 <= List.length enrichedClusters <= 40
  /\ 20 * List.length enrichedClusters <= totalResponses categoryAggregate
  /\ 1 <= List.length (clusters categoryAggregate)
  /\ Forall (fun e =>
               20 <= e_count e <= totalResponses categoryAggregate
               /\ 3 <= List.length (full_examples e) <= 5
               /\ forall x, In x (full_examples e) ->
                    exists mapping r,
                      In mapping questionMappings /\ category mapping = name
                      /\ In r (responsesOf mapping cleanedData)
                      /\ fullOriginal r = x
                      /\ isValidTextResponse (VStr x) = true)
            enrichedClusters.
Proof.
  intros Hrun Hin Hprompt.
  destruct (category_of_run _ _ _ _ Hrun Hin) as (mapping & Hmapping & Hname & Hclusters & Htotal).
  destruct (emitted_clusters_invariants (responsesOf mapping cleanedData)) as (Hwf & Hcap & _).
  pose proof (emitted_counts_bound (responsesOf mapping cleanedData)) as Hsum.
  pose proof (high_frequency_bound
                (enhancedClusterResponsesWithFullExamples (responsesOf mapping cleanedData)))
    as Hhigh.
  rewrite <- Hclusters in Hwf, Hcap, Hsum, Hhigh. rewrite <- Htotal in Hcap, Hsum.
  apply buildCategoryPrompt_result in Hprompt. destruct Hprompt as [-> Hnone].
  set (described := filter (fun c => 20 <=? count c) (clusters categoryAggregate)) in *.
  rewrite length_map.
  pose proof (filter_length_le (fun c => 20 <=? count c) (clusters categoryAggregate)) as Hle.
  fold described in Hle.
  split; [lia |]. split; [lia |]. split; [lia |].
  apply Forall_map, Forall_forall. intros c Hc.
  apply filter_In in Hc. destruct Hc as [Hc Hcount]. apply Nat.leb_le in Hcount.
  rewrite Forall_forall in Hwf.
  destruct (describes_enriched c (Hwf c Hc)) as (_ & Hecount & _ & _ & Hlen & Hquotes).
  cbv beta. rewrite Hecount. split; [split; [exact Hcount |] |].
  - pose proof (list_sum_In count _ _ Hc). lia.
  - split; [exact Hlen |]. intros x Hx. apply Hquotes in Hx.
    rewrite Hclusters in Hc.
    destruct (emitted_examples_verbatim _ _ _ Hc Hx) as (r & Hr & Horiginal).
    exists mapping, r. repeat split; try assumption.
    unfold responsesOf in Hr. apply in_flat_map in Hr. destruct Hr as (record & _ & Hr).
    apply in_map_iff in Hr. destruct Hr as (t & Hrt & Ht).
    apply filter_In in Ht. destruct Ht as [_ Hvalid].
    subst r. cbn [responseOf fullOriginal] in Horiginal. now subst x.
Qed.

Lemma prompt_of_run_witness :
  exists aggregated categoryAggregate enrichedClusters,
    aggregateResponses twentyRecords = Ok aggregated
    /\ In ("obstacles", categoryAggregate) (byCategory aggregated)
    /\ fst (buildCategoryPrompt categoryAggregate) = Some enrichedClusters
    /\ 1 <= List.length enrichedClusters <= 40
    /\ 20 * List.length enrichedClusters <= totalResponses categoryAggregate.
Proof.
  assert (Hrun : exists aggregated categoryAggregate enrichedClusters,
             aggregateResponses twentyRecords = Ok aggregated
             /\ In ("obstacles", categoryAggregate) (byCategory aggregated)
             /\ fst (buildCategoryPrompt categoryAggregate) = Some enrichedClusters).
  { eexists. eexists. eexists. split; [vm_compute; reflexivity |].
    split; [right; right; left; reflexivity | vm_compute; reflexivity]. }
  destruct Hrun as (aggregated & categoryAggregate & enrichedClusters & Hrun & Hin & Hprompt).
  exists aggregated, categoryAggregate, enrichedClusters.
  destruct (prompt_of_run _ _ _ _ _ Hrun Hin Hprompt) as (Hlen & Htwenty & _).
  split; [exact Hrun |]. split; [exact Hin |]. split; [exact Hprompt |].
  split; [exact Hlen | exact Htwenty].
Defined.

(** A category with one response is counted as processed, and no prompt is
    built for it. *)
Example processed_without_prompt :
  exists aggregated categoryAggregate,
    aggregateResponses [sampleRecord] = Ok aggregated
    /\ In ("obstacles", categoryAggregate) (byCategory aggregated)
    /\ List.length (clusters categoryAggregate) = 1
    /\ fst (buildCategoryPrompt categoryAggregate) = None.
Proof.
  eexists. eexists. split; [vm_compute; reflexivity |].
  split; [right; right; left; reflexivity |]. split; vm_compute; reflexivity.
Qed.

Lemma prompt_examples_witness :
  exists c e after,
    wellFormed c
    /\ buildCategoryPrompt (mkCategoryAggregate [c] 25 None "M" (mkStats 25 25 1))
       = (Some [e], after)
    /\ describes c e
    /\ full_examples e = ["too loud"; "too loud"; "too loud"].
Proof.
  set (c := mkCluster "noise" 25 ["too loud"] 1 1 [] 8%float).
  assert (Hwf : wellFormed c) by (unfold wellFormed; cbn; lia).
  pose proof (prompt_examples (mkCategoryAggregate [c] 25 None "M" (mkStats 25 25 1))
                              (Forall_cons c Hwf (Forall_nil _))) as Hprompt.
  cbv zeta in Hprompt.
  destruct (buildCategoryPrompt (mkCategoryAggregate [c] 25 None "M" (mkStats 25 25 1)))
    as [[enriched |] after] eqn:Hbuild.
  - destruct Hprompt as (_ & Hdescribes & _).
    cbn [clusters filter count c Nat.leb] in Hdescribes.
    inversion Hdescribes as [| ? e ? rest Hce Hrest]; subst. inversion Hrest; subst.
    exists c, e, after. split; [exact Hwf |]. split; [exact Hbuild |]. split; [exact Hce |].
    destruct Hce as (_ & _ & _ & Hfull & _). rewrite Hfull. reflexivity.
  - exfalso. destruct Hprompt as [Hnil _]. cbn in Hnil. discriminate Hnil.
Defined.

(** ** normalizeForClustering *)

Lemma append_assoc_char (a b : string) (c : ascii) :
  ((a ++ String c EmptyString) ++ b = a ++ String c b)%string.
Proof. induction a as [| x a IH]; cbn; congruence. Qed.

Lemma append_nil_r (a : string) : (a ++ EmptyString)%string = a.
Proof. induction a as [| x a IH]; cbn; congruence. Qed.

Lemma wordRun_spec (s : string) :
  forall w rest, wordRun s = (w, rest) ->
    s = (w ++ rest)%string /\ allWord w = true /\ isWordOpt (headOf rest) = false.
Proof.
  induction s as [| c r IH]; intros w rest Hrun; cbn [wordRun] in Hrun.
  - inversion Hrun; subst. repeat split.
  - destruct (isWordChar c) eqn:Hc.
    + destruct (wordRun r) as [w' rest'] eqn:Hr. inversion Hrun; subst.
      destruct (IH _ _ eq_refl) as (Hs & Hw & Hrest).
      split; [cbn; congruence |]. split; [cbn; now rewrite Hc | assumption].
    + inversion Hrun; subst. repeat split. cbn. exact Hc.
Qed.

Lemma wordRun_app (w rest : string) :
  allWord w = true -> isWordOpt (headOf rest) = false ->
  wordRun (w ++ rest) = (w, rest).
Proof.
  intros Hw Hrest. induction w as [| c w IH]; cbn [String.append].
  - destruct rest as [| x r]; [reflexivity |]. cbn in Hrest. cbn [wordRun].
    now rewrite Hrest.
  - cbn [allWord] in Hw. apply andb_true_iff in Hw. destruct Hw as [Hc Hw].
    cbn [wordRun]. now rewrite Hc, (IH Hw).
Qed.

Lemma wordRun_shorter (s w : string) (x : ascii) (r : string) :
  wordRun s = (w, String x r) -> String.length r < String.length s.
Proof.
  intros Hrun. apply wordRun_spec in Hrun. destruct Hrun as (-> & _ & _).
  induction w as [| c w IH]; cbn in *; lia.
Qed.

Lemma mapWordsFrom_run (f : string -> string) (s : string) :
  forall cur,
    mapWordsFrom f cur s
    = (let (w, rest) := wordRun s in
       applyWord f (cur ++ w)
       ++ match rest with
          | EmptyString => EmptyString
          | String x r => String x (mapWordsFrom f EmptyString r)
          end)%string.
Proof.
  induction s as [| c r IH]; intros cur; cbn [mapWordsFrom wordRun].
  - now rewrite !append_nil_r.
  - destruct (isWordChar c).
    + rewrite IH. destruct (wordRun r) as [w rest]. now rewrite append_assoc_char.
    + now rewrite append_nil_r.
Qed.

Lemma mapWordsFrom_ext (f g : string -> string) (s : string) :
  (forall w, f w = g w) -> forall cur, mapWordsFrom f cur s = mapWordsFrom g cur s.
Proof.
  intros Hfg. induction s as [| c r IH]; intros cur; cbn [mapWordsFrom]; unfold applyWord.
  - now rewrite Hfg.
  - destruct (isWordChar c); [apply IH |]. now rewrite Hfg, IH.
Qed.

Lemma allWord_app (a b : string) : allWord (a ++ b) = allWord a && allWord b.
Proof.
  induction a as [| c a IH]; cbn; [reflexivity |]. now rewrite IH, andb_assoc.
Qed.

Lemma mapWords_compose (f g : string -> string) :
  (forall w, allWord w = true -> w <> EmptyString ->
             allWord (f w) = true /\ f w <> EmptyString) ->
  forall n s, String.length s <= n ->
    mapWords g (mapWords f s) = mapWords (fun w => g (f w)) s.
Proof.
  intros Hf. unfold mapWords. induction n as [| n IH]; intros s Hlen.
  - destruct s; [reflexivity | simpl in Hlen; lia].
  - rewrite (mapWordsFrom_run f s), (mapWordsFrom_run (fun w => g (f w)) s).
    destruct (wordRun s) as [w rest] eqn:Hrun. cbn [String.append].
    destruct (wordRun_spec _ _ _ Hrun) as (_ & Hw & Hrest).
    assert (Hfw : allWord (applyWord f w) = true
                  /\ applyWord g (applyWord f w) = applyWord (fun w0 => g (f w0)) w).
    { unfold applyWord. destruct w as [| c w']; [split; reflexivity |]. cbn [isEmpty].
      destruct (Hf (String c w') Hw ltac:(discriminate)) as [Hall Hne].
      split; [exact Hall |]. destruct (f (String c w')); [congruence | reflexivity]. }
    destruct Hfw as [Hall Happly].
    rewrite mapWordsFrom_run.
    destruct rest as [| x r].
    + rewrite wordRun_app by (try assumption; reflexivity).
      cbn [String.append]. now rewrite !append_nil_r, Happly.
    + rewrite wordRun_app by (try assumption; exact Hrest).
      cbn [String.append]. rewrite Happly. f_equal. f_equal.
      apply IH. apply wordRun_shorter in Hrun. lia.
Qed.

Section OneSubstitution.
Variables short full : string.
Hypothesis short_word : allWord short = true.
Hypothesis short_nonempty : short <> EmptyString.

Lemma wordAt_inside (p : option ascii) (s : string) :
  isWordOpt p = true -> wordAt short p s = None.
Proof. intros Hp. unfold wordAt. now rewrite Hp. Qed.

Lemma replaceAll_inside (s : string) :
  forall p, isWordOpt p = true ->
    replaceAll (wordAt short) full 0 p s
    = (let (w, rest) := wordRun s in
       w ++ match rest with
            | EmptyString => EmptyString
            | String x r => String x (replaceAll (wordAt short) full 0 (Some x) r)
            end)%string.
Proof.
  induction s as [| c r IH]; intros p Hp; [reflexivity |].
  cbn [replaceAll wordRun]. rewrite (wordAt_inside p _ Hp).
  destruct (isWordChar c) eqn:Hc.
  - rewrite (IH (Some c) Hc). destruct (wordRun r) as [w rest]. reflexivity.
  - reflexivity.
Qed.

Lemma replaceAll_skip (w rest : string) :
  allWord w = true ->
  forall p, isWordOpt p = true ->
    exists p', isWordOpt p' = true
               /\ replaceAll (wordAt short) full (String.length w) p (w ++ rest)
                  = replaceAll (wordAt short) full 0 p' rest.
Proof.
  induction w as [| c w IH]; intros Hw p Hp.
  - exists p. split; [assumption |]. cbn [String.length String.append].
    destruct rest; reflexivity.
  - cbn [allWord] in Hw. apply andb_true_iff in Hw. destruct Hw as [Hc Hw].
    destruct (IH Hw (Some c) Hc) as (p' & Hp' & Heq).
    exists p'. split; [assumption |]. cbn [String.length String.append replaceAll].
    exact Heq.
Qed.

Lemma wordAt_other (p : option ascii) (s w rest : string) :
  wordRun s = (w, rest) -> String.eqb w short = false -> wordAt short p s = None.
Proof.
  intros Hrun Hneq. unfold wordAt. destruct (isWordOpt p); [reflexivity |].
  destruct (stripLit false short s) as [after |] eqn:Hstrip; [| reflexivity].
  destruct (isWordOpt (headOf after)) eqn:Hafter; [reflexivity |].
  apply stripLit_exact in Hstrip. subst s.
  rewrite (wordRun_app short after short_word Hafter) in Hrun.
  inversion Hrun; subst. rewrite String.eqb_refl in Hneq. discriminate.
Qed.

Lemma wordAt_short (p : option ascii) (rest : string) :
  isWordOpt p = false -> isWordOpt (headOf rest) = false ->
  wordAt short p (short ++ rest) = Some (String.length short).
Proof.
  intros Hp Hrest. unfold wordAt. rewrite Hp.
  rewrite (proj2 (stripLit_exact short (short ++ rest) rest) eq_refl).
  now rewrite Hrest.
Qed.

Lemma wordAt_nonword (p : option ascii) (c : ascii) (r : string) :
  isWordChar c = false -> wordAt short p (String c r) = None.
Proof.
  intros Hc. unfold wordAt. destruct (isWordOpt p); [reflexivity |].
  destruct short as [| a short']; [congruence |].
  cbn [stripLit]. unfold charEq. destruct (Ascii.eqb c a) eqn:Hca; [| reflexivity].
  apply Ascii.eqb_eq in Hca. subst a. cbn [allWord] in short_word.
  rewrite Hc in short_word. discriminate.
Qed.

Lemma replaceAll_start (s : string) (p : option ascii) :
  isWordOpt p = false ->
  replaceAll (wordAt short) full 0 p s
  = (let (w, rest) := wordRun s in
     applyWord (substitute short full) w
     ++ match rest with
        | EmptyString => EmptyString
        | String x r => String x (replaceAll (wordAt short) full 0 (Some x) r)
        end)%string.
Proof.
  intros Hp. destruct s as [| c r]; [reflexivity |].
  destruct (isWordChar c) eqn:Hc.
  - destruct (wordRun (String c r)) as [w rest] eqn:Hrun.
    pose proof Hrun as Hrun0. cbn [wordRun] in Hrun. rewrite Hc in Hrun.
    destruct (wordRun r) as [w' rest'] eqn:Hr. inversion Hrun; subst w rest; clear Hrun.
    destruct (wordRun_spec _ _ _ Hr) as (Hsplit & Hw' & Hrest).
    unfold applyWord, substitute. cbn [isEmpty].
    destruct (String.eqb (String c w') short) eqn:Hword.
    + apply String.eqb_eq in Hword.
      assert (Hat : wordAt short p (String c r) = Some (S (String.length w'))).
      { rewrite Hsplit. change (String c (w' ++ rest')) with (String c w' ++ rest')%string.
        rewrite Hword, (wordAt_short p rest' Hp Hrest), <- Hword. reflexivity. }
      cbn [replaceAll]. rewrite Hat, Hsplit.
      destruct (replaceAll_skip w' rest' Hw' (Some c) Hc) as (p' & Hp' & ->).
      rewrite (replaceAll_inside rest' p' Hp').
      pose proof (wordRun_app EmptyString rest' eq_refl Hrest) as Hrun'.
      cbn [String.append] in Hrun'. rewrite Hrun'. reflexivity.
    + cbn [replaceAll]. rewrite (wordAt_other p _ _ _ Hrun0 Hword).
      rewrite (replaceAll_inside r (Some c) Hc), Hr. reflexivity.
  - cbn [replaceAll wordRun]. rewrite Hc, (wordAt_nonword p c r Hc). reflexivity.
Qed.

Lemma replace_mapWords :
  forall n s p, String.length s <= n -> isWordOpt p = false ->
    replaceAll (wordAt short) full 0 p s = mapWords (substitute short full) s.
Proof.
  unfold mapWords. induction n as [| n IH]; intros s p Hlen Hp.
  - destruct s; [reflexivity | simpl in Hlen; lia].
  - rewrite (replaceAll_start s p Hp), mapWordsFrom_run.
    destruct (wordRun s) as [w rest] eqn:Hrun. cbn [String.append].
    destruct rest as [| x r]; [reflexivity |].
    destruct (wordRun_spec _ _ _ Hrun) as (_ & _ & Hx). cbn in Hx.
    f_equal. f_equal. apply IH; [| exact Hx].
    apply wordRun_shorter in Hrun. lia.
Qed.

End OneSubstitution.

Lemma substitute_word (short full w : string) :
  allWord full = true -> full <> EmptyString ->
  allWord w = true -> w <> EmptyString ->
  allWord (substitute short full w) = true /\ substitute short full w <> EmptyString.
Proof. intros. unfold substitute. destruct (String.eqb w short); auto. Qed.

Ltac by_abbreviation w :=
  repeat match goal with
         | |- context [String.eqb w ?k] =>
             let E := fresh "E" in
             destruct (String.eqb w k) eqn:E;
             [apply String.eqb_eq in E; subst w; try reflexivity; try (split; [reflexivity | discriminate]) |];
             cbv iota
         end.

Lemma substitutions_expand (w : string) :
  substitute "org" "organization"
    (substitute "dept" "department"
       (substitute "proc" "process"
          (substitute "sys" "system"
             (substitute "tech" "technology"
                (substitute "info" "information"
                   (substitute "dev" "development"
                      (substitute "comm" "communication"
                         (substitute "mgr" "manager"
                            (substitute "mgmt" "management" w)))))))))
  = expand w.
Proof.
  unfold substitute, expand, normalizations. cbn [find fst snd].
  by_abbreviation w. reflexivity.
Qed.

Lemma expand_word (w : string) :
  allWord w = true -> w <> EmptyString ->
  allWord (expand w) = true /\ expand w <> EmptyString.
Proof.
  intros Hw Hne. unfold expand, normalizations. cbn [find fst snd].
  by_abbreviation w. split; assumption.
Qed.

Lemma expand_expand (w : string) : expand (expand w) = expand w.
Proof.
  unfold expand at 2. unfold normalizations. cbn [find fst snd].
  by_abbreviation w.
  unfold expand, normalizations. cbn [find fst snd].
  repeat match goal with
         | H : String.eqb w _ = false |- _ => rewrite H; clear H
         end.
  reflexivity.
Qed.

Lemma toLowerCase_app (a b : string) :
  toLowerCase (a ++ b) = (toLowerCase a ++ toLowerCase b)%string.
Proof. induction a as [| c a IH]; cbn; congruence. Qed.

Lemma lowerChar_idem (c : ascii) : lowerChar (lowerChar c) = lowerChar c.
Proof. destruct c as [[] [] [] [] [] [] [] []]; reflexivity. Qed.

Lemma toLowerCase_idem (s : string) : toLowerCase (toLowerCase s) = toLowerCase s.
Proof. induction s as [| c s IH]; cbn; [reflexivity | now rewrite lowerChar_idem, IH]. Qed.

Lemma expand_lower (w : string) :
  toLowerCase w = w -> toLowerCase (expand w) = expand w.
Proof.
  intros Hw. unfold expand, normalizations. cbn [find fst snd].
  by_abbreviation w. exact Hw.
Qed.

Lemma mapWords_lower (s : string) :
  forall cur, toLowerCase cur = cur -> toLowerCase s = s ->
    toLowerCase (mapWordsFrom expand cur s) = mapWordsFrom expand cur s.
Proof.
  assert (Happly : forall cur, toLowerCase cur = cur ->
                               toLowerCase (applyWord expand cur) = applyWord expand cur).
  { intros cur Hcur. unfold applyWord. destruct (isEmpty cur); [reflexivity |].
    now apply expand_lower. }
  induction s as [| c r IH]; intros cur Hcur Hs; cbn [mapWordsFrom].
  - now apply Happly.
  - cbn [toLowerCase] in Hs. inversion Hs as [[Hc Hr]]. rewrite Hc, Hr.
    destruct (isWordChar c).
    + apply IH; [| congruence]. rewrite toLowerCase_app, Hcur. cbn. now rewrite Hc.
    + rewrite toLowerCase_app, (Happly cur Hcur). cbn [toLowerCase].
      rewrite Hc, (IH EmptyString eq_refl Hr). reflexivity.
Qed.

(** [normalizeForClustering] lower-cases the text and replaces every
    maximal run of word characters (letters, digits, underscore) that is one
    of the ten abbreviations by its full form; everything else, part of a
    longer word included, stays as it is.  Normalizing twice is the same as
    normalizing once, and the case of the input does not matter. *)
Theorem normalization_spec :
  (forall text, normalizeForClustering text = mapWords expand (toLowerCase text))
  /\ (forall text,
        normalizeForClustering (normalizeForClustering text) = normalizeForClustering text)
  /\ (forall text, normalizeForClustering (toLowerCase text) = normalizeForClustering text)
  /\ normalizeForClustering "Mgmt. of the DEV-team community"
     = "management. of the development-team community".
Proof.
  assert (Hspec : forall text,
             normalizeForClustering text = mapWords expand (toLowerCase text)).
  { intros text. unfold normalizeForClustering, normalizations. cbn [fold_left].
    generalize (toLowerCase text). intros s. unfold replace.
    repeat match goal with
           | |- context [replaceAll (wordAt ?short) ?full 0 None ?t] =>
               rewrite (replace_mapWords short full eq_refl ltac:(discriminate)
                          (String.length t) t None (Nat.le_refl _) eq_refl)
           end.
    repeat match goal with
           | |- context [mapWords ?g (mapWords ?f ?t)] =>
               rewrite (mapWords_compose f g) with (n := String.length t) (s := t);
               [| | apply Nat.le_refl]
           end.
    1: { apply mapWordsFrom_ext. apply substitutions_expand. }
    all: intros w Hw Hne;
      apply substitute_word; [reflexivity | discriminate | assumption | assumption]. }
  split; [exact Hspec |]. split; [| split].
  - intros text. rewrite (Hspec (normalizeForClustering text)), (Hspec text).
    unfold mapWords at 2.
    rewrite (mapWords_lower (toLowerCase text) EmptyString eq_refl (toLowerCase_idem text)).
    fold (mapWords expand (toLowerCase text)).
    rewrite (mapWords_compose expand expand expand_word (String.length (toLowerCase text)))
      by apply Nat.le_refl.
    apply mapWordsFrom_ext. apply expand_expand.
  - intros text. now rewrite !Hspec, toLowerCase_idem.
  - vm_compute. reflexivity.
Qed.

(** ** The leaders of a run *)

Lemma forEach_flat_map {St E F : Type} (step : St -> F -> result St) (g : E -> list F)
    (xs : list E) :
  forall s,
    forEach (fun s0 x => forEach step (g x) s0) xs s = forEach step (flat_map g xs) s.
Proof.
  induction xs as [| x xs IH]; intros s; cbn [forEach flat_map]; [reflexivity |].
  rewrite forEach_app. destruct (forEach step (g x) s); cbn [bind]; [apply IH | reflexivity].
Qed.

Lemma filter_flat_map {A B : Type} (p : B -> bool) (g : A -> list B) (l : list A) :
  filter p (flat_map g l) = flat_map (fun x => filter p (g x)) l.
Proof.
  induction l as [| x l IH]; cbn [flat_map]; [reflexivity |].
  now rewrite filter_app, IH.
Qed.

Lemma existsb_flat_map {A B : Type} (p : B -> bool) (g : A -> list B) (l : list A) :
  existsb p (flat_map g l) = existsb (fun x => existsb p (g x)) l.
Proof.
  induction l as [| x l IH]; cbn [flat_map existsb]; [reflexivity |].
  now rewrite existsb_app, IH.
Qed.

Lemma assocUpdate_pure {V : Type} (d : list (string * V)) (key : string) (g : V -> V) :
  assocUpdate d key (fun x => Ok (g x)) = Ok (updFirst d key g).
Proof.
  induction d as [| [k x] d IH]; cbn [assocUpdate updFirst]; [reflexivity |].
  destruct (String.eqb k key); cbn [bind]; [reflexivity |]. now rewrite IH.
Qed.

Lemma updFirst_twice {V : Type} (d : list (string * V)) (key : string) (f g : V -> V) :
  updFirst (updFirst d key f) key g = updFirst d key (fun x => g (f x)).
Proof.
  induction d as [| [k x] d IH]; cbn [updFirst]; [reflexivity |].
  destruct (String.eqb k key) eqn:Hk; cbn [updFirst]; rewrite Hk; [reflexivity |].
  now rewrite IH.
Qed.

Lemma updFirst_ext {V : Type} (d : list (string * V)) (key : string) (f g : V -> V) :
  (forall x, f x = g x) -> updFirst d key f = updFirst d key g.
Proof.
  intros Hfg. induction d as [| [k x] d IH]; cbn [updFirst]; [reflexivity |].
  now rewrite Hfg, IH.
Qed.

Lemma updFirst_id {V : Type} (d : list (string * V)) (key : string) (g : V -> V) :
  (forall x, g x = x) -> updFirst d key g = d.
Proof.
  intros Hg. induction d as [| [k x] d IH]; cbn [updFirst]; [reflexivity |].
  rewrite Hg, IH. now destruct (String.eqb k key).
Qed.

Lemma updFirst_map {V : Type} (E : string -> V) (key : string) (g : V -> V)
    (names : list string) :
  NoDup names ->
  updFirst (map (fun name => (name, E name)) names) key g
  = map (fun name => (name, if String.eqb name key then g (E name) else E name)) names.
Proof.
  induction names as [| name names IH]; intros Hnodup; cbn [map updFirst]; [reflexivity |].
  inversion Hnodup as [| ? ? Hnotin Hnodup']; subst.
  destruct (String.eqb name key) eqn:Hk.
  - apply String.eqb_eq in Hk. subst key. f_equal. apply map_ext_in. intros other Hother.
    destruct (String.eqb other name) eqn:Ho; [| reflexivity].
    apply String.eqb_eq in Ho. subst. contradiction.
  - now rewrite IH.
Qed.

Lemma updFirst_behind {V : Type} (d : list (string * V)) (key : string) (x : V)
    (g : V -> V) :
  ~ In key (map fst d) ->
  updFirst (d ++ [(key, x)]) key g = (d ++ [(key, g x)])%list.
Proof.
  induction d as [| [k y] d IH]; intros Hfresh; cbn [app updFirst].
  - now rewrite String.eqb_refl.
  - destruct (String.eqb k key) eqn:Hk.
    + apply String.eqb_eq in Hk. subst. exfalso. apply Hfresh. now left.
    + rewrite IH; [reflexivity |]. intros Hin. apply Hfresh. now right.
Qed.

Lemma leaderTexts_none (textResponses : list string) (byLeader : list (string * LeaderData)) :
  forEach (leaderTextStep None) textResponses byLeader = Ok byLeader.
Proof.
  apply forEach_unchanged. intros t. unfold leaderTextStep.
  now destruct (isValidTextResponse (VStr t)).
Qed.

Lemma leaderTexts_inherited (name : string) (textResponses : list string)
    (byLeader : list (string * LeaderData)) :
  truthy name = true -> inherited name = true ->
  forEach (leaderTextStep (Some name)) textResponses byLeader
  = if existsb (fun textResponse => isValidTextResponse (VStr textResponse)) textResponses
    then TypeError else Ok byLeader.
Proof.
  intros Htruthy Hinherited. unfold inherited in Hinherited.
  induction textResponses as [| t rest IH]; cbn [forEach existsb]; [reflexivity |].
  unfold leaderTextStep at 1. rewrite Htruthy, Hinherited.
  destruct (isValidTextResponse (VStr t)); cbn [bind orb]; [reflexivity | exact IH].
Qed.

Lemma leaderTexts_counted (name : string) (textResponses : list string) :
  truthy name = true -> inherited name = false ->
  forall byLeader,
    forEach (leaderTextStep (Some name)) textResponses byLeader
    = Ok (updFirst byLeader name
            (addCount (List.length
                         (filter (fun textResponse => isValidTextResponse (VStr textResponse))
                                 textResponses)))).
Proof.
  intros Htruthy Hinherited. unfold inherited in Hinherited.
  induction textResponses as [| t rest IH]; intros byLeader; cbn [forEach filter].
  - cbn [List.length]. rewrite updFirst_id; [reflexivity |].
    intros [c d]. unfold addCount. cbn. now rewrite Nat.add_0_r.
  - unfold leaderTextStep at 1. rewrite Htruthy, Hinherited.
    destruct (isValidTextResponse (VStr t)); cbn [bind].
    + rewrite assocUpdate_pure. cbn [bind]. rewrite IH, updFirst_twice.
      f_equal. apply updFirst_ext. intros [c d]. unfold addCount. cbn. f_equal. lia.
    + apply IH.
Qed.

Lemma recordsOf_snoc (name : string) (before : list SurveyRecord) (record : SurveyRecord) :
  recordsOf name (before ++ [record])
  = (recordsOf name before
     ++ if optEqb (leaderOf record) (Some name) then [record] else [])%list.
Proof. unfold recordsOf. now rewrite filter_app. Qed.

Lemma recordsOf_none (name : string) (cleanedData : list SurveyRecord) :
  recordsOf name cleanedData = [] <-> ~ In name (leaderNames cleanedData).
Proof.
  unfold recordsOf, leaderNames.
  induction cleanedData as [| record rest IH]; cbn [filter flat_map]; [tauto |].
  fold (leaderOf record). rewrite in_app_iff.
  destruct (leaderOf record) as [n |]; cbn [optEqb].
  - destruct (String.eqb n name) eqn:Hn.
    + apply String.eqb_eq in Hn. subst. split; [discriminate |].
      intros H. exfalso. apply H. left. now left.
    + apply String.eqb_neq in Hn. rewrite IH. cbn [In]. intuition.
  - rewrite IH. cbn [In]. tauto.
Qed.

Lemma entryOf_other (name : string) (before : list SurveyRecord) (record : SurveyRecord) :
  optEqb (leaderOf record) (Some name) = false ->
  entryOf name (before ++ [record]) = entryOf name before.
Proof.
  intros Hother. unfold entryOf. rewrite recordsOf_snoc, Hother, app_nil_r. reflexivity.
Qed.

Lemma entryOf_same (name : string) (before : list SurveyRecord) (record : SurveyRecord) :
  leaderOf record = Some name ->
  entryOf name (before ++ [record])
  = mkLeaderData
      (List.length (flat_map validTexts (recordsOf name before))
       + List.length (validTexts record))
      (match recordsOf name before with
       | first :: _ => departmentOf (objectOf first)
       | [] => departmentOf (objectOf record)
       end).
Proof.
  intros Hsame. unfold entryOf. rewrite recordsOf_snoc, Hsame. cbn [optEqb].
  rewrite String.eqb_refl, flat_map_app, length_app. cbn [flat_map]. rewrite app_nil_r.
  now destruct (recordsOf name before).
Qed.

Lemma knownNames_NoDup (cleanedData : list SurveyRecord) : NoDup (knownNames cleanedData).
Proof. apply NoDup_filter, setOf_NoDup. Qed.

Lemma knownNames_In (cleanedData : list SurveyRecord) (name : string) :
  In name (knownNames cleanedData)
  <-> In name (leaderNames cleanedData) /\ inherited name = false.
Proof.
  unfold knownNames. rewrite filter_In, setOf_In, negb_true_iff. tauto.
Qed.

Lemma leaderNames_snoc (before : list SurveyRecord) (record : SurveyRecord) :
  leaderNames (before ++ [record])
  = (leaderNames before
     ++ match leaderOf record with Some name => [name] | None => [] end)%list.
Proof.
  unfold leaderNames. rewrite flat_map_app. cbn [flat_map]. now rewrite app_nil_r.
Qed.

Lemma leaderStep_leaders (before : list SurveyRecord) (record : SurveyRecord)
    (byLeader : list (string * LeaderData)) :
  leaderStep (leadersOf before) record = Ok byLeader ->
  byLeader = leadersOf (before ++ [record]).
Proof.
  unfold leaderStep.
  destruct (asObject record) as [response |] eqn:Hobj; cbn [bind]; [| discriminate].
  assert (Hresponse : response = objectOf record).
  { destruct record; cbn in Hobj; try discriminate; now inversion Hobj. }
  clear Hobj. subst response.
  assert (Hdep : (if truthyOpt (_department (objectOf record))
                  then match _department (objectOf record) with
                       | Some d => d
                       | None => "Unknown"
                       end
                  else "Unknown") = departmentOf (objectOf record)).
  { unfold departmentOf. destruct (_department (objectOf record)) as [d |]; reflexivity. }
  rewrite Hdep. clear Hdep. fold (leaderOf record).
  rewrite forEach_flat_map.
  assert (Hvalid : List.length
                     (filter (fun textResponse => isValidTextResponse (VStr textResponse))
                             (flat_map (extractTextFromResponse (objectOf record))
                                       questionMappings))
                   = List.length (validTexts record)).
  { unfold validTexts. now rewrite filter_flat_map. }
  unfold leadersOf at 2. unfold knownNames. rewrite leaderNames_snoc.
  destruct (leaderOf record) as [n |] eqn:Hleader.
  - pose proof (extractLeaderName_truthy _ _ Hleader) as Htruthy.
    unfold setOf. rewrite fold_left_app. cbn [fold_left]. fold (setOf (leaderNames before)).
    unfold initLeader. rewrite Htruthy. cbn [andb].
    destruct (inherited n) eqn:Hinherited.
    + (* an inherited name: no entry, and no valid text *)
      assert (Hknown : knownLeader (leadersOf before) n = true).
      { unfold knownLeader. unfold inherited in Hinherited. rewrite Hinherited.
        apply orb_true_r. }
      rewrite Hknown. cbn [negb]. rewrite (leaderTexts_inherited n _ _ Htruthy Hinherited).
      destruct (existsb _ _); [discriminate |]. intros H. inversion H; subst; clear H.
      assert (Hnames : filter (fun name => negb (inherited name))
                              (setAdd (setOf (leaderNames before)) n)
                       = knownNames before).
      { unfold setAdd, knownNames. destruct (includes (setOf (leaderNames before)) n);
          [reflexivity |].
        rewrite filter_app. cbn [filter]. rewrite Hinherited. cbn [negb]. apply app_nil_r. }
      rewrite Hnames. unfold leadersOf. apply map_ext_in. intros name Hname.
      apply knownNames_In in Hname. destruct Hname as [_ Hown].
      rewrite entryOf_other; [reflexivity |]. rewrite Hleader. cbn [optEqb].
      apply String.eqb_neq. intros ->. congruence.
    + rewrite (leaderTexts_counted n _ Htruthy Hinherited), Hvalid.
      assert (Hfilter : forall S, filter (fun name => negb (inherited name)) (S ++ [n])
                                  = (filter (fun name => negb (inherited name)) S ++ [n])%list).
      { intros S. rewrite filter_app. cbn [filter]. now rewrite Hinherited. }
      assert (Hkeys : map fst (leadersOf before) = knownNames before).
      { unfold leadersOf. rewrite map_map. cbn [fst]. apply map_id. }
      assert (Hown : existsb (fun entry => String.eqb (fst entry) n) (leadersOf before)
                     = includes (setOf (leaderNames before)) n).
      { apply eq_true_iff_eq. rewrite existsb_exists, includes_In, setOf_In. split.
        - intros ([name entry] & Hin & Heq). cbn [fst] in Heq. apply String.eqb_eq in Heq.
          subst name. apply (in_map fst) in Hin. rewrite Hkeys in Hin.
          now apply knownNames_In in Hin.
        - intros Hin. exists (n, entryOf n before). split; [| apply String.eqb_refl].
          unfold leadersOf. apply in_map_iff. exists n. split; [reflexivity |].
          apply knownNames_In. auto. }
      unfold knownLeader. rewrite Hown. unfold inherited in Hinherited. rewrite Hinherited.
      rewrite orb_false_r. unfold setAdd.
      destruct (includes (setOf (leaderNames before)) n) eqn:Hseen; cbn [negb].
      * (* a leader with an entry *)
        intros H. inversion H; subst; clear H. fold (knownNames before).
        unfold leadersOf at 1. rewrite updFirst_map by apply knownNames_NoDup.
        apply map_ext_in. intros name Hname. f_equal.
        destruct (String.eqb name n) eqn:Hn.
        -- apply String.eqb_eq in Hn. subst name. rewrite (entryOf_same n before record Hleader).
           unfold addCount, entryOf. cbn [responseCount l_department]. f_equal.
           destruct (recordsOf n before) eqn:Hrecords; [| reflexivity].
           apply (proj1 (recordsOf_none n before)) in Hrecords.
           apply knownNames_In in Hname. tauto.
        -- rewrite entryOf_other; [reflexivity |]. rewrite Hleader. cbn [optEqb].
           now rewrite String.eqb_sym.
      * (* a new leader *)
        intros H. inversion H; subst; clear H.
        assert (Hnew : ~ In n (leaderNames before)).
        { intros Hin. apply (proj2 (setOf_In _ _)) in Hin.
          apply (proj2 (includes_In _ _)) in Hin. congruence. }
        rewrite Hfilter. fold (knownNames before).
        rewrite assocSet_fresh
          by (rewrite Hkeys; intros Hin; apply knownNames_In in Hin; tauto).
        rewrite updFirst_behind
          by (rewrite Hkeys; intros Hin; apply knownNames_In in Hin; tauto).
        rewrite map_app. cbn [map]. f_equal.
        -- unfold leadersOf. apply map_ext_in. intros name Hname.
           rewrite entryOf_other; [reflexivity |]. rewrite Hleader. cbn [optEqb].
           apply String.eqb_neq. intros ->. apply knownNames_In in Hname. tauto.
        -- rewrite (entryOf_same n before record Hleader).
           apply (proj2 (recordsOf_none n before)) in Hnew. rewrite Hnew. reflexivity.
  - (* no leader *)
    cbn [initLeader]. rewrite leaderTexts_none. intros H. inversion H; subst; clear H.
    rewrite app_nil_r. fold (knownNames before). unfold leadersOf.
    apply map_ext_in. intros name _. rewrite entryOf_other; [reflexivity |].
    now rewrite Hleader.
Qed.

Lemma leaderStep_throws (byLeader : list (string * LeaderData)) (record : SurveyRecord) :
  leaderStep byLeader record = TypeError <-> fatalRecord record = true.
Proof.
  unfold leaderStep, fatalRecord.
  destruct record as [| | | response]; cbn [asObject bind].
  - split; reflexivity.
  - split; reflexivity.
  - cbn. split; discriminate.
  - rewrite forEach_flat_map. unfold hasValidText.
    destruct (extractLeaderName (_steamLeader response)) as [n |] eqn:Hleader.
    + pose proof (extractLeaderName_truthy _ _ Hleader) as Htruthy.
      destruct (inherited n) eqn:Hinherited.
      * rewrite (leaderTexts_inherited n _ _ Htruthy Hinherited), existsb_flat_map.
        unfold inherited in Hinherited. rewrite Hinherited. cbn [andb].
        destruct (existsb _ questionMappings); split; congruence.
      * rewrite (leaderTexts_counted n _ Htruthy Hinherited).
        unfold inherited in Hinherited. rewrite Hinherited. cbn [andb].
        split; discriminate.
    + rewrite leaderTexts_none. split; discriminate.
Qed.

Lemma forEach_leaders (rest : list SurveyRecord) :
  forall before byLeader,
    forEach leaderStep rest (leadersOf before) = Ok byLeader ->
    byLeader = leadersOf (before ++ rest).
Proof.
  induction rest as [| record rest IH]; intros before byLeader Hrun.
  - cbn [forEach] in Hrun. rewrite app_nil_r. now inversion Hrun.
  - cbn [forEach] in Hrun.
    destruct (leaderStep (leadersOf before) record) as [d |] eqn:Hstep;
      cbn [bind] in Hrun; [| discriminate].
    apply leaderStep_leaders in Hstep. subst d.
    apply IH in Hrun. rewrite Hrun, <- app_assoc. reflexivity.
Qed.

(** [byLeader] as a function of the input.  The run throws on the arrays
    on which the category part throws.  Otherwise [byLeader] has one entry
    for every distinct extracted leader name that is not an inherited
    property, created in the order of the leaders' first records;
    [responseCount] is the number of valid texts in the leader's records,
    over all categories, and [department] is the department of the leader's
    first record. *)
Theorem leaders_functional (cleanedData : list SurveyRecord) :
  aggregateLeaders cleanedData
  = if existsb fatalRecord cleanedData then TypeError else Ok (leadersOf cleanedData).
Proof.
  unfold aggregateLeaders.
  pose proof (forEach_throws (fun _ => True) fatalRecord leaderStep cleanedData
                (fun _ _ _ _ _ => I) (fun s e _ _ => leaderStep_throws s e) [] I) as Hthrows.
  destruct (forEach leaderStep cleanedData []) as [byLeader |] eqn:Hrun.
  - destruct (existsb fatalRecord cleanedData).
    + destruct Hthrows as [_ Hthrows]. discriminate (Hthrows eq_refl).
    + f_equal. change (@nil (string * LeaderData)) with (leadersOf []) in Hrun.
      now apply forEach_leaders in Hrun.
  - destruct Hthrows as [Hthrows _]. now rewrite (Hthrows eq_refl).
Qed.

(** ** The leader batches *)

Lemma leaderBatchesFrom_spec (leaders : list (string * LeaderData)) :
  forall rounds i,
    List.length leaders - i <= rounds ->
    List.concat (leaderBatchesFrom rounds i leaders) = skipn i leaders
    /\ Forall (fun batch => 1 <= List.length batch <= 5) (leaderBatchesFrom rounds i leaders)
    /\ 5 * List.length (leaderBatchesFrom rounds i leaders) <= List.length leaders - i + 4.
Proof.
  induction rounds as [| rounds IH]; intros i Hrounds; cbn [leaderBatchesFrom].
  - rewrite skipn_all2 by lia. repeat split; [constructor | simpl; lia].
  - destruct (i <? List.length leaders) eqn:Hi.
    + apply Nat.ltb_lt in Hi. destruct (IH (i + 5) ltac:(lia)) as (Hconcat & Hsizes & Hcount).
      cbn [List.concat List.length]. split; [| split].
      * rewrite Hconcat. replace (i + 5) with (5 + i) by lia.
        rewrite <- skipn_skipn. apply firstn_skipn.
      * constructor; [| exact Hsizes].
        rewrite length_firstn, length_skipn. lia.
      * lia.
    + apply Nat.ltb_ge in Hi. rewrite skipn_all2 by lia.
      repeat split; [constructor | simpl; lia].
Qed.

Lemma sorted_app_order {A : Type} (R : A -> A -> Prop) (l1 l2 : list A) :
  StronglySorted R (l1 ++ l2) -> forall a b, In a l1 -> In b l2 -> R a b.
Proof.
  induction l1 as [| x l1 IH]; intros Hsorted a b Ha Hb; [contradiction |].
  cbn [app] in Hsorted. inversion Hsorted as [| ? ? Hrest Hx]; subst.
  destruct Ha as [-> | Ha]; [| now apply IH].
  rewrite Forall_forall in Hx. apply Hx. apply in_or_app. now right.
Qed.

(** Which leaders [processLeaderInsights] analyses.  They are the leaders
    with 10 or more responses, in descending order of [responseCount], and
    at most ten of them: a leader left out has 10 or more responses only if
    ten leaders were kept, none of them with fewer responses.  The batches
    hold these leaders in order, each batch between one and five of them, so
    that there are at most two batches. *)
Theorem leader_batches (byLeader : list (string * LeaderData)) :
  let leaders := significantLeaders byLeader in
  let batches := leaderBatches leaders in
  List.concat batches = leaders
  /\ List.length batches <= 2
  /\ Forall (fun batch => 1 <= List.length batch <= 5) batches
  /\ List.length leaders <= 10
  /\ StronglySorted (descending (fun entry => responseCount (snd entry))) leaders
  /\ (forall entry, In entry leaders ->
        In entry byLeader /\ 10 <= responseCount (snd entry))
  /\ (forall entry, In entry byLeader -> 10 <= responseCount (snd entry) ->
        In entry leaders
        \/ (List.length leaders = 10
            /\ forall kept, In kept leaders ->
                 responseCount (snd entry) <= responseCount (snd kept))).
Proof.
  cbv zeta. unfold leaderBatches.
  destruct (leaderBatchesFrom_spec (significantLeaders byLeader)
              (List.length (significantLeaders byLeader)) 0 ltac:(lia))
    as (Hconcat & Hsizes & Hcount).
  assert (Hten : List.length (significantLeaders byLeader) <= 10)
    by apply firstn_le_length.
  unfold significantLeaders in *.
  set (key := fun entry : string * LeaderData => responseCount (snd entry)) in *.
  set (enough := filter (fun entry => 10 <=? key entry) (JsObject.entries byLeader)) in *.
  split; [exact Hconcat |]. split; [lia |]. split; [exact Hsizes |]. split; [exact Hten |].
  split; [apply (firstn_sorted key), sortDesc_sorted |]. split.
  - intros entry Hin. apply firstn_In in Hin.
    apply (Permutation_in entry (sortDesc_perm key enough)) in Hin.
    apply filter_In in Hin. destruct Hin as [Hin Hkey]. apply Nat.leb_le in Hkey.
    apply (Permutation_in entry (entries_perm byLeader)) in Hin. auto.
  - intros entry Hin Hkey.
    assert (Hsorted : In entry (sortDesc key enough)).
    { apply (Permutation_in entry (Permutation_sym (sortDesc_perm key enough))).
      apply filter_In. split; [| now apply Nat.leb_le].
      now apply (Permutation_in entry (Permutation_sym (entries_perm byLeader))). }
    rewrite <- (firstn_skipn 10 (sortDesc key enough)) in Hsorted.
    apply in_app_iff in Hsorted. destruct Hsorted as [Hkept | Hdropped]; [now left |].
    right. split.
    + rewrite length_firstn. apply Nat.min_l.
      destruct (Nat.le_gt_cases 10 (List.length (sortDesc key enough))) as [Hle | Hlt];
        [exact Hle |].
      rewrite skipn_all2 in Hdropped by lia. contradiction.
    + intros kept Hkept.
      pose proof (sortDesc_sorted key enough) as Hall.
      rewrite <- (firstn_skipn 10 (sortDesc key enough)) in Hall.
      exact (sorted_app_order _ _ _ Hall kept entry Hkept Hdropped).
Qed.

(** The leaders of a run that are analysed: every leader in a batch is an
    extracted leader name of the input that is not an inherited property,
    and has 10 or more valid texts in its records; and [byLeader] has at
    most as many entries as there are distinct leader names. *)
Theorem leaders_of_run (cleanedData : list SurveyRecord)
    (byLeader : list (string * LeaderData)) :
  aggregateLeaders cleanedData = Ok byLeader ->
  List.length byLeader <= distinctCount (leaderNames cleanedData)
  /\ forall batch name data,
       In batch (leaderBatches (significantLeaders byLeader)) ->
       In (name, data) batch ->
       In name (leaderNames cleanedData)
       /\ inherited name = false
       /\ responseCount data
          = List.length (flat_map validTexts (recordsOf name cleanedData))
       /\ 10 <= responseCount data.
Proof.
  unfold aggregateLeaders. intros Hrun.
  change (@nil (string * LeaderData)) with (leadersOf []) in Hrun.
  apply forEach_leaders in Hrun. cbn [app] in Hrun. subst byLeader. split.
  - unfold leadersOf, knownNames. rewrite length_map, <- setOf_size.
    apply filter_length_le.
  - intros batch name data Hbatch Hentry.
    assert (Hin : In (name, data) (significantLeaders (leadersOf cleanedData))).
    { destruct (leaderBatchesFrom_spec (significantLeaders (leadersOf cleanedData))
                  (List.length (significantLeaders (leadersOf cleanedData))) 0 ltac:(lia))
        as (Hconcat & _). cbn [skipn] in Hconcat. rewrite <- Hconcat.
      apply in_concat. exists batch. split; assumption. }
    unfold significantLeaders in Hin. apply firstn_In in Hin.
    apply (Permutation_in _ (sortDesc_perm _ _)) in Hin.
    apply filter_In in Hin. destruct Hin as [Hin Hcount]. cbn [snd] in Hcount.
    apply Nat.leb_le in Hcount.
    apply (Permutation_in _ (entries_perm (leadersOf cleanedData))) in Hin.
    unfold leadersOf in Hin. apply in_map_iff in Hin. destruct Hin as (name' & Heq & Hname).
    inversion Heq; subst. apply knownNames_In in Hname. destruct Hname as [Hname Hown].
    repeat split; assumption.
Qed.

Lemma leaders_of_run_witness :
  exists byLeader batch data,
    aggregateLeaders tenAnswers = Ok byLeader
    /\ In batch (leaderBatches (significantLeaders byLeader))
    /\ In ("Jane Doe", data) batch
    /\ 10 <= responseCount data.
Proof.
  assert (Hrun : exists byLeader batch data,
             aggregateLeaders tenAnswers = Ok byLeader
             /\ In batch (leaderBatches (significantLeaders byLeader))
             /\ In ("Jane Doe", data) batch).
  { eexists. eexists. eexists. split; [vm_compute; reflexivity |].
    split; [left; vm_compute; reflexivity | left; reflexivity]. }
  destruct Hrun as (byLeader & batch & data & Hrun & Hbatch & Hentry).
  exists byLeader, batch, data.
  destruct (leaders_of_run tenAnswers byLeader Hrun) as [_ Hbatches].
  destruct (Hbatches batch "Jane Doe" data Hbatch Hentry) as (_ & _ & _ & Hten).
  split; [exact Hrun |]. split; [exact Hbatch |]. split; [exact Hentry | exact Hten].
Defined.

(** ** A cluster and its members *)

Lemma fold_leadersAdd (l : list (option string)) :
  forall acc, NoDup acc ->
    NoDup (fold_left leadersAdd l acc)
    /\ forall x, In x (fold_left leadersAdd l acc) <-> In x acc \/ In x l.
Proof.
  induction l as [| y l IH]; intros acc Hacc; cbn [fold_left].
  - split; [assumption | intros x; cbn; tauto].
  - assert (Hnext : NoDup (leadersAdd acc y)).
    { unfold leadersAdd. destruct (existsb (optEqb y) acc) eqn:Hy; [assumption |].
      apply NoDup_snoc; [assumption |]. intros Hin.
      assert (Htrue : existsb (optEqb y) acc = true).
      { apply existsb_exists. exists y. split; [assumption | now apply optEqb_eq]. }
      congruence. }
    destruct (IH _ Hnext) as [Hnodup Hin]. split; [assumption |].
    intros x. rewrite Hin, leadersAdd_In. cbn [In]. intuition.
Qed.

Lemma leaders_counted (first : option string) (others : list (option string)) :
  List.length (fold_left leadersAdd others [first]) = distinctLeaders (first :: others).
Proof.
  destruct (fold_leadersAdd others [first]) as [Hnodup Hin].
  { constructor; [intros [] | constructor]. }
  unfold distinctLeaders. apply NoDup_same_length; [assumption | apply NoDup_nodup |].
  intros x. rewrite Hin, nodup_In. cbn [In]. tauto.
Qed.

Lemma departments_counted (first : string) (others : list string) :
  List.length (fold_left setAdd others [first]) = distinctCount (first :: others).
Proof.
  destruct (fold_setAdd others [first]) as [Hnodup Hin].
  { constructor; [intros [] | constructor]. }
  unfold distinctCount. apply NoDup_same_length; [assumption | apply NoDup_nodup |].
  intros x. rewrite Hin, nodup_In. cbn [In]. tauto.
Qed.

Lemma firstn_snoc_capped {A : Type} (l : list A) (y : A) :
  (if List.length (firstn 8 l) <? 8 then (firstn 8 l ++ [y])%list else firstn 8 l)
  = firstn 8 (l ++ [y]).
Proof.
  rewrite firstn_app, length_firstn.
  destruct (Nat.min 8 (List.length l) <? 8) eqn:Hshort.
  - apply Nat.ltb_lt in Hshort.
    rewrite (firstn_all2 l) by lia.
    replace (8 - List.length l) with (S (7 - List.length l)) by lia.
    cbn [firstn]. now destruct (7 - List.length l).
  - apply Nat.ltb_ge in Hshort.
    replace (8 - List.length l) with 0 by lia. cbn [firstn]. now rewrite app_nil_r.
Qed.

(** Every cluster stands for a group of responses, and the groups split
    the responses.  After the clustering pass a cluster describes its group
    as [standsFor] says; the post-merge pass adds up the counts of the
    clusters it merges, the leader and department counts included, so that a
    leader or department of two merged clusters is counted twice, and keeps
    the signature and average length of the first. *)
Theorem cluster_members :
  (forall responses,
     exists groups,
       Forall2 standsFor groups (clusterSeeds responses)
       /\ Permutation (List.concat groups) responses)
  /\ (forall clusters,
        exists parts,
          Forall2 mergedFrom parts (postProcessClustersWithExamples clusters)
          /\ Permutation (List.concat parts) clusters).
Proof.
  split.
  - intros responses. rewrite clusterSeeds_greedy.
    destruct (greedy_partition openCluster absorbs (fun _ c o => absorb c o) closeCluster
                (fun m a =>
                   match m with
                   | seed :: others =>
                       o_count a = List.length m
                       /\ o_theme a = enhancedExtractTheme (text seed)
                       /\ o_examples a = firstn 8 (map fullOriginal m)
                       /\ o_leaders a
                          = fold_left leadersAdd (filter truthyOpt (map leader others))
                                      [leader seed]
                       /\ o_departments a
                          = fold_left setAdd (filter truthy (map department others))
                                      [department seed]
                       /\ forall t, In t (o_semanticSignature a)
                                    <-> exists r, In r m /\ In t (semanticTokens r)
                   | [] => False
                   end))
      with (xs := byTextLength responses) as (groups & HF & Hp).
    + intros x. cbn [openCluster o_count o_theme o_examples o_leaders o_departments
                     o_semanticSignature List.length map filter fold_left firstn].
      repeat split; try reflexivity.
      * intros Ht. exists x. split; [now left | assumption].
      * intros (r & [<- | []] & Ht). exact Ht.
    + intros x m a y (Hcount & Htheme & Hex & Hleaders & Hdeps & Hsig) _.
      unfold absorb. cbn [o_count o_theme o_examples o_leaders o_departments
                          o_semanticSignature].
      split; [cbn [List.length] in *; rewrite length_app; cbn [List.length]; lia |].
      split; [exact Htheme |]. split; [| split; [| split]].
      * rewrite Hex. change (x :: m ++ [y])%list with ((x :: m) ++ [y])%list.
        rewrite map_app. cbn [map]. apply firstn_snoc_capped.
      * rewrite map_app, filter_app, fold_left_app, <- Hleaders. cbn [map filter].
        destruct (truthyOpt (leader y)); reflexivity.
      * rewrite map_app, filter_app, fold_left_app, <- Hdeps. cbn [map filter].
        destruct (truthy (department y)); reflexivity.
      * intros t. rewrite setOf_In, in_app_iff, Hsig. split.
        -- intros [(r & Hr & Ht) | Ht].
           ++ exists r. split; [| assumption]. destruct Hr as [<- | Hr]; [now left |].
              right. apply in_or_app. now left.
           ++ exists y. split; [| assumption]. right. apply in_or_app. right. now left.
        -- intros (r & Hr & Ht). destruct Hr as [<- | Hr].
           ++ left. exists x. split; [now left | assumption].
           ++ apply in_app_iff in Hr. destruct Hr as [Hr | [<- | []]].
              ** left. exists r. split; [now right | assumption].
              ** now right.
    + exists groups. split; [| rewrite Hp; apply sortDesc_perm].
      eapply Forall2_impl; [| exact HF]. intros m c (a & -> & Hm).
      destruct m as [| seed others]; [contradiction |].
      destruct Hm as (Hcount & Htheme & Hex & Hleaders & Hdeps & Hsig).
      unfold standsFor, closeCluster.
      cbn [count theme examples leaderCount departmentCount semanticSignature].
      rewrite Hleaders, Hdeps, leaders_counted, departments_counted. auto 10.
  - intros clusters. rewrite postProcess_greedy. destruct (List.length clusters <? 2).
    + exists (map (fun c => [c]) clusters). split.
      * induction clusters as [| c l IH]; cbn [map]; constructor; [| exact IH].
        unfold mergedFrom. cbn. repeat split; lia.
      * induction clusters as [| c l IH]; cbn; [reflexivity | now constructor].
    + destruct (greedy_partition (fun c => c) merges mergeInto (fun c : Cluster => c)
                  (fun m a => mergedFrom m a)) with (xs := clusters)
        as (parts & HF & Hp).
      * intros x. unfold mergedFrom. cbn. repeat split; lia.
      * intros x m a y Ha _. unfold mergedFrom in *.
        destruct Ha as (Hcount & Hleaders & Hdeps & Hsig & Havg).
        unfold mergeInto. cbn [count leaderCount departmentCount semanticSignature avgLength].
        change (x :: m ++ [y])%list with ((x :: m) ++ [y])%list.
        rewrite !map_app, !list_sum_app. unfold list_sum in *.
        cbn [map fold_right] in *. repeat split; try assumption; lia.
      * exists parts. split; [| exact Hp].
        eapply Forall2_impl; [| exact HF]. intros m c (a & -> & Hm). exact Hm.
Qed.

(** Two answers of one leader's team that the post-merge pass brings
    together: the cluster counts two leaders and two departments. *)
Example merged_leader_counted_twice :
  map (fun c => (theme c, count c, leaderCount c, departmentCount c))
      (enhancedClusterResponsesWithFullExamples
         [ janeSays "the noise and music on our floor is too loud to get work done";
           janeSays "music noise bad in here all day" ])
  = [("noise_music", 2, 2, 2)].
Proof. vm_compute. reflexivity. Qed.

(** A run of white space is deleted, not replaced by one space: the words
    around it become one. *)
Example white_space_run_glues_words :
  enhancedCleanTextResponse "too  loud in here" = "tooloud in here".
Proof. vm_compute. reflexivity. Qed.

(** ** The theme measures of the code and of the specification *)

Lemma distinctCount_same (l1 l2 : list string) :
  (forall x, In x l1 <-> In x l2) -> distinctCount l1 = distinctCount l2.
Proof.
  intros Hsame. unfold distinctCount. apply Permutation_length.
  apply NoDup_Permutation; try apply NoDup_nodup.
  intros x. rewrite !nodup_In. apply Hsame.
Qed.

Lemma distinctCount_NoDup (l : list string) : NoDup l -> distinctCount l = List.length l.
Proof. intros Hl. unfold distinctCount. now rewrite nodup_fixed_point. Qed.

Lemma inBoth_NoDup (A B : list string) : NoDup A -> NoDup (inBoth A B).
Proof. intros HA. unfold inBoth. now apply NoDup_filter. Qed.

Lemma labelSimilarity_shared (theme1 theme2 : string) :
  NoDup (splitOn "_" theme1) ->
  labelSimilarity theme1 theme2 = sharedWordSimilarity theme1 theme2.
Proof.
  intros Hwords. unfold labelSimilarity, sharedWordSimilarity, sharedWords.
  destruct (string_dec theme1 theme2); [reflexivity |].
  cbv zeta. now rewrite distinctCount_NoDup by now apply inBoth_NoDup.
Qed.

Lemma listedCount_distinct (words keywords : list string) :
  NoDup keywords -> listedCount words keywords = keywordsPresent words keywords.
Proof.
  intros Hk. unfold keywordsPresent. rewrite distinctCount_NoDup by now apply inBoth_NoDup.
  reflexivity.
Qed.

Lemma listedCount_repeated (words before after : list string) (k : string) :
  listedCount words (before ++ k :: after)
  = listedCount words (before ++ after) + (if includes words k then 1 else 0).
Proof.
  unfold listedCount. rewrite !filter_app, !length_app. cbn [filter].
  destruct (in_dec string_dec k words) as [Hin | Hout].
  - apply includes_In in Hin. rewrite Hin. cbn [List.length]. lia.
  - destruct (includes words k) eqn:Hk; [apply includes_In in Hk; contradiction | lia].
Qed.

Lemma keywordsPresent_repeated (words before after : list string) (k : string) :
  In k (before ++ after) ->
  keywordsPresent words (before ++ k :: after) = keywordsPresent words (before ++ after).
Proof.
  intros Hk. unfold keywordsPresent. apply distinctCount_same. intros x.
  rewrite !inBoth_In, !in_app_iff. cbn [In]. rewrite in_app_iff in Hk.
  split; intros [Hx Hw]; (split; [| assumption]).
  - destruct Hx as [Hx | [<- | Hx]]; tauto.
  - tauto.
Qed.

Lemma listedCount_pos (words keywords : list string) (k : string) :
  In k keywords -> In k words -> 0 < listedCount words keywords.
Proof.
  intros Hk Hw. unfold listedCount.
  induction keywords as [| k' ks IH]; [contradiction |].
  cbn [filter]. destruct (in_dec string_dec k' words) as [Hin | Hout].
  - cbn [List.length]. lia.
  - destruct Hk as [-> | Hk]; [contradiction | now apply IH].
Qed.

Lemma themeScore_distinct (words keywords : list string) :
  NoDup keywords -> themeScore words keywords = keywordScore words keywords.
Proof.
  intros Hk. rewrite themeScore_listed. unfold listedScore, keywordScore.
  rewrite (listedCount_distinct words keywords Hk).
  destruct (keywordsPresent words keywords) as [| n]; cbn [Nat.eqb Nat.ltb Nat.leb]; lia.
Qed.

Lemma themeScore_repeated (words before after : list string) (k : string) :
  NoDup (before ++ after) -> In k (before ++ after) ->
  themeScore words (before ++ k :: after)
  = keywordScore words (before ++ k :: after) + (if includes words k then 1 else 0).
Proof.
  intros Hk Hin. rewrite themeScore_listed. unfold listedScore, keywordScore.
  rewrite listedCount_repeated, (keywordsPresent_repeated words before after k Hin).
  rewrite (listedCount_distinct words (before ++ after) Hk).
  destruct (includes words k) eqn:Hw.
  - apply includes_In in Hw.
    pose proof (listedCount_pos words (before ++ after) k Hin Hw) as Hpos.
    rewrite (listedCount_distinct words (before ++ after) Hk) in Hpos.
    destruct (keywordsPresent words (before ++ after)) as [| n]; [lia |].
    replace (S n + 1 =? 0) with false by (symmetry; apply Nat.eqb_neq; lia).
    cbn [Nat.ltb Nat.leb]. lia.
  - rewrite Nat.add_0_r.
    destruct (keywordsPresent words (before ++ after)) as [| n]; cbn [Nat.eqb Nat.ltb Nat.leb]; lia.
Qed.

Lemma same_length_split {A : Type} (b1 b2 r1 r2 : list A) :
  List.length b1 = List.length b2 -> (b1 ++ r1 = b2 ++ r2)%list -> b1 = b2 /\ r1 = r2.
Proof.
  revert b2. induction b1 as [| x b1 IH]; intros [| y b2] Hlen Heq; try discriminate.
  - now split.
  - cbn [List.length] in Hlen. cbn [app] in Heq. injection Heq as -> Heq.
    destruct (IH b2) as [-> ->]; [lia | assumption |]. now split.
Qed.

Lemma shorter_split {A : Type} (b1 b2 a1 a2 : list A) (x y : A) :
  List.length b1 < List.length b2 ->
  (b1 ++ x :: a1 = b2 ++ y :: a2)%list -> In x b2 /\ In y a1.
Proof.
  revert b2. induction b1 as [| c b1 IH]; intros [| z b2] Hlen Heq;
    cbn [List.length] in Hlen; try lia.
  - cbn [app] in Heq. injection Heq as -> ->. split; [now left | apply in_elt].
  - cbn [app] in Heq. injection Heq as -> Heq.
    destruct (IH b2) as [Hx Hy]; [lia | assumption |]. split; [now right | assumption].
Qed.

Lemma firstHighest_unique (score : list string -> nat)
    (dictionaries : list (string * list string)) (label1 label2 : string) :
  firstHighest score dictionaries label1 -> firstHighest score dictionaries label2 ->
  label1 = label2.
Proof.
  intros (b1 & k1 & a1 & Heq1 & _ & Hb1 & Ha1) (b2 & k2 & a2 & Heq2 & _ & Hb2 & Ha2).
  rewrite Heq1 in Heq2.
  destruct (Nat.lt_trichotomy (List.length b1) (List.length b2)) as [Hlt | [Hlen | Hgt]].
  - destruct (shorter_split _ _ _ _ _ _ Hlt Heq2) as [Hx Hy].
    specialize (Hb2 _ Hx). specialize (Ha1 _ Hy). cbn [snd] in Hb2, Ha1. lia.
  - destruct (same_length_split _ _ _ _ Hlen Heq2) as [_ Hrest]. now injection Hrest.
  - symmetry in Heq2. destruct (shorter_split _ _ _ _ _ _ Hgt Heq2) as [Hx Hy].
    specialize (Hb1 _ Hx). specialize (Ha2 _ Hy). cbn [snd] in Hb1, Ha2. lia.
Qed.

Lemma NoDup_check (l : list string) : nodup string_dec l = l -> NoDup l.
Proof. intros <-. apply NoDup_nodup. Qed.

(** The labels of the eleven dictionaries repeat no word. *)
Lemma dictionary_label_words (theme : string) (keywords : list string) :
  In (theme, keywords) themeKeywords -> NoDup (splitOn "_" theme).
Proof.
  intros Hin. unfold themeKeywords in Hin. cbn [In] in Hin.
  repeat (destruct Hin as [Hin | Hin];
          [injection Hin as <- _; apply NoDup_check; vm_compute; reflexivity |]).
  contradiction.
Qed.

(** The score that the code gives a dictionary is the number of its keywords
    present plus one if any is present, as the specification says, for ten
    of the eleven dictionaries whatever the words are.  The keyword list of
    [culture_environment] holds ["culture"] twice: for this dictionary the
    score of the code is one higher whenever ["culture"] is among the
    words, and as specified otherwise. *)
Theorem score_of_listed_keywords (words : list string) (theme : string)
    (keywords : list string) :
  In (theme, keywords) themeKeywords ->
  themeScore words keywords
  = keywordScore words keywords
    + (if String.eqb theme "culture_environment" && includes words "culture" then 1 else 0).
Proof.
  intros Hin. unfold themeKeywords in Hin. cbn [In] in Hin.
  repeat (destruct Hin as [Hin | Hin];
          [injection Hin as <- <-;
           try (rewrite themeScore_distinct by (apply NoDup_check; vm_compute; reflexivity);
                symmetry; apply Nat.add_0_r) |]);
    [| contradiction].
  exact (themeScore_repeated words
           ["culture"; "environment"; "atmosphere"; "team"; "collaboration"; "morale";
            "workplace"; "office"]
           ["values"; "belonging"] "culture"
           ltac:(apply NoDup_check; vm_compute; reflexivity)
           ltac:(now left)).
Qed.

Lemma score_of_listed_keywords_witness :
  exists keywords,
    In ("culture_environment", keywords) themeKeywords
    /\ themeScore ["culture"; "tools"] keywords = keywordScore ["culture"; "tools"] keywords + 1.
Proof.
  eexists. split.
  - unfold themeKeywords. do 8 right. left. reflexivity.
  - refine (score_of_listed_keywords ["culture"; "tools"] "culture_environment" _ _).
    unfold themeKeywords. do 8 right. left. reflexivity.
Defined.

(** C4, where the code departs from it.  The valid response
    ["culture tools"] has the words [culture] and [tools].  Scored as the
    specification says, [tools_technology] (keyword [tools]) and
    [culture_environment] (keyword [culture]) both have one keyword present
    and score 2, every other dictionary scores 0, and the first of the two,
    [tools_technology], wins the tie.  The code scores
    [culture_environment] 3, because its keyword list holds ["culture"]
    twice, and labels the response [culture_environment]. *)
Theorem keyword_listed_twice_counts_twice :
  let words := splitWs (toLowerCase "culture tools") in
  isValidTextResponse (VStr "culture tools") = true
  /\ words = ["culture"; "tools"]
  /\ map (fun e => (fst e, keywordScore words (snd e), themeScore words (snd e)))
         (filter (fun e => 0 <? themeScore words (snd e)) themeKeywords)
     = [("tools_technology", 2, 2); ("culture_environment", 2, 3)]
  /\ firstHighest (keywordScore words) themeKeywords "tools_technology"
  /\ enhancedExtractTheme "culture tools" = "culture_environment"
  /\ ~ firstHighest (keywordScore words) themeKeywords (enhancedExtractTheme "culture tools").
Proof.
  intros words.
  assert (Hwords : words = ["culture"; "tools"]) by (vm_compute; reflexivity).
  assert (Hlabel : enhancedExtractTheme "culture tools" = "culture_environment")
    by (vm_compute; reflexivity).
  assert (Htools : firstHighest (keywordScore words) themeKeywords "tools_technology").
  { rewrite Hwords. unfold themeKeywords.
    eexists [_], _, _. split; [reflexivity |].
    split; [vm_compute; lia |]. split.
    - intros e [<- | []]. vm_compute. lia.
    - intros e He.
      match goal with
      | H : In e ?after |- _ <= ?best =>
          assert (Hall : forallb (fun e => keywordScore ["culture"; "tools"] (snd e) <=? best)
                                 after = true) by (vm_compute; reflexivity)
      end.
      rewrite forallb_forall in Hall. apply Nat.leb_le. exact (Hall e He). }
  split; [vm_compute; reflexivity |]. split; [exact Hwords |].
  split; [rewrite Hwords; vm_compute; reflexivity |].
  split; [exact Htools |]. split; [exact Hlabel |].
  rewrite Hlabel. intros Hculture.
  pose proof (firstHighest_unique _ _ _ _ Hculture Htools) as Heq. discriminate Heq.
Qed.

(** When the theme label of the seed repeats no word, the combined score of
    the code is the score of the specification, with the number of shared
    label words over the larger word count as its theme part, and the
    absorption test compares that score with 0.45.  This is the case
    whenever a keyword of some dictionary is among the words of the seed,
    its label then being the label of a dictionary. *)
Theorem score_of_distinct_label_words (response otherResponse : RawResponse) :
  let words := splitWs (toLowerCase (text response)) in
  let label := enhancedExtractTheme (text response) in
  ((exists theme keywords k,
      In (theme, keywords) themeKeywords /\ In k keywords /\ In k words) ->
   NoDup (splitOn "_" label))
  /\ (NoDup (splitOn "_" label) ->
      combinedSimilarity response otherResponse = sharedWordScore response otherResponse
      /\ absorbs response otherResponse
         = PrimFloat.ltb 0.45 (sharedWordScore response otherResponse)).
Proof.
  intros words label. subst words label. split.
  - intros (theme & keywords & k & Hin & Hk & Hw).
    pose proof (extractThemeWith_cases themeKeywords (text response)) as Hcases.
    cbv zeta in Hcases. unfold enhancedExtractTheme.
    destruct Hcases as [Hbest | [Hzero _]].
    + apply firstBest_positive in Hbest. destruct Hbest as (kws & Hlab & _).
      exact (dictionary_label_words _ _ Hlab).
    + specialize (Hzero _ Hin). cbn [snd] in Hzero.
      pose proof (listedScore_pos _ keywords k Hk Hw). lia.
  - intros Hwords.
    assert (Hscore : combinedSimilarity response otherResponse
                     = sharedWordScore response otherResponse).
    { rewrite combinedSimilarity_score. unfold similarityScore, sharedWordScore.
      now rewrite (labelSimilarity_shared _ _ Hwords). }
    split; [exact Hscore |]. unfold absorbs. now rewrite Hscore.
Qed.

Lemma score_of_distinct_label_words_witness :
  absorbs bandwidthSeed parkingOther
  = PrimFloat.ltb 0.45 (sharedWordScore bandwidthSeed parkingOther).
Proof.
  destruct (score_of_distinct_label_words bandwidthSeed parkingOther) as [Hlabel Hscore].
  apply Hscore. apply Hlabel.
  exists "workload_balance". eexists. exists "bandwidth".
  split; [unfold themeKeywords; do 7 right; left; reflexivity |].
  split; [do 5 right; left; reflexivity |].
  assert (Hw : includes (splitWs (toLowerCase (text bandwidthSeed))) "bandwidth" = true)
    by (vm_compute; reflexivity).
  now apply includes_In in Hw.
Defined.

(** C2, where the code departs from it.  Two valid answers, the longer one
    labelled [parking_parking] and the shorter one [parking_garage].  The
    labels share one word and the larger label has two: the theme similarity
    of the specification is 0.5, its combined score is 0.326 and the shorter
    answer is not absorbed.  The code counts the word [parking] of the
    seed's label twice, so its theme similarity is 1 and its combined score
    0.476: the clustering pass absorbs the shorter answer and emits one
    cluster of two. *)
Theorem repeated_label_word_counts_twice :
  isValidTextResponse (VStr "parking parking is so bad here") = true
  /\ isValidTextResponse (VStr "parking garage floods") = true
  /\ byTextLength [parkingGarage; parkingSeed] = [parkingSeed; parkingGarage]
  /\ enhancedExtractTheme (text parkingSeed) = "parking_parking"
  /\ enhancedExtractTheme (text parkingGarage) = "parking_garage"
  /\ sharedWords ["parking"; "parking"] ["parking"; "garage"] = 1
  /\ sharedWordSimilarity "parking_parking" "parking_garage" = 0.5%float
  /\ calculateThemeSimilarity (text parkingSeed) (text parkingGarage) = 1%float
  /\ sharedWordScore parkingSeed parkingGarage = 0.32619047619047614%float
  /\ combinedSimilarity parkingSeed parkingGarage = 0.47619047619047616%float
  /\ absorbs parkingSeed parkingGarage = true
  /\ PrimFloat.ltb 0.45 (sharedWordScore parkingSeed parkingGarage) = false
  /\ map (fun c => (theme c, count c, examples c)) (clusterSeeds [parkingGarage; parkingSeed])
     = [("parking_parking", 2, ["parking parking is so bad here"; "parking garage floods"])]
  /\ map (fun c => (theme c, count c, examples c))
         (enhancedClusterResponsesWithFullExamples [parkingGarage; parkingSeed])
     = [("parking_parking", 2, ["parking parking is so bad here"; "parking garage floods"])].
Proof.
  split; [vm_compute; reflexivity |]. split; [vm_compute; reflexivity |].
  split; [vm_compute; reflexivity |]. split; [vm_compute; reflexivity |].
  split; [vm_compute; reflexivity |]. split; [vm_compute; reflexivity |].
  split; [vm_compute; reflexivity |]. split; [vm_compute; reflexivity |].
  split; [vm_compute; reflexivity |]. split; [vm_compute; reflexivity |].
  split; [vm_compute; reflexivity |]. split; [vm_compute; reflexivity |].
  split; vm_compute; reflexivity.
Qed.

(** ** The two passes as rounds *)

Section GreedyRounds.

Context {X Acc Out : Type}.
Variable opn : X -> Acc.
Variable tst : X -> X -> bool.
Variable cmb : X -> Acc -> X -> Acc.
Variable cls : Acc -> Out.

Lemma has_snoc (P : list nat) (i j : nat) : has (P ++ [i]) j = has P j || (j =? i).
Proof. unfold has. rewrite existsb_app. cbn [existsb]. now rewrite orb_false_r. Qed.

Lemma has_app (P Q : list nat) (j : nat) : has (P ++ Q) j = has P j || has Q j.
Proof. unfold has. apply existsb_app. Qed.

Lemma indexedFrom_fst {A : Type} (l : list A) (k : nat) :
  map fst (indexedFrom k l) = seq k (List.length l).
Proof.
  revert k. induction l as [| y l IH]; intros k; [reflexivity |].
  rewrite indexedFrom_cons. cbn [map fst List.length seq]. now rewrite IH.
Qed.

Lemma indexedFrom_snd {A : Type} (l : list A) (k : nat) : map snd (indexedFrom k l) = l.
Proof.
  revert k. induction l as [| y l IH]; intros k; [reflexivity |].
  rewrite indexedFrom_cons. cbn [map snd]. now rewrite IH.
Qed.

Lemma indexedFrom_app {A : Type} (l1 l2 : list A) (k : nat) :
  indexedFrom k (l1 ++ l2)
  = (indexedFrom k l1 ++ indexedFrom (k + List.length l1) l2)%list.
Proof.
  revert k. induction l1 as [| y l1 IH]; intros k.
  - cbn [app List.length]. now rewrite Nat.add_0_r.
  - cbn [app]. rewrite !indexedFrom_cons, IH. cbn [app List.length].
    now replace (S k + List.length l1) with (k + S (List.length l1)) by lia.
Qed.

Lemma filter_true {A : Type} (p : A -> bool) (l : list A) :
  (forall x, In x l -> p x = true) -> filter p l = l.
Proof.
  induction l as [| x l IH]; intros Hall; [reflexivity |].
  cbn [filter]. rewrite (Hall x) by now left. f_equal. apply IH. intros y Hy.
  apply Hall. now right.
Qed.

Lemma filter_false {A : Type} (p : A -> bool) (l : list A) :
  (forall x, In x l -> p x = false) -> filter p l = [].
Proof.
  induction l as [| x l IH]; intros Hall; [reflexivity |].
  cbn [filter]. rewrite (Hall x) by now left. apply IH. intros y Hy. apply Hall. now right.
Qed.

Lemma filter_filter {A : Type} (p q : A -> bool) (l : list A) :
  filter q (filter p l) = filter (fun x => p x && q x) l.
Proof.
  induction l as [| x l IH]; [reflexivity |].
  cbn [filter]. destruct (p x); cbn [filter andb]; [destruct (q x) |]; now rewrite IH.
Qed.

Lemma filter_snd {A B : Type} (p : B -> bool) (l : list (A * B)) :
  map snd (filter (fun e => p (snd e)) l) = filter p (map snd l).
Proof.
  induction l as [| e l IH]; [reflexivity |].
  cbn [filter map]. destruct (p (snd e)); cbn [map]; now rewrite IH.
Qed.

(** One round of the inner loop over index pairs with distinct indices: the
    round takes the pairs behind the seed that are not processed and pass
    the test, in order. *)
Lemma greedyInner_round (x : X) (idx : nat) (l : list (nat * X)) :
  forall a P,
    NoDup (map fst l) ->
    let taken :=
      filter (fun e => negb (fst e <=? idx) && negb (has P (fst e)) && tst x (snd e)) l in
    fold_left (greedyInner tst cmb x idx) l (a, P)
    = (fold_left (cmb x) (map snd taken) a, (P ++ map fst taken)%list).
Proof.
  induction l as [| [j y] l IH]; intros a P Hnd; cbv zeta.
  - cbn [filter map fold_left]. now rewrite app_nil_r.
  - cbn [map fst] in Hnd. apply NoDup_cons_iff in Hnd. destruct Hnd as [Hj Hnd].
    cbn [fold_left filter fst snd]. unfold greedyInner at 2.
    destruct (j <=? idx) eqn:Hle; cbn [orb negb andb]; [now apply IH |].
    destruct (has P j) eqn:Hhas; cbn [negb andb]; [now apply IH |].
    destruct (tst x y) eqn:Htst; [| now apply IH].
    rewrite (add_fresh _ _ Hhas). specialize (IH (cmb x a y) (P ++ [j])%list Hnd).
    cbv zeta in IH. rewrite IH. clear IH.
    assert (Hsame :
      filter (fun e => negb (fst e <=? idx) && negb (has (P ++ [j]) (fst e)) && tst x (snd e)) l
      = filter (fun e => negb (fst e <=? idx) && negb (has P (fst e)) && tst x (snd e)) l).
    { apply filter_ext_in. intros [j' y'] Hin. cbn [fst snd].
      rewrite has_snoc.
      assert (Hne : (j' =? j) = false).
      { apply Nat.eqb_neq. intros ->. apply Hj. apply (in_map fst) in Hin. exact Hin. }
      now rewrite Hne, orb_false_r. }
    rewrite Hsame. cbn [map fold_left fst snd]. now rewrite <- app_assoc.
Qed.


Lemma indexedFrom_unique {A : Type} (l : list A) (k j : nat) (y y' : A) :
  In (j, y) (indexedFrom k l) -> In (j, y') (indexedFrom k l) -> y = y'.
Proof.
  intros H1 H2. apply indexedFrom_In in H1, H2.
  destruct H1 as [_ H1]. destruct H2 as [_ H2]. congruence.
Qed.

Lemma indexedFrom_bounds {A : Type} (l : list A) (k j : nat) (y : A) :
  In (j, y) (indexedFrom k l) -> k <= j < k + List.length l.
Proof.
  intros Hin. apply (in_map fst) in Hin. rewrite indexedFrom_fst in Hin.
  cbn [fst] in Hin. now apply in_seq in Hin.
Qed.

Lemma greedyRounds_nil (fuel : nat) : greedyRounds tst fuel [] = [].
Proof. now destruct fuel. Qed.

(** The outer loop from position [length pre] on: its rounds are the rounds
    of the elements that are not yet processed. *)
Lemma greedyOuter_rounds (l : list X) :
  forall (pre : list X) (out : list Out) (P : list nat) (fuel : nat),
    List.length (filter (fun e => negb (has P (fst e))) (indexedFrom (List.length pre) l))
    <= fuel ->
    fst (fold_left (greedyOuter opn tst cmb cls (pre ++ l))
                   (indexedFrom (List.length pre) l) (out, P))
    = (out ++ map (closeGroup opn cmb cls)
         (greedyRounds tst fuel
            (map snd (filter (fun e => negb (has P (fst e)))
                             (indexedFrom (List.length pre) l)))))%list.
Proof.
  induction l as [| x l IH]; intros pre out P fuel Hfuel.
  - cbn [indexedFrom combine seq List.length filter map fold_left fst].
    unfold indexedFrom. cbn [List.length seq combine filter map fold_left fst].
    now rewrite greedyRounds_nil, app_nil_r.
  - rewrite indexedFrom_cons in *. cbn [fold_left filter fst] in *.
    assert (Hxs : (pre ++ x :: l = (pre ++ [x]) ++ l)%list) by now rewrite <- app_assoc.
    assert (Hlen : S (List.length pre) = List.length (pre ++ [x]))
      by (rewrite length_app; cbn [List.length]; lia).
    unfold greedyOuter at 2.
    destruct (has P (List.length pre)) eqn:Hhas; cbn [negb] in *.
    + rewrite Hxs, Hlen in *. now apply IH.
    + rewrite (add_fresh _ _ Hhas).
      rewrite (greedyInner_round x (List.length pre) (indexed (pre ++ x :: l)))
        by (unfold indexed; rewrite indexedFrom_fst; apply seq_NoDup).
      cbv zeta.
      set (pendT := filter (fun e => negb (has P (fst e))) (indexedFrom (S (List.length pre)) l))
        in *.
      assert (Htaken :
        filter (fun e => negb (fst e <=? List.length pre)
                         && negb (has (P ++ [List.length pre]) (fst e)) && tst x (snd e))
               (indexed (pre ++ x :: l))
        = filter (fun e => tst x (snd e)) pendT).
      { unfold indexed. rewrite indexedFrom_app, indexedFrom_cons, filter_app.
        cbn [Nat.add filter fst snd]. rewrite Nat.leb_refl. cbn [negb andb].
        rewrite filter_false.
        2: { intros [j y] Hin. apply indexedFrom_bounds in Hin. cbn [fst snd].
             replace (j <=? List.length pre) with true
               by (symmetry; apply Nat.leb_le; lia).
             reflexivity. }
        cbn [app]. unfold pendT. rewrite filter_filter. apply filter_ext_in.
        intros [j y] Hin. apply indexedFrom_bounds in Hin. cbn [fst snd].
        replace (j <=? List.length pre) with false by (symmetry; apply Nat.leb_gt; lia).
        rewrite has_snoc.
        replace (j =? List.length pre) with false by (symmetry; apply Nat.eqb_neq; lia).
        now rewrite orb_false_r. }
      rewrite Htaken.
      destruct fuel as [| fuel]; [cbn [List.length] in Hfuel; lia |].
      cbn [map snd greedyRounds]. rewrite <- !filter_snd.
      assert (Hrest :
        filter (fun e => negb (has ((P ++ [List.length pre])
                                    ++ map fst (filter (fun e => tst x (snd e)) pendT))
                                   (fst e)))
               (indexedFrom (S (List.length pre)) l)
        = filter (fun e => negb (tst x (snd e))) pendT).
      { unfold pendT at 2. rewrite filter_filter. apply filter_ext_in.
        intros [j y] Hin. cbn [fst snd]. rewrite has_app, has_snoc.
        pose proof (indexedFrom_bounds _ _ _ _ Hin) as Hb.
        replace (j =? List.length pre) with false by (symmetry; apply Nat.eqb_neq; lia).
        rewrite orb_false_r. destruct (has P j) eqn:HP; cbn [orb negb andb]; [reflexivity |].
        f_equal. destruct (tst x y) eqn:Htst.
        - apply has_In. apply (in_map fst _ (j, y)). apply filter_In. split; [| exact Htst].
          unfold pendT. apply filter_In. split; [exact Hin |]. cbn [fst]. now rewrite HP.
        - apply has_false. intros Hj. apply in_map_iff in Hj.
          destruct Hj as ([j' y'] & Heq & Hin'). cbn [fst] in Heq. subst j'.
          apply filter_In in Hin'. destruct Hin' as [Hin' Htst']. cbn [snd] in Htst'.
          unfold pendT in Hin'. apply filter_In in Hin'. destruct Hin' as [Hin' _].
          rewrite (indexedFrom_unique _ _ _ _ _ Hin Hin') in Htst. congruence. }
      rewrite Hxs, Hlen. rewrite (IH (pre ++ [x])%list _ _ fuel).
      * rewrite <- Hlen, Hrest, <- app_assoc. reflexivity.
      * rewrite <- Hlen, Hrest. cbn [List.length] in Hfuel.
        pose proof (filter_length_le (fun e => negb (tst x (snd e))) pendT). lia.
Qed.

Lemma greedy_rounds (xs : list X) :
  greedy opn tst cmb cls xs = map (closeGroup opn cmb cls) (groupsOf tst xs).
Proof.
  pose proof (greedyOuter_rounds xs [] [] [] (List.length xs)) as Hrounds.
  cbn [List.length app] in Hrounds.
  rewrite filter_true, indexedFrom_snd in Hrounds by reflexivity.
  apply Hrounds. unfold indexedFrom. rewrite length_combine, length_seq. lia.
Qed.

Lemma filter_split {A : Type} (p : A -> bool) (l : list A) :
  Permutation (filter p l ++ filter (fun x => negb (p x)) l) l.
Proof.
  induction l as [| x l IH]; [constructor |].
  cbn [filter]. destruct (p x); cbn [negb app].
  - now constructor.
  - etransitivity; [symmetry; apply Permutation_middle | now constructor].
Qed.

(** Every element is in exactly one round. *)
Lemma greedyRounds_members (fuel : nat) :
  forall xs, List.length xs <= fuel ->
             Permutation (flat_map (fun g => fst g :: snd g) (greedyRounds tst fuel xs)) xs.
Proof.
  induction fuel as [| fuel IH]; intros [| x rest] Hlen; cbn [List.length] in Hlen;
    [apply perm_nil | lia | apply perm_nil |].
  cbn [greedyRounds flat_map fst snd app]. apply perm_skip.
  etransitivity; [| apply (filter_split (tst x))].
  apply Permutation_app_head. apply IH.
  pose proof (filter_length_le (fun y => negb (tst x y)) rest). lia.
Qed.

End GreedyRounds.

(** The clustering pass in rounds.  With the responses in descending order
    of text length, the first response that is left becomes a seed and
    absorbs, in order, exactly those of the responses still left whose
    combined score against it exceeds 0.45; the pass goes on in the same way
    with the responses that remain.  The pass returns, round by round, the
    cluster of the seed after it absorbed its responses one by one, and
    every response is in exactly one round.  The post-merge pass of two or
    more clusters proceeds in the same rounds, with the merge test against
    the first cluster of a round and [mergeInto]. *)
Theorem passes_in_rounds :
  (forall responses,
     let groups := groupsOf absorbs (byTextLength responses) in
     clusterSeeds responses
     = map (fun g => closeCluster (fold_left absorb (snd g) (openCluster (fst g)))) groups
     /\ Permutation (flat_map (fun g => fst g :: snd g) groups) responses)
  /\ (forall clusters,
        let groups := groupsOf merges clusters in
        postProcessClustersWithExamples clusters
        = (if List.length clusters <? 2 then clusters
           else map (fun g => fold_left (mergeInto (fst g)) (snd g) (fst g)) groups)
        /\ Permutation (flat_map (fun g => fst g :: snd g) groups) clusters).
Proof.
  split.
  - intros responses groups. subst groups. split.
    + rewrite clusterSeeds_greedy. apply greedy_rounds.
    + etransitivity; [apply greedyRounds_members; apply Nat.le_refl |].
      unfold byTextLength. apply sortDesc_perm.
  - intros clusters groups. subst groups. split.
    + rewrite postProcess_greedy. destruct (List.length clusters <? 2); [reflexivity |].
      exact (greedy_rounds (fun c => c) merges mergeInto (fun c => c) clusters).
    + apply greedyRounds_members. apply Nat.le_refl.
Qed.
